(** * Ilom WhatsApp bot: rate limiter, anti-spam engine, command dispatcher
      and priority message queue

    A shallow embedding of [src/utils/rateLimiter.js], [src/utils/antiSpam.js],
    [src/handlers/commandHandler.js], the [CacheManager] and the
    [MessageQueue] class, together with the properties the design document
    states about them.

    Conventions.
    - JavaScript numbers that hold timestamps, counters and durations are
      integers ([Z], milliseconds); spam severities are fractions and are
      modelled as rationals ([Q]).  [NaN] is [None] where it can arise.
    - An [async] function is a computation in the monad [M]: it threads the
      process state ([World]) and either returns or throws.  One call runs
      in one cooperative tick: [Date.now()] is constant during a call.
    - [await]ed calls are sequenced with bind; a call that is not awaited
      yields a promise value (see [determineAction] in [checkSpam]). *)

From Stdlib Require Import ZArith QArith Lia List Permutation Sorted.
From stdpp Require Import gmap strings list.

Local Open Scope string_scope.
Local Open Scope list_scope.
Local Open Scope Z_scope.

(* ===================================================================== *)
(** ** JavaScript control: results, exceptions, the state monad *)
(* ===================================================================== *)

Inductive JsError :=
  | CacheFailure            (* the cache collaborator threw *)
  | TypeError               (* e.g. [x.filter is not a function] *)
  | HandlerFailure (msg : string)    (* thrown by a command's [execute] *)
  | Nullish.                (* [undefined] or [null], thrown by a command's [execute] *)

Inductive Res (A : Type) :=
  | Ok (a : A)
  | Throw (e : JsError).
Arguments Ok {A} a.
Arguments Throw {A} e.

Definition M (S A : Type) : Type := S -> Res A * S.

Definition ret {S A} (a : A) : M S A := fun s => (Ok a, s).

Definition bind {S A B} (m : M S A) (k : A -> M S B) : M S B :=
  fun s => match m s with
           | (Ok a, s') => k a s'
           | (Throw e, s') => (Throw e, s')
           end.

Definition throw {S A} (e : JsError) : M S A := fun s => (Throw e, s).

(** [try { body } catch (error) { handler }] *)
Definition try_catch {S A} (body : M S A) (handler : JsError -> M S A) : M S A :=
  fun s => match body s with
           | (Ok a, s') => (Ok a, s')
           | (Throw e, s') => handler e s'
           end.

(** [try { body } finally { fin }] where [fin] completes normally. *)
Definition finally {S A} (body : M S A) (fin : M S unit) : M S A :=
  fun s => match body s with
           | (r, s') => match fin s' with
                        | (Ok _, s'') => (r, s'')
                        | (Throw e, s'') => (Throw e, s'')
                        end
           end.

Definition gets {S A} (f : S -> A) : M S A := fun s => (Ok (f s), s).
Definition modify {S} (f : S -> S) : M S unit := fun s => (Ok tt, f s).

Declare Scope js_scope.
Delimit Scope js_scope with js.
Notation "x <- c1 ;; c2" := (bind c1 (fun x => c2))
  (at level 100, c1 at next level, right associativity) : js_scope.
Notation "c1 ;;; c2" := (bind c1 (fun _ => c2))
  (at level 100, right associativity) : js_scope.

(** [Math.ceil(x / d)] on integers, [d > 0]. *)
Definition ceil_div (x d : Z) : Z := - ((- x) / d).

(* ===================================================================== *)
(** ** The data kept in the cache *)
(* ===================================================================== *)

(** Rate limiter violation entry: [{type, timestamp, ip: null}]. *)
Record RlViolation := mkRlViolation {
  rv_type : string;
  rv_timestamp : Z
}.

(** [{userId, bannedAt, duration, reason}] *)
Record BanData := mkBanData {
  bd_userId : string;
  bd_bannedAt : Z;
  bd_duration : Z;
  bd_reason : string
}.

(** Anti-spam frequency entry: [{timestamp, messageId}]. *)
Record FreqEntry := mkFreqEntry {
  fe_timestamp : Z;
  fe_messageId : option string
}.

(** Anti-spam content entry: [{content, timestamp}]. *)
Record ContentEntry := mkContentEntry {
  ct_content : string;
  ct_timestamp : Z
}.

(** Anti-spam violation: [{timestamp, indicators, severity}]. *)
Record SpamViolation := mkSpamViolation {
  sv_timestamp : Z;
  sv_indicators : list string;
  sv_severity : Q
}.

(** [{command, timestamp, executionTime}] under [lastCommand_<sender>]. *)
Record LastCommand := mkLastCommand {
  lc_command : string;
  lc_timestamp : Z;
  lc_executionTime : Z
}.

Inductive CacheValue :=
  | VTimes (l : list Z)
  | VRlViolations (l : list RlViolation)
  | VBan (b : BanData)
  | VFreq (l : list FreqEntry)
  | VContent (l : list ContentEntry)
  | VSpamViolations (l : list SpamViolation)
  | VLastCommand (c : LastCommand).

(** A NodeCache slot: the value and its expiry instant ([t], 0 = never). *)
Record CacheEntry := mkCacheEntry {
  ce_value : CacheValue;
  ce_expires : Z
}.

(** Values of [config] read by the modelled code. *)
Record Config := mkConfig {
  cfg_ownerNumbers : list string;
  cfg_cacheTTL : Z;           (* config.performance.cacheTTL || 3600 *)
  cfg_checkAdmins : bool;     (* config.antiSpam?.checkAdmins *)
}.

Inductive LogLine :=
  | LogError (what : string)
  | LogWarn (what : string).

(** The texts the dispatcher sends, by their headline. *)
Inductive Reply :=
  | BannedUser
  | BannedGroup
  | AccessDenied
  | OwnerCommand
  | CooldownActive (timeLeft : Z)
  | RateLimited (seconds : option Z)
  | AntiSpamProtection (waitTime : option Q)
  | InsufficientArguments
  | TooManyArguments
  | CommandError.

(** What the dispatcher does to the outside world, in order. *)
Inductive Effect :=
  | SendMessage (chat : string) (what : Reply)
  | PresenceUpdate (presence : string) (chat : string)
  | Execute (command : string) (sender : string)
  | LogCommand (sender command : string)
  | UpdateUser (sender : string)
  | UpdateGroup (chat : string).

Record World := mkWorld {
  w_cfg : Config;
  w_now : Z;                              (* Date.now() *)
  w_cache : gmap string CacheEntry;       (* the NodeCache store *)
  w_faults : list bool;                   (* which coming cache calls throw *)
  w_thrown : nat;                         (* cache calls that threw so far *)
  w_log : list LogLine;
  w_cooldowns : gmap string Z;            (* CommandHandler.cooldowns *)
  w_stats : gmap string (nat * nat);      (* commandStats: used, errors *)
  w_out : list Effect
}.

Definition set_now (t : Z) (w : World) : World :=
  mkWorld (w_cfg w) t (w_cache w) (w_faults w) (w_thrown w) (w_log w)
          (w_cooldowns w) (w_stats w) (w_out w).
Definition set_cache (c : gmap string CacheEntry) (w : World) : World :=
  mkWorld (w_cfg w) (w_now w) c (w_faults w) (w_thrown w) (w_log w)
          (w_cooldowns w) (w_stats w) (w_out w).
Definition set_faults (f : list bool) (th : nat) (w : World) : World :=
  mkWorld (w_cfg w) (w_now w) (w_cache w) f th (w_log w)
          (w_cooldowns w) (w_stats w) (w_out w).
Definition add_log (l : LogLine) (w : World) : World :=
  mkWorld (w_cfg w) (w_now w) (w_cache w) (w_faults w) (w_thrown w)
          (w_log w ++ [l]) (w_cooldowns w) (w_stats w) (w_out w).
Definition set_cooldowns (c : gmap string Z) (w : World) : World :=
  mkWorld (w_cfg w) (w_now w) (w_cache w) (w_faults w) (w_thrown w) (w_log w)
          c (w_stats w) (w_out w).
Definition set_stats (s : gmap string (nat * nat)) (w : World) : World :=
  mkWorld (w_cfg w) (w_now w) (w_cache w) (w_faults w) (w_thrown w) (w_log w)
          (w_cooldowns w) s (w_out w).
Definition add_out (e : Effect) (w : World) : World :=
  mkWorld (w_cfg w) (w_now w) (w_cache w) (w_faults w) (w_thrown w) (w_log w)
          (w_cooldowns w) (w_stats w) (w_out w ++ [e]).

Definition JS := M World.

Definition date_now : JS Z := gets w_now.
Definition logger (l : LogLine) : JS unit := modify (add_log l).
Definition emit (e : Effect) : JS unit := modify (add_out e).

(* ===================================================================== *)
(** ** CacheManager over NodeCache *)
(* ===================================================================== *)

(** NodeCache keeps [t = now + ttl * 1000] with each value and hides a slot
    once [t < Date.now()] ([t = 0] never expires).  Expired slots are dropped
    lazily by the library; here they stay in the map and are hidden at
    lookup.  Redis is the optional second tier and is left out. *)
Definition nodecache_get (now : Z) (c : gmap string CacheEntry) (k : string)
  : option CacheValue :=
  match c !! k with
  | Some e => if (ce_expires e =? 0) || (now <=? ce_expires e)
              then Some (ce_value e) else None
  | None => None
  end.

(** [const expiry = ttl || config.performance.cacheTTL;
     this.nodeCache.set(key, value, expiry)] *)
Definition nodecache_set (cfg : Config) (now : Z) (c : gmap string CacheEntry)
    (k : string) (v : CacheValue) (ttl : Z) : gmap string CacheEntry :=
  let expiry := if ttl =? 0 then cfg_cacheTTL cfg else ttl in
  <[k := mkCacheEntry v (now + expiry * 1000)]> c.

(** A call into the cache collaborator.  The head of [w_faults] says whether
    this call throws; an exhausted schedule means no further failure.
    CacheManager catches the errors of its two tiers and answers [null] or
    [false]; the schedule stands for a collaborator that does throw, the
    case the [try]/[catch] of the callers is written for. *)
Definition cache_call {A} (f : World -> A * World) : JS A :=
  fun w => match w_faults w with
           | true :: fs => (Throw CacheFailure, set_faults fs (S (w_thrown w)) w)
           | false :: fs => let (a, w') := f (set_faults fs (w_thrown w) w) in (Ok a, w')
           | [] => let (a, w') := f w in (Ok a, w')
           end.

Definition cache_get (k : string) : JS (option CacheValue) :=
  cache_call (fun w => (nodecache_get (w_now w) (w_cache w) k, w)).

Definition cache_set (k : string) (v : CacheValue) (ttl : Z) : JS unit :=
  cache_call (fun w =>
    (tt, set_cache (nodecache_set (w_cfg w) (w_now w) (w_cache w) k v ttl) w)).

Definition cache_del (k : string) : JS unit :=
  cache_call (fun w => (tt, set_cache (delete k (w_cache w)) w)).

(* ===================================================================== *)
(** ** RateLimiter (src/utils/rateLimiter.js) *)
(* ===================================================================== *)

Record Limit := mkLimit {
  lim_max : Z;
  lim_window : Z
}.

(** The numbers of a result; [None] is [NaN], which comes from
    [validRequests[0]] of an empty array and from [limit.max] and
    [limit.window] of a value that has no such fields. *)
Record LimitResult := mkLimitResult {
  allowed : bool;
  remaining : option Z;
  resetTime : option Z;
  retryAfter : option Z
}.

(** [this.defaultLimits] *)
Definition defaultLimits (type : string) : option Limit :=
  if decide (type = "messages") then Some (mkLimit 20 60000)
  else if decide (type = "commands") then Some (mkLimit 10 60000)
  else if decide (type = "media") then Some (mkLimit 5 300000)
  else if decide (type = "api") then Some (mkLimit 100 3600000)
  else None.

(** The property names that every object literal inherits from
    [Object.prototype]. *)
Definition objectPrototypeMembers : list string :=
  ["constructor"; "hasOwnProperty"; "isPrototypeOf"; "propertyIsEnumerable";
   "toLocaleString"; "toString"; "valueOf"; "__proto__";
   "__defineGetter__"; "__defineSetter__"; "__lookupGetter__"; "__lookupSetter__"].

(** [customLimit || this.defaultLimits[type] || this.defaultLimits.messages].
    [this.defaultLimits] is an object literal, so for a [type] that names a
    member of [Object.prototype] the lookup [this.defaultLimits[type]] finds
    that member: a function (the prototype object for [__proto__]), which
    is truthy and has neither [max] nor [window].  [None] is such a value;
    every other [type] that is no category gets the limit of [messages]. *)
Definition limitFor (type : string) (customLimit : option Limit) : option Limit :=
  match customLimit with
  | Some l => Some l
  | None => match defaultLimits type with
            | Some l => Some l
            | None => if bool_decide (type ∈ objectPrototypeMembers) then None
                      else Some (mkLimit 20 60000)
            end
  end.

Definition ratelimit_key (type userId : string) : string :=
  "ratelimit_" +:+ type +:+ "_" +:+ userId.
Definition violations_key (userId : string) : string := "violations_" +:+ userId.
Definition tempban_key (userId : string) : string := "tempban_" +:+ userId.

(** [requests.filter(timestamp => now - timestamp < limit.window)] *)
Definition validWindow (now window : Z) (requests : list Z) : list Z :=
  List.filter (fun timestamp => now - timestamp <? window) requests.

(** [await cache.get(key) || []] read as an array of timestamps.  The
    three key families of the limiter have different prefixes, so a slot
    never holds a value of another family; the last branch stands for
    the failure of [requests.filter] on a value that is not an array. *)
Definition as_times (v : option CacheValue) : JS (list Z) :=
  match v with
  | None => ret []
  | Some (VTimes l) => ret l
  | Some _ => throw TypeError
  end.

Definition as_rl_violations (v : option CacheValue) : JS (list RlViolation) :=
  match v with
  | None => ret []
  | Some (VRlViolations l) => ret l
  | Some _ => throw TypeError
  end.

Definition temporaryBan (userId : string) (duration : Z) : JS unit :=
  (now <- date_now ;;
   cache_set (tempban_key userId)
     (VBan (mkBanData userId now duration "Rate limit violations"))
     (ceil_div duration 1000))%js.

Definition recordViolation (userId type : string) : JS unit :=
  (v <- cache_get (violations_key userId) ;;
   violations <- as_rl_violations v ;;
   now <- date_now ;;
   let violations := violations ++ [mkRlViolation type now] in
   cache_set (violations_key userId) (VRlViolations violations) 3600 ;;;
   if 5 <=? Z.of_nat (length violations) then
     temporaryBan userId 3600000 ;;;
     logger (LogWarn "temporarily banned for rate limit violations")
   else ret tt)%js.

Definition head_plus (l : list Z) (d : Z) : option Z :=
  match l with
  | [] => None
  | x :: _ => Some (x + d)
  end.

(** With a limit the body runs on its numbers.  With a value that has
    neither [max] nor [window] both are [undefined], and every step of the
    same body is decided: no timestamp passes [now - timestamp < undefined],
    so [validRequests] is empty; [0 >= undefined] is false, so the call is
    let through; [Math.ceil(undefined / 1000)] is [NaN], which [cache.set]
    replaces by the configured TTL as it does with 0; [remaining] and
    [resetTime] are [NaN]. *)
Definition checkLimit (userId type : string) (customLimit : option Limit)
  : JS LimitResult :=
  try_catch
    (let limit := limitFor type customLimit in
     let key := ratelimit_key type userId in
     v <- cache_get key ;;
     requests <- as_times v ;;
     now <- date_now ;;
     match limit with
     | Some limit =>
       let validRequests := validWindow now (lim_window limit) requests in
       if lim_max limit <=? Z.of_nat (length validRequests) then
         recordViolation userId type ;;;
         let resetTime := head_plus validRequests (lim_window limit - now) in
         ret (mkLimitResult false (Some 0) resetTime
                (option_map (fun r => ceil_div r 1000) resetTime))
       else
         let validRequests := validRequests ++ [now] in
         cache_set key (VTimes validRequests) (ceil_div (lim_window limit) 1000) ;;;
         ret (mkLimitResult true
                (Some (lim_max limit - Z.of_nat (length validRequests)))
                (head_plus validRequests (lim_window limit - now))
                (Some 0))
     | None =>
       let validRequests := [now] in
       cache_set key (VTimes validRequests) 0 ;;;
       ret (mkLimitResult true None None (Some 0))
     end)%js
    (fun error =>
       logger (LogError "Rate limit check failed") ;;;
       ret (mkLimitResult true (Some 0) (Some 0) (Some 0)))%js.

(** [isTemporaryBanned]: [false], or the ban with its remaining time. *)
Definition isTemporaryBanned (userId : string) : JS (option (string * Z)) :=
  (v <- cache_get (tempban_key userId) ;;
   match v with
   | None => ret None
   | Some (VBan banData) =>
       now <- date_now ;;
       if bd_duration banData <=? now - bd_bannedAt banData then
         cache_del (tempban_key userId) ;;; ret None
       else ret (Some (bd_reason banData,
                       bd_duration banData - (now - bd_bannedAt banData)))
   | Some _ => throw TypeError
   end)%js.

(* ===================================================================== *)
(** ** AntiSpam (src/utils/antiSpam.js) *)
(* ===================================================================== *)

(** [this.settings] *)
Record Settings := mkSettings {
  maxMessages : Z;
  timeWindow : Z;
  maxSimilarity : Q;
  maxCapsPercent : Q;
  maxMentions : Z;
  maxUrls : Z;
  warningThreshold : Z;
  banThreshold : Z
}.

Definition defaultSettings : Settings :=
  mkSettings 5 10000 (8 # 10) (7 # 10) 5 3 3 5.

(** The instance: [whitelistedUsers] and [settings]. *)
Record AntiSpam := mkAntiSpam {
  whitelistedUsers : gset string;
  settings : Settings
}.

(** What the regular expressions and the edit distance measure on a text.
    Matching itself is the engine's; the arithmetic on the counts is below. *)
Record TextMeasures := mkTextMeasures {
  capsCount : string -> Z;            (* text.match(/[A-Z]/g) *)
  totalLetters : string -> Z;         (* text.match(/[a-zA-Z]/g) *)
  longestRun : string -> option Z;    (* longest match of patterns.repeatedChars *)
  mentionCount : string -> Z;         (* matches of patterns.mentions *)
  urlCount : string -> Z;             (* matches of patterns.urls *)
  suspicious : string -> bool;        (* one of suspiciousPatterns tests true *)
  calculateSimilarity : string -> string -> Q
}.

(** The result of one heuristic: [{isSpam, reason, severity}]. *)
Record Check := mkCheck {
  ck_isSpam : bool;
  ck_reason : string;
  ck_severity : option Q
}.

Definition notSpam : Check := mkCheck false "" None.

(** [{from, isGroup, isGroupAdmin, text}]; every field of [{}] is undefined. *)
Record SpamContext := mkSpamContext {
  ctx_isGroup : bool;
  ctx_isGroupAdmin : bool;
  ctx_text : option string
}.

Definition emptyContext : SpamContext := mkSpamContext false false None.

(** A value that is either there or still a promise (an [async] call that
    was not awaited); the promise carries what it settles to. *)
Inductive JsValue (A : Type) :=
  | Plain (a : A)
  | Promise (settles : Res A).
Arguments Plain {A} a.
Arguments Promise {A} settles.

(** [v === s] for a string literal [s]: a promise object is never equal. *)
Definition strict_eq (v : JsValue string) (s : string) : bool :=
  match v with
  | Plain a => bool_decide (a = s)
  | Promise _ => false
  end.

(** Start an [async] function without awaiting it: its cache calls are
    issued, the caller only holds the promise. *)
Definition unawaited {A} (m : JS A) : JS (JsValue A) :=
  fun w => let (r, w') := m w in (Ok (Promise r), w').

Record SpamResult := mkSpamResult {
  isSpam : bool;
  sr_reason : option string;
  sr_severity : option Q;
  sr_indicators : list string;
  sr_action : option (JsValue string);
  sr_waitTime : option Q;
  sr_error : option JsError
}.

Definition spam_freq_key (userId : string) : string := "spam_freq_" +:+ userId.
Definition spam_content_key (userId : string) : string := "spam_content_" +:+ userId.
Definition spam_violations_key (userId : string) : string :=
  "spam_violations_" +:+ userId.

Definition Qgtb (a b : Q) : bool := negb (Qle_bool a b).
Definition Qmin (a b : Q) : Q := if Qle_bool a b then a else b.

Definition as_freq (v : option CacheValue) : JS (list FreqEntry) :=
  match v with
  | None => ret []
  | Some (VFreq l) => ret l
  | Some _ => throw TypeError
  end.

Definition as_content (v : option CacheValue) : JS (list ContentEntry) :=
  match v with
  | None => ret []
  | Some (VContent l) => ret l
  | Some _ => throw TypeError
  end.

Definition as_spam_violations (v : option CacheValue) : JS (list SpamViolation) :=
  match v with
  | None => ret []
  | Some (VSpamViolations l) => ret l
  | Some _ => throw TypeError
  end.

(** [!text]: undefined or the empty string. *)
Definition no_text (text : option string) : bool :=
  match text with
  | None => true
  | Some t => bool_decide (t = "")
  end.

Definition strlen (t : string) : Z := Z.of_nat (String.length t).

Section AntiSpamChecks.
Variable this : AntiSpam.
Variable rx : TextMeasures.

Definition checkMessageFrequency (userId : string) (messageId : option string)
  : JS Check :=
  (v <- cache_get (spam_freq_key userId) ;;
   messages <- as_freq v ;;
   now <- date_now ;;
   let recentMessages :=
     List.filter (fun msg => now - fe_timestamp msg <? timeWindow (settings this))
                 messages ++ [mkFreqEntry now messageId] in
   cache_set (spam_freq_key userId) (VFreq recentMessages) 60 ;;;
   if maxMessages (settings this) <? Z.of_nat (length recentMessages) then
     ret (mkCheck true "message_frequency"
            (Some (Qmin (inject_Z (Z.of_nat (length recentMessages))
                         / inject_Z (maxMessages (settings this))) 3)))
   else ret notSpam)%js.

(** The [for (const prevMsg of recentMessages)] loop: the first message
    that is too similar decides. *)
Fixpoint firstSimilar (text : string) (recent : list ContentEntry) : option Q :=
  match recent with
  | [] => None
  | prevMsg :: rest =>
      let similarity := calculateSimilarity rx text (ct_content prevMsg) in
      if Qgtb similarity (maxSimilarity (settings this)) then Some similarity
      else firstSimilar text rest
  end.

(** [recentMessages.splice(0, recentMessages.length - 20)] when longer
    than 20: the last 20 stay. *)
Definition keepLast20 {A} (l : list A) : list A :=
  if (20 <? length l)%nat then drop (length l - 20) l else l.

Definition checkRepeatedContent (userId : string) (text : option string)
  : JS Check :=
  match text with
  | None => ret notSpam
  | Some t =>
    if no_text text || (strlen t <? 10) then ret notSpam else
    (v <- cache_get (spam_content_key userId) ;;
     previousMessages <- as_content v ;;
     now <- date_now ;;
     let recentMessages :=
       List.filter (fun msg => now - ct_timestamp msg <? 300000) previousMessages in
     match firstSimilar t recentMessages with
     | Some similarity => ret (mkCheck true "repeated_content" (Some similarity))
     | None =>
         cache_set (spam_content_key userId)
           (VContent (keepLast20 (recentMessages ++ [mkContentEntry t now]))) 300 ;;;
         ret notSpam
     end)%js
  end.

Definition checkCapsLock (text : option string) : Check :=
  match text with
  | None => notSpam
  | Some t =>
    if no_text text || (strlen t <? 20) then notSpam else
    let capsPercent :=
      if 0 <? totalLetters rx t
      then (inject_Z (capsCount rx t) / inject_Z (totalLetters rx t))%Q
      else 0%Q in
    if Qgtb capsPercent (maxCapsPercent (settings this)) && (15 <? capsCount rx t)
    then mkCheck true "excessive_caps" (Some capsPercent)
    else notSpam
  end.

Definition checkRepeatedChars (text : option string) : Check :=
  match text with
  | None => notSpam
  | Some t =>
    if no_text text then notSpam else
    match longestRun rx t with
    | Some maxLength =>
        mkCheck true "repeated_characters"
          (Some (Qmin (inject_Z maxLength / 20) 3))
    | None => notSpam
    end
  end.

Definition checkExcessiveMentions (text : option string) : Check :=
  match text with
  | None => notSpam
  | Some t =>
    if no_text text then notSpam else
    if maxMentions (settings this) <? mentionCount rx t then
      mkCheck true "excessive_mentions"
        (Some (inject_Z (mentionCount rx t) / inject_Z (maxMentions (settings this)))%Q)
    else notSpam
  end.

Definition checkExcessiveUrls (text : option string) : Check :=
  match text with
  | None => notSpam
  | Some t =>
    if no_text text then notSpam else
    if maxUrls (settings this) <? urlCount rx t then
      mkCheck true "excessive_urls"
        (Some (inject_Z (urlCount rx t) / inject_Z (maxUrls (settings this)))%Q)
    else notSpam
  end.

Definition checkSuspiciousPatterns (text : option string) : Check :=
  match text with
  | None => notSpam
  | Some t =>
    if no_text text then notSpam else
    if suspicious rx t then mkCheck true "suspicious_pattern" (Some (15 # 10))
    else notSpam
  end.

(** [indicator.severity || 1] *)
Definition severityOr1 (indicator : Check) : Q :=
  match ck_severity indicator with
  | None => 1
  | Some s => if Qeq_bool s 0 then 1 else s
  end.

Definition calculateSeverity (indicators : list Check) : Q :=
  Qmin (fold_left (fun sum indicator => (sum + severityOr1 indicator)%Q)
                  indicators 0%Q) 5.

Definition recentViolations (now : Z) (violations : list SpamViolation)
  : list SpamViolation :=
  List.filter (fun v => now - sv_timestamp v <? 3600000) violations.

Definition recordSpamViolation (userId : string) (indicators : list Check)
    (severity : Q) : JS unit :=
  (v <- cache_get (spam_violations_key userId) ;;
   violations <- as_spam_violations v ;;
   now <- date_now ;;
   let violations :=
     violations ++ [mkSpamViolation now (map ck_reason indicators) severity] in
   cache_set (spam_violations_key userId)
     (VSpamViolations (recentViolations now violations)) 3600 ;;;
   logger (LogWarn "Spam violation recorded"))%js.

(** The decision of [determineAction] on the violations it has read. *)
Definition decideAction (recent : list SpamViolation) (severity : Q) : string :=
  let violationCount := Z.of_nat (length recent) in
  let avgSeverity :=
    (fold_left (fun sum v => sum + sv_severity v) recent 0
     / inject_Z violationCount)%Q in
  if (banThreshold (settings this) <=? violationCount) || Qgtb avgSeverity 3
  then "ban"
  else if (warningThreshold (settings this) <=? violationCount) || Qgtb severity 2
  then "warn"
  else "throttle".

Definition determineAction (userId : string) (severity : Q) : JS string :=
  (v <- cache_get (spam_violations_key userId) ;;
   violations <- as_spam_violations v ;;
   now <- date_now ;;
   ret (decideAction (recentViolations now violations) severity))%js.

Definition calculateWaitTime (severity : Q) : Q :=
  Qmin (severity * 5000) 30000.

(** [Promise.all] of the seven checks: they work on distinct cache keys
    and are run here in the order of the array; the first failure rejects
    the whole. *)
Definition allChecks (userId : string) (messageId : option string)
    (text : option string) : JS (list Check) :=
  (c1 <- checkMessageFrequency userId messageId ;;
   c2 <- checkRepeatedContent userId text ;;
   ret [c1; c2; checkCapsLock text; checkRepeatedChars text;
        checkExcessiveMentions text; checkExcessiveUrls text;
        checkSuspiciousPatterns text])%js.

Definition checkSpam (userId : string) (messageId : option string)
    (context : SpamContext) : JS SpamResult :=
  try_catch
    (if bool_decide (userId ∈ whitelistedUsers this) then
       ret (mkSpamResult false (Some "whitelisted") None [] None None None)
     else
       cfg <- gets w_cfg ;;
       if ctx_isGroup context && ctx_isGroupAdmin context
          && negb (cfg_checkAdmins cfg) then
         ret (mkSpamResult false (Some "admin_exempt") None [] None None None)
       else
         checks <- allChecks userId messageId (ctx_text context) ;;
         let spamIndicators := List.filter ck_isSpam checks in
         if bool_decide (spamIndicators = []) then
           ret (mkSpamResult false None None [] None None None)
         else
           let severity := calculateSeverity spamIndicators in
           recordSpamViolation userId spamIndicators severity ;;;
           (* const action = this.determineAction(userId, severity); *)
           action <- unawaited (determineAction userId severity) ;;
           ret (mkSpamResult true None (Some severity)
                  (map ck_reason spamIndicators) (Some action)
                  (Some (if strict_eq action "throttle"
                         then calculateWaitTime severity else 0%Q))
                  None))%js
    (fun error =>
       logger (LogError "Anti-spam check failed") ;;;
       ret (mkSpamResult false None None [] None None (Some error)))%js.

End AntiSpamChecks.

(* ===================================================================== *)
(** ** CommandHandler (src/handlers/commandHandler.js) *)
(* ===================================================================== *)

(** What a handler throws, or rejects with: a value that has properties
    (an [Error] with its message, or any other value that is neither
    [undefined] nor [null]), or [undefined] or [null] ([throw undefined],
    [Promise.reject()]). *)
Inductive Thrown :=
  | ThrownError (msg : string)
  | ThrownNullish.

Record Command := mkCommand {
  cmd_name : string;
  cmd_aliases : list string;
  cmd_category : string;
  cmd_permissions : option (list string);
  cmd_cooldown : option Z;        (* seconds *)
  cmd_args : bool;                (* false for [command.args === false] *)
  cmd_minArgs : option Z;
  cmd_maxArgs : option Z;
  cmd_typing : bool;              (* false for [command.typing === false] *)
  cmd_duration : Z;               (* how long [execute] runs *)
  cmd_throws : option Thrown      (* what [execute] throws, if it does *)
}.

Record User := mkUser {
  u_jid : string;
  u_isBanned : bool;
  u_isPremium : bool
}.

Record Group := mkGroup {
  g_isBanned : bool
}.

(** A group participant; [p_admin] is [None] when the [admin] field is
    [undefined]. *)
Record Participant := mkParticipant {
  p_id : string;
  p_admin : option string
}.

(** [message.key] *)
Record Message := mkMessage {
  remoteJid : string;
  participant : option string;
  msg_id : option string
}.

(** The storage and socket collaborators as the dispatcher reads them. *)
Record Env := mkEnv {
  getUser : string -> option User;
  getGroup : string -> option Group;
  groupParticipants : string -> list Participant;
  sock_user_id : string
}.

(** [this.commands] and [this.aliases] *)
Record Registry := mkRegistry {
  commands : gmap string Command;
  aliases : gmap string string
}.

Definition getCommand (reg : Registry) (name : string) : option Command :=
  match commands reg !! name with
  | Some c => Some c
  | None => match aliases reg !! name with
            | Some n => commands reg !! n
            | None => None
            end
  end.

Definition endsWith (s suffix : string) : bool :=
  String.prefix (String.rev suffix) (String.rev s).

Definition includes (l : list string) (x : string) : bool :=
  bool_decide (x ∈ l).

(** [participants.find(p => p.id === id)?.admin !== undefined] *)
Definition isAdminIn (participants : list Participant) (id : string) : bool :=
  match List.find (fun p => bool_decide (p_id p = id)) participants with
  | Some p => match p_admin p with Some _ => true | None => false end
  | None => false
  end.

Section Permissions.
Variable cfg : Config.
Variable user : User.
Variable group : option Group.
Variables isGroupAdmin isBotAdmin : bool.

(** One [case] of the [switch]: does this tag let the subject through? *)
Definition permissionHolds (permission : string) : bool :=
  if bool_decide (permission = "owner") then
    includes (cfg_ownerNumbers cfg) (u_jid user)
  else if bool_decide (permission = "admin") then
    includes (cfg_ownerNumbers cfg) (u_jid user) || isGroupAdmin
  else if bool_decide (permission = "premium") then
    u_isPremium user || includes (cfg_ownerNumbers cfg) (u_jid user)
  else if bool_decide (permission = "group") then
    match group with Some _ => true | None => false end
  else if bool_decide (permission = "private") then
    match group with Some _ => false | None => true end
  else if bool_decide (permission = "botAdmin") then isBotAdmin
  else false.

(** [for (const permission of command.permissions)] with its early
    [return true]; [return false] after the loop. *)
Fixpoint permissionLoop (permissions : list string) : bool :=
  match permissions with
  | [] => false
  | permission :: rest =>
      if permissionHolds permission then true else permissionLoop rest
  end.

Definition checkPermissions (command : Command) : bool :=
  match cmd_permissions command with
  | None => true
  | Some [] => true
  | Some permissions => permissionLoop permissions
  end.
End Permissions.

Definition cooldown_key (commandName userId : string) : string :=
  commandName +:+ "_" +:+ userId.

(** [true], or [{success: false, timeLeft}] as [Some timeLeft]. *)
Definition checkCooldown (reg : Registry) (commandName userId : string)
  : JS (option Z) :=
  match getCommand reg commandName with
  | None => ret None
  | Some command =>
    match cmd_cooldown command with
    | None => ret None
    | Some cooldown =>
      if cooldown =? 0 then ret None else
      (now <- date_now ;;
       cooldowns <- gets w_cooldowns ;;
       let cooldownKey := cooldown_key commandName userId in
       let touch := modify (fun w => set_cooldowns (<[cooldownKey := now]> (w_cooldowns w)) w) in
       match cooldowns !! cooldownKey with
       | None => touch ;;; ret None
       | Some lastUsed =>
         if lastUsed =? 0 then touch ;;; ret None else
         let timePassed := now - lastUsed in
         let cooldownTime := cooldown * 1000 in
         if timePassed <? cooldownTime then
           ret (Some (ceil_div (cooldownTime - timePassed) 1000))
         else touch ;;; ret None
       end)%js
    end
  end.

Definition truthy (n : option Z) : option Z :=
  match n with
  | Some 0 => None
  | other => other
  end.

Definition validateArguments (command : Command) (nargs : Z) (chat : string)
  : JS bool :=
  if negb (cmd_args command) then ret true else
  match truthy (cmd_minArgs command) with
  | Some minArgs =>
      if nargs <? minArgs then
        (emit (SendMessage chat InsufficientArguments) ;;; ret false)%js
      else
        match truthy (cmd_maxArgs command) with
        | Some maxArgs =>
            if maxArgs <? nargs then
              (emit (SendMessage chat TooManyArguments) ;;; ret false)%js
            else ret true
        | None => ret true
        end
  | None =>
      match truthy (cmd_maxArgs command) with
      | Some maxArgs =>
          if maxArgs <? nargs then
            (emit (SendMessage chat TooManyArguments) ;;; ret false)%js
          else ret true
      | None => ret true
      end
  end.

(** [stats.used++] / [stats.errors++] on the entry of [this.commandStats]. *)
Definition bumpUsed (name : string) : JS unit :=
  (stats <- gets w_stats ;;
   match stats !! name with
   | Some (used, errors) =>
       modify (fun w => set_stats (<[name := (S used, errors)]> (w_stats w)) w)
   | None => throw TypeError
   end)%js.

Definition bumpErrors (name : string) : JS unit :=
  modify (fun w =>
    match w_stats w !! name with
    | Some (used, errors) => set_stats (<[name := (used, S errors)]> (w_stats w)) w
    | None => w
    end).

Definition lastCommand_key (sender : string) : string := "lastCommand_" +:+ sender.

(** [const sender = message.key.participant || from] *)
Definition senderOf (message : Message) : string :=
  match participant message with
  | Some p => if bool_decide (p = "") then remoteJid message else p
  | None => remoteJid message
  end.

(** [const isGroup = from.endsWith('@g.us')] *)
Definition isGroupChat (message : Message) : bool :=
  endsWith (remoteJid message) "@g.us".

(** [isGroup ? getGroup(from) : null] *)
Definition groupOf (env : Env) (message : Message) : option Group :=
  if isGroupChat message then getGroup env (remoteJid message) else None.

(** [isGroup && group?.isBanned] *)
Definition groupIsBanned (env : Env) (message : Message) : bool :=
  isGroupChat message &&
  match groupOf env message with Some g => g_isBanned g | None => false end.

Definition senderIsGroupAdmin (env : Env) (message : Message) : bool :=
  if isGroupChat message
  then isAdminIn (groupParticipants env (remoteJid message)) (senderOf message)
  else false.

Definition botIsGroupAdmin (env : Env) (message : Message) : bool :=
  if isGroupChat message
  then isAdminIn (groupParticipants env (remoteJid message)) (sock_user_id env)
  else false.

Section Dispatcher.
Variable spam : AntiSpam.
Variable rx : TextMeasures.
Variable reg : Registry.
Variable env : Env.

(** [command.execute({...})]: the handler runs for [cmd_duration] and
    returns or throws. *)
Definition execute (command : Command) (commandName sender : string) : JS unit :=
  (emit (Execute commandName sender) ;;;
   modify (fun w => set_now (w_now w + cmd_duration command) w) ;;;
   match cmd_throws command with
   | Some (ThrownError msg) => throw (HandlerFailure msg)
   | Some ThrownNullish => throw Nullish
   | None => ret tt
   end)%js.

(** Gates 3 to 7 and the execution: what follows the permission check. *)
Definition afterPermission (command : Command) (message : Message)
    (commandName : string) (nargs : Z) : JS bool :=
  let from := remoteJid message in
  let sender := senderOf message in
  let isGroup := isGroupChat message in
  (cfg <- gets w_cfg ;;
   if isGroup && bool_decide (cmd_category command = "owner")
      && negb (includes (cfg_ownerNumbers cfg) sender) then
     emit (SendMessage from OwnerCommand) ;;; ret true
   else
   cooldownCheck <- checkCooldown reg commandName sender ;;
   match cooldownCheck with
   | Some timeLeft => emit (SendMessage from (CooldownActive timeLeft)) ;;; ret true
   | None =>
   (* const rateLimitCheck = await rateLimiter.checkLimit(sender, commandName); *)
   rateLimitCheck <- checkLimit sender commandName None ;;
   if negb (allowed rateLimitCheck) then
     emit (SendMessage from
             (RateLimited (option_map (fun r => ceil_div r 1000)
                                      (resetTime rateLimitCheck)))) ;;;
     ret true
   else
   (* const spamCheck = await antiSpam.checkSpam(sender, message); *)
   spamCheck <- checkSpam spam rx sender (msg_id message) emptyContext ;;
   if isSpam spamCheck then
     emit (SendMessage from (AntiSpamProtection (sr_waitTime spamCheck))) ;;;
     ret true
   else
   argsValid <- validateArguments command nargs from ;;
   if negb argsValid then ret true else
   (if cmd_typing command then emit (PresenceUpdate "composing" from)
    else ret tt) ;;;
   startTime <- date_now ;;
   execute command commandName sender ;;;
   endTime <- date_now ;;
   let executionTime := endTime - startTime in
   bumpUsed (cmd_name command) ;;;
   emit (LogCommand sender commandName) ;;;
   emit (UpdateUser sender) ;;;
   (if isGroup then emit (UpdateGroup from) else ret tt) ;;;
   (if 5000 <? executionTime then logger (LogWarn "Slow command execution")
    else ret tt) ;;;
   _ <- unawaited (cache_set (lastCommand_key sender)
                     (VLastCommand (mkLastCommand commandName endTime executionTime))
                     300) ;;
   ret true
   end)%js.

(** The body of the [try] block once the command is found: the ban
    checks and the permission check, then [afterPermission]. *)
Definition dispatch (command : Command) (message : Message)
    (commandName : string) (nargs : Z) : JS bool :=
  let from := remoteJid message in
  match getUser env (senderOf message) with
  | None => (logger (LogWarn "User not found") ;;; ret false)%js
  | Some user =>
    if u_isBanned user then
      (emit (SendMessage from BannedUser) ;;; ret true)%js
    else if groupIsBanned env message then
      (emit (SendMessage from BannedGroup) ;;; ret true)%js
    else
    (cfg <- gets w_cfg ;;
     let hasPermission :=
       checkPermissions cfg user (groupOf env message)
         (senderIsGroupAdmin env message) (botIsGroupAdmin env message) command in
     if negb hasPermission then
       emit (SendMessage from AccessDenied) ;;; ret true
     else afterPermission command message commandName nargs)%js
  end.

Definition handleCommand (message : Message) (commandName : string) (nargs : Z)
  : JS bool :=
  finally
    (try_catch
       (match getCommand reg commandName with
        | None => ret false
        | Some command => dispatch command message commandName nargs
        end)
       (fun error =>
          logger (LogError "Command execution error") ;;;
          bumpErrors commandName ;;;
          (* `... ${error.message || 'Unknown error'}`: the text is built
             before [sendMessage] is called, and reading [message] of
             [undefined] or [null] throws *)
          match error with
          | Nullish => throw TypeError
          | _ => emit (SendMessage (remoteJid message) CommandError) ;;; ret true
          end)%js)
    (emit (PresenceUpdate "paused" (remoteJid message))).

End Dispatcher.

(* ===================================================================== *)
(** ** MessageQueue *)
(* ===================================================================== *)

(** Queue messages are objects: the queue array and the [processMessage]
    call that is running one hold the same object.  [mq_heap] is the object
    store, a queue is a list of references into it. *)
Record QueueMessage := mkQueueMessage {
  qm_id : string;
  qm_data : string;
  qm_priority : Z;
  qm_delay : Z;
  qm_maxRetries : Z;
  qm_attempts : Z;
  qm_createdAt : Z;
  qm_scheduledFor : Z
}.

(** The [options] argument of [addMessage]; [None] is an absent field. *)
Record Options := mkOptions {
  o_priority : option Z;
  o_delay : option Z;
  o_maxRetries : option Z;
  o_id : option string
}.

Inductive QEvent :=
  | Queued (queueName messageId : string) (queueSize : nat)
  | Processing (queueName messageId : string) (attempt : Z)
  | ExecuteHook (queueName data : string) (ref : nat)
  | Completed (queueName messageId : string) (attempts : Z)
  | Retry (queueName messageId : string) (attempt maxRetries nextAttempt : Z)
  | Failed (queueName messageId : string) (attempts : Z)
  | Removed (queueName messageId : string)
  | Cleared (queueName : string) (messagesCleared : nat)
  | Paused (queueName : string)
  | Resumed (queueName : string)
  | SetImmediate (queueName : string)           (* a drain is requested *)
  | SetTimeout (queueName : string) (delay : Z). (* a drain after [delay] *)

Record QStats := mkQStats {
  st_queued : nat;
  st_processed : nat;
  st_failed : nat;
  st_retried : nat
}.

(** What the cache holds under [queue_<name>].  NodeCache is created with
    [useClones: false]: [cache.set] keeps the array it is given and
    [cache.get] hands that same array back.  [persistQueue] gives it
    [this.queues.get(queueName) || []]: the array of the queue itself, which
    every later [push], [sort], [splice] and [length = 0] changes in place,
    or, for a queue that does not exist, an empty array of its own.  The
    array of a queue is bound to its name when [addMessage] creates it and
    is rebound only by [restoreQueue], to the array the cache holds; so the
    array under [queue_<name>] is always one of these two. *)
Inductive SavedQueue :=
  | TheQueueItself       (* the array [this.queues] holds under the same name *)
  | AnEmptyArray.        (* an empty array that is no queue *)

Record MQ := mkMQ {
  mq_heap : list QueueMessage;
  mq_queues : gmap string (list nat);          (* this.queues *)
  mq_processing : gmap string (gset string);   (* this.processing *)
  mq_delays : gset string;                     (* keys of this.delays *)
  mq_awaiting : list (string * nat);           (* executions awaiting their callback *)
  mq_saved : gmap string (SavedQueue * Z);     (* cache: queue_<name>, expiry *)
  mq_maxRetries : Z;
  mq_defaultDelay : Z;
  mq_maxConcurrent : nat;
  mq_stats : QStats;
  mq_events : list QEvent
}.

(** [new MessageQueue()] *)
Definition mq_new : MQ :=
  mkMQ [] ∅ ∅ ∅ [] ∅ 3 1000 5 (mkQStats 0 0 0 0) [].

Definition dummyMessage : QueueMessage := mkQueueMessage "" "" 0 0 0 0 0 0.

Definition deref (h : list QueueMessage) (r : nat) : QueueMessage :=
  default dummyMessage (h !! r).

Definition upd_heap (f : list QueueMessage -> list QueueMessage) (s : MQ) : MQ :=
  mkMQ (f (mq_heap s)) (mq_queues s) (mq_processing s) (mq_delays s)
       (mq_awaiting s) (mq_saved s) (mq_maxRetries s) (mq_defaultDelay s)
       (mq_maxConcurrent s) (mq_stats s) (mq_events s).
Definition upd_queues (f : gmap string (list nat) -> gmap string (list nat))
    (s : MQ) : MQ :=
  mkMQ (mq_heap s) (f (mq_queues s)) (mq_processing s) (mq_delays s)
       (mq_awaiting s) (mq_saved s) (mq_maxRetries s) (mq_defaultDelay s)
       (mq_maxConcurrent s) (mq_stats s) (mq_events s).
Definition upd_processing
    (f : gmap string (gset string) -> gmap string (gset string)) (s : MQ) : MQ :=
  mkMQ (mq_heap s) (mq_queues s) (f (mq_processing s)) (mq_delays s)
       (mq_awaiting s) (mq_saved s) (mq_maxRetries s) (mq_defaultDelay s)
       (mq_maxConcurrent s) (mq_stats s) (mq_events s).
Definition upd_delays (f : gset string -> gset string) (s : MQ) : MQ :=
  mkMQ (mq_heap s) (mq_queues s) (mq_processing s) (f (mq_delays s))
       (mq_awaiting s) (mq_saved s) (mq_maxRetries s) (mq_defaultDelay s)
       (mq_maxConcurrent s) (mq_stats s) (mq_events s).
Definition upd_awaiting (f : list (string * nat) -> list (string * nat))
    (s : MQ) : MQ :=
  mkMQ (mq_heap s) (mq_queues s) (mq_processing s) (mq_delays s)
       (f (mq_awaiting s)) (mq_saved s) (mq_maxRetries s) (mq_defaultDelay s)
       (mq_maxConcurrent s) (mq_stats s) (mq_events s).
Definition upd_saved
    (f : gmap string (SavedQueue * Z) -> gmap string (SavedQueue * Z))
    (s : MQ) : MQ :=
  mkMQ (mq_heap s) (mq_queues s) (mq_processing s) (mq_delays s)
       (mq_awaiting s) (f (mq_saved s)) (mq_maxRetries s) (mq_defaultDelay s)
       (mq_maxConcurrent s) (mq_stats s) (mq_events s).
Definition upd_stats (f : QStats -> QStats) (s : MQ) : MQ :=
  mkMQ (mq_heap s) (mq_queues s) (mq_processing s) (mq_delays s)
       (mq_awaiting s) (mq_saved s) (mq_maxRetries s) (mq_defaultDelay s)
       (mq_maxConcurrent s) (f (mq_stats s)) (mq_events s).
Definition emitQ (e : QEvent) (s : MQ) : MQ :=
  mkMQ (mq_heap s) (mq_queues s) (mq_processing s) (mq_delays s)
       (mq_awaiting s) (mq_saved s) (mq_maxRetries s) (mq_defaultDelay s)
       (mq_maxConcurrent s) (mq_stats s) (mq_events s ++ [e]).

Definition queueOf (s : MQ) (queueName : string) : list nat :=
  default [] (mq_queues s !! queueName).
Definition processingOf (s : MQ) (queueName : string) : gset string :=
  default ∅ (mq_processing s !! queueName).

(** The comparator handed to [queue.sort]. *)
Definition compareMessages (a b : QueueMessage) : Z :=
  if bool_decide (qm_priority a <> qm_priority b)
  then qm_priority b - qm_priority a
  else qm_scheduledFor a - qm_scheduledFor b.

(** [Array.prototype.sort] is stable; for a comparator that is a total
    preorder every stable sort gives this result. *)
Section Sort.
Context {A : Type}.
Variable cmp : A -> A -> Z.

Fixpoint sortInsert (x : A) (l : list A) : list A :=
  match l with
  | [] => [x]
  | y :: rest => if cmp x y <=? 0 then x :: y :: rest
                 else y :: sortInsert x rest
  end.

Definition jsSort (l : list A) : list A := foldr sortInsert [] l.
End Sort.

Definition compareRefs (h : list QueueMessage) (r1 r2 : nat) : Z :=
  compareMessages (deref h r1) (deref h r2).

Definition sortQueue (queueName : string) (s : MQ) : MQ :=
  upd_queues (<[queueName := jsSort (compareRefs (mq_heap s)) (queueOf s queueName)]>) s.

(** [queue.findIndex(m => m.id === id)] followed by [queue.splice(index, 1)]. *)
Fixpoint spliceById (h : list QueueMessage) (id : string) (queue : list nat)
  : list nat :=
  match queue with
  | [] => []
  | r :: rest => if bool_decide (qm_id (deref h r) = id) then rest
                 else r :: spliceById h id rest
  end.

Definition hasId (h : list QueueMessage) (id : string) (queue : list nat) : bool :=
  existsb (fun r => bool_decide (qm_id (deref h r) = id)) queue.

Definition incAttempts (m : QueueMessage) : QueueMessage :=
  mkQueueMessage (qm_id m) (qm_data m) (qm_priority m) (qm_delay m)
    (qm_maxRetries m) (qm_attempts m + 1) (qm_createdAt m) (qm_scheduledFor m).

Definition setScheduledFor (t : Z) (m : QueueMessage) : QueueMessage :=
  mkQueueMessage (qm_id m) (qm_data m) (qm_priority m) (qm_delay m)
    (qm_maxRetries m) (qm_attempts m) (qm_createdAt m) t.

Definition updMessage (r : nat) (f : QueueMessage -> QueueMessage) (s : MQ) : MQ :=
  upd_heap (fun h => <[r := f (deref h r)]> h) s.

(** [processMessage] up to its [await]: count the attempt, announce it and
    hand the payload with a callback to the [message:execute] listeners. *)
Definition processMessage (queueName : string) (r : nat) (s : MQ) : MQ :=
  let s := updMessage r incAttempts s in
  let message := deref (mq_heap s) r in
  let s := emitQ (Processing queueName (qm_id message) (qm_attempts message)) s in
  let s := emitQ (ExecuteHook queueName (qm_data message) r) s in
  upd_awaiting (fun l => l ++ [(queueName, r)]) s.

Definition isReady (s : MQ) (queueName : string) (now : Z) (r : nat) : bool :=
  let msg := deref (mq_heap s) r in
  (qm_scheduledFor msg <=? now)
  && negb (bool_decide (qm_id msg ∈ processingOf s queueName)).

(** The messages one call of [processQueue] dispatches, in order. *)
Definition toDispatch (queueName : string) (now : Z) (s : MQ) : list nat :=
  match mq_queues s !! queueName with
  | None => []
  | Some queue =>
      let processing := processingOf s queueName in
      if (mq_maxConcurrent s <=? size processing)%nat then []
      else take (mq_maxConcurrent s - size processing)
                (List.filter (isReady s queueName now) queue)
  end.

Definition dispatchOne (queueName : string) (s : MQ) (r : nat) : MQ :=
  let id := qm_id (deref (mq_heap s) r) in
  processMessage queueName r
    (upd_processing (<[queueName := {[id]} ∪ processingOf s queueName]>) s).

Definition processQueue (queueName : string) (now : Z) (s : MQ) : MQ :=
  fold_left (dispatchOne queueName) (toDispatch queueName now s) s.

Definition addMessage (queueName data : string) (options : Options)
    (generatedId : string) (now : Z) (s : MQ) : MQ :=
  let priority := default 0 (o_priority options) in
  let delay := default (mq_defaultDelay s) (o_delay options) in
  let maxRetries := default (mq_maxRetries s) (o_maxRetries options) in
  let id := default generatedId (o_id options) in
  let s := match mq_queues s !! queueName with
           | Some _ => s
           | None => upd_processing (<[queueName := ∅]>)
                       (upd_queues (<[queueName := []]>) s)
           end in
  let queueMessage :=
    mkQueueMessage id data priority delay maxRetries 0 now (now + delay) in
  let r := length (mq_heap s) in
  let s := upd_heap (fun h => h ++ [queueMessage]) s in
  let s := upd_queues (<[queueName := queueOf s queueName ++ [r]]>) s in
  let s := sortQueue queueName s in
  let s := upd_stats (fun st => mkQStats (S (st_queued st)) (st_processed st)
                                  (st_failed st) (st_retried st)) s in
  let s := emitQ (Queued queueName id (length (queueOf s queueName))) s in
  processQueue queueName now s.

Definition handleSuccess (queueName : string) (r : nat) (now : Z) (s : MQ) : MQ :=
  let message := deref (mq_heap s) r in
  let s := upd_queues (<[queueName :=
             spliceById (mq_heap s) (qm_id message) (queueOf s queueName)]>) s in
  let s := upd_processing (<[queueName :=
             processingOf s queueName ∖ {[qm_id message]}]>) s in
  let s := upd_stats (fun st => mkQStats (st_queued st) (S (st_processed st))
                                  (st_failed st) (st_retried st)) s in
  let s := emitQ (Completed queueName (qm_id message) (qm_attempts message)) s in
  emitQ (SetImmediate queueName) s.

Definition handleFailure (queueName : string) (r : nat) (now : Z) (s : MQ) : MQ :=
  let message := deref (mq_heap s) r in
  let s := upd_processing (<[queueName :=
             processingOf s queueName ∖ {[qm_id message]}]>) s in
  let s :=
    if qm_attempts message <? qm_maxRetries message then
      let scheduledFor := now + qm_delay message * 2 ^ (qm_attempts message - 1) in
      let s := updMessage r (setScheduledFor scheduledFor) s in
      let s := sortQueue queueName s in
      let s := upd_stats (fun st => mkQStats (st_queued st) (st_processed st)
                                      (st_failed st) (S (st_retried st))) s in
      let s := emitQ (Retry queueName (qm_id message) (qm_attempts message)
                        (qm_maxRetries message) scheduledFor) s in
      emitQ (SetTimeout queueName (qm_delay message)) s
    else
      let s := upd_queues (<[queueName :=
                 spliceById (mq_heap s) (qm_id message) (queueOf s queueName)]>) s in
      let s := upd_stats (fun st => mkQStats (st_queued st) (st_processed st)
                                      (S (st_failed st)) (st_retried st)) s in
      emitQ (Failed queueName (qm_id message) (qm_attempts message)) s in
  emitQ (SetImmediate queueName) s.

Fixpoint removeFirst (p : string * nat) (l : list (string * nat))
  : list (string * nat) :=
  match l with
  | [] => []
  | x :: rest => if bool_decide (x = p) then rest else x :: removeFirst p rest
  end.

(** The listener calls [callback(error, result)]: the awaiting
    [processMessage] resumes with [handleSuccess] or [handleFailure].  A
    promise settles once: a callback nobody awaits does nothing. *)
Definition callback (queueName : string) (r : nat) (error : option string)
    (now : Z) (s : MQ) : MQ :=
  if bool_decide ((queueName, r) ∈ mq_awaiting s) then
    let s := upd_awaiting (removeFirst (queueName, r)) s in
    match error with
    | None => handleSuccess queueName r now s
    | Some _ => handleFailure queueName r now s
    end
  else s.

Definition removeMessage (queueName messageId : string) (s : MQ) : MQ :=
  match mq_queues s !! queueName with
  | None => s
  | Some queue =>
      if hasId (mq_heap s) messageId queue then
        emitQ (Removed queueName messageId)
          (upd_queues (<[queueName := spliceById (mq_heap s) messageId queue]>) s)
      else s
  end.

Definition clearQueue (queueName : string) (s : MQ) : MQ :=
  match mq_queues s !! queueName with
  | None => s
  | Some queue =>
      emitQ (Cleared queueName (length queue))
        (upd_queues (<[queueName := []]>) s)
  end.

Definition pauseQueue (queueName : string) (s : MQ) : MQ :=
  emitQ (Paused queueName) (upd_delays (fun d => {[queueName]} ∪ d) s).

Definition resumeQueue (queueName : string) (now : Z) (s : MQ) : MQ :=
  processQueue queueName now
    (emitQ (Resumed queueName) (upd_delays (fun d => d ∖ {[queueName]}) s)).

Record QueueStatus := mkQueueStatus {
  qs_pending : nat;
  qs_processing : nat;
  qs_paused : bool
}.

Definition getQueueStatus (queueName : string) (s : MQ) : QueueStatus :=
  mkQueueStatus (length (queueOf s queueName))
                (size (processingOf s queueName))
                (bool_decide (queueName ∈ mq_delays s)).

(** [const queue = this.queues.get(queueName) || [];
     await cache.set(`queue_${queueName}`, queue, 3600)]: the cache keeps
    the array, not a copy of it, for an hour. *)
Definition persistQueue (queueName : string) (now : Z) (s : MQ) : MQ :=
  let queue := match mq_queues s !! queueName with
               | Some _ => TheQueueItself
               | None => AnEmptyArray
               end in
  upd_saved (<[queueName := (queue, now + 3600 * 1000)]>) s.

(** [await cache.get(`queue_${queueName}`)]: the array, while the slot has
    not expired. *)
Definition savedQueueOf (s : MQ) (queueName : string) (now : Z)
  : option SavedQueue :=
  match mq_saved s !! queueName with
  | Some (saved, expires) => if now <=? expires then Some saved else None
  | None => None
  end.

(** [this.queues.set(queueName, savedQueue)] binds the name to the array
    the cache holds: to the array that is the queue already, with the
    messages it has now, or to the empty array of the cache, which is the
    queue from then on.  Then the in-flight set is replaced and the queue
    drained. *)
Definition restoreQueue (queueName : string) (now : Z) (s : MQ) : MQ :=
  match savedQueueOf s queueName now with
  | Some savedQueue =>
      let s := match savedQueue with
               | TheQueueItself =>
                   upd_queues (<[queueName := queueOf s queueName]>) s
               | AnEmptyArray =>
                   upd_saved (alter (fun e => (TheQueueItself, e.2)) queueName)
                     (upd_queues (<[queueName := []]>) s)
               end in
      let s := upd_processing (<[queueName := ∅]>) s in
      processQueue queueName now s
  | None => s
  end.

(** Everything that can happen to the queue object.  Timers
    ([setImmediate], [setTimeout], the health check) show up as
    [OpProcessQueue] at the instant they fire. *)
Inductive Op :=
  | OpAddMessage (queueName data : string) (options : Options) (generatedId : string)
  | OpProcessQueue (queueName : string)
  | OpCallback (queueName : string) (ref : nat) (error : option string)
  | OpRemoveMessage (queueName messageId : string)
  | OpClearQueue (queueName : string)
  | OpPauseQueue (queueName : string)
  | OpResumeQueue (queueName : string)
  | OpPersistQueue (queueName : string)
  | OpRestoreQueue (queueName : string).

Definition step (s : MQ) (now_op : Z * Op) : MQ :=
  let (now, op) := now_op in
  match op with
  | OpAddMessage q data options gen => addMessage q data options gen now s
  | OpProcessQueue q => processQueue q now s
  | OpCallback q r error => callback q r error now s
  | OpRemoveMessage q id => removeMessage q id s
  | OpClearQueue q => clearQueue q s
  | OpPauseQueue q => pauseQueue q s
  | OpResumeQueue q => resumeQueue q now s
  | OpPersistQueue q => persistQueue q now s
  | OpRestoreQueue q => restoreQueue q now s
  end.

Definition run (trace : list (Z * Op)) (s : MQ) : MQ := fold_left step trace s.

Definition reachable (s : MQ) : Prop := exists trace, s = run trace mq_new.

Definition antiSpam0 : AntiSpam := mkAntiSpam ∅ defaultSettings.

(** Measures of a text without letters, runs, mentions or links. *)
Definition rx0 : TextMeasures :=
  mkTextMeasures (fun _ => 0) (fun _ => 0) (fun _ => None) (fun _ => 0)
                 (fun _ => 0) (fun _ => false) (fun _ _ => 0%Q).

Definition cfg0 : Config := mkConfig ["owner@s.whatsapp.net"] 3600 false.

Definition world0 (cfg : Config) : World :=
  mkWorld cfg 0 ∅ [] 0 [] ∅ ∅ [].

(** Run a call at instant [t]. *)
Definition at_time {A} (t : Z) (m : JS A) : JS A := fun w => m (set_now t w).

Fixpoint run_seq {A} (ms : list (JS A)) (w : World) : list (Res A) * World :=
  match ms with
  | [] => ([], w)
  | m :: rest => let (r, w') := m w in
                 let (rs, w'') := run_seq rest w' in (r :: rs, w'')
  end.

(** A registry with [ping] (no requirement) and [kick] ([owner] or [admin]). *)
Definition ping : Command :=
  mkCommand "ping" [] "general" None None true None None true 0 None.
Definition kick : Command :=
  mkCommand "kick" [] "admin" (Some ["owner"; "admin"]) None true None None true 0 None.
Definition reg0 : Registry :=
  mkRegistry (<["ping" := ping]> (<["kick" := kick]> ∅)) ∅.

Definition alice : string := "alice@s.whatsapp.net".
Definition bob : string := "bob@s.whatsapp.net".
Definition team : string := "team@g.us".

(** [alice] administers the group [team], [bob] is a plain member. *)
Definition env0 : Env :=
  mkEnv (fun jid => Some (mkUser jid false false))
        (fun _ => Some (mkGroup false))
        (fun _ => [mkParticipant alice (Some "admin"); mkParticipant bob None])
        "bot@s.whatsapp.net".

Definition stats0 : gmap string (nat * nat) :=
  <["ping" := (0%nat, 0%nat)]> (<["kick" := (0%nat, 0%nat)]> ∅).

Definition world1 : World :=
  mkWorld cfg0 0 ∅ [] 0 [] ∅ stats0 [].


(* ===================================================================== *)
(** ** Vocabulary of the statements *)
(* ===================================================================== *)

(** The [violations_<user>] slot holds a list of rate-limit violations. *)
Definition violationsTyped (w : World) (userId : string) : bool :=
  match w_cache w !! violations_key userId with
  | None => true
  | Some e => match ce_value e with VRlViolations _ => true | _ => false end
  end.

(** The violations [recordViolation] reads at the current instant. *)
Definition storedViolations (w : World) (userId : string) : list RlViolation :=
  match nodecache_get (w_now w) (w_cache w) (violations_key userId) with
  | Some (VRlViolations l) => l
  | _ => []
  end.

(** The world [recordViolation] leaves behind when the cache works. *)
Definition afterViolation (userId type : string) (w : World) : World :=
  let violations := storedViolations w userId ++ [mkRlViolation type (w_now w)] in
  let w1 := set_cache (nodecache_set (w_cfg w) (w_now w) (w_cache w)
                         (violations_key userId) (VRlViolations violations) 3600) w in
  if 5 <=? Z.of_nat (length violations) then
    add_log (LogWarn "temporarily banned for rate limit violations")
      (set_cache (nodecache_set (w_cfg w) (w_now w) (w_cache w1)
                    (tempban_key userId)
                    (VBan (mkBanData userId (w_now w) 3600000 "Rate limit violations"))
                    (ceil_div 3600000 1000)) w1)
  else w1.

(** [checkLimit] called at the instants [ts], one call after the other. *)
Definition checkLimitAt (userId type : string) (customLimit : option Limit)
    (ts : list Z) : list (JS LimitResult) :=
  map (fun t => at_time t (checkLimit userId type customLimit)) ts.

(** Instants in non-decreasing order. *)
Fixpoint ascending (ts : list Z) : Prop :=
  match ts with
  | [] => True
  | t :: rest => match rest with
                 | [] => True
                 | t' :: _ => t <= t' /\ ascending rest
                 end
  end.

(** The sliding window on its own: the list of stored instants before and
    after a call at [t], and whether the call is let through. *)
Definition windowStep (limit : Limit) (stored : list Z) (t : Z) : bool * list Z :=
  let valid := validWindow t (lim_window limit) stored in
  if lim_max limit <=? Z.of_nat (length valid) then (false, stored)
  else (true, valid ++ [t]).

Fixpoint windowRun (limit : Limit) (stored : list Z) (ts : list Z)
  : list bool * list Z :=
  match ts with
  | [] => ([], stored)
  | t :: rest =>
      let (ok, stored1) := windowStep limit stored t in
      let (oks, stored2) := windowRun limit stored1 rest in
      (ok :: oks, stored2)
  end.

(** The [ratelimit_] slot holds [stored], written no later than [tl], and
    stays visible for a window after [tl]. *)
Definition slotInv (w : World) (key : string) (window : Z) (stored : list Z)
    (tl : Z) : Prop :=
  (w_cache w !! key = None /\ stored = []) \/
  (exists expires,
      w_cache w !! key = Some (mkCacheEntry (VTimes stored) expires) /\
      (expires = 0 \/ tl + window <= expires) /\
      Forall (fun x => x <= tl) stored).

Definition accepted (r : Res LimitResult) : Prop :=
  exists res, r = Ok res /\ allowed res = true.

Definition rejected (r : Res LimitResult) : Prop :=
  exists res, r = Ok res /\ allowed res = false /\ remaining res = Some 0.

(** Two worlds that differ at most in the cache, the log and the part of
    the fault schedule that was consumed without a failure. *)
Definition sameOutside (w w' : World) : Prop :=
  w_cfg w' = w_cfg w /\ w_now w' = w_now w /\ w_cooldowns w' = w_cooldowns w /\
  w_stats w' = w_stats w /\ w_out w' = w_out w /\ w_thrown w' = w_thrown w.

(** [checkSpam] as the dispatcher calls it, for subject ["u"], at the
    instants [ts]. *)
Definition checkSpamAt (ts : list Z) : list (JS SpamResult) :=
  map (fun t => at_time t (checkSpam antiSpam0 rx0 "u" None emptyContext)) ts.

(** The world after five messages of ["u"] in five milliseconds. *)
Definition afterFiveMessages : World :=
  (run_seq (checkSpamAt [0; 1; 2; 3; 4]) (world0 cfg0)).2.

(** [handleCommand] without its permission gate: what runs when the gate
    lets the subject through. *)
Definition handleAfterPermission (spam : AntiSpam) (rx : TextMeasures)
    (reg : Registry) (env : Env) (command : Command) (message : Message)
    (commandName : string) (nargs : Z) : JS bool :=
  finally
    (try_catch
       (afterPermission spam rx reg command message commandName nargs)
       (fun error =>
          logger (LogError "Command execution error") ;;;
          bumpErrors commandName ;;;
          (* `... ${error.message || 'Unknown error'}`: the text is built
             before [sendMessage] is called, and reading [message] of
             [undefined] or [null] throws *)
          match error with
          | Nullish => throw TypeError
          | _ => emit (SendMessage (remoteJid message) CommandError) ;;; ret true
          end)%js)
    (emit (PresenceUpdate "paused" (remoteJid message))).

(** [alice] sends [ping] in private, once every three seconds, eleven times. *)
Definition pingTimes : list Z :=
  [0; 3000; 6000; 9000; 12000; 15000; 18000; 21000; 24000; 27000; 30000].

Definition pingsOfAlice : list (JS bool) :=
  map (fun t => at_time t
         (handleCommand antiSpam0 rx0 reg0 env0 (mkMessage alice None None) "ping" 0))
      pingTimes.

Definition isExecute (e : Effect) : bool :=
  match e with Execute _ _ => true | _ => false end.

(** The in-flight sets respect the concurrency bound, and a queue that was
    never created has nothing in flight. *)
Definition concurrencyInv (s : MQ) : Prop :=
  (forall q, (size (processingOf s q) <= mq_maxConcurrent s)%nat) /\
  (forall q, mq_queues s !! q = None -> processingOf s q = ∅).

(** Pause the queue ["q"], then enqueue a message that is due at once. *)
Definition pausedThenEnqueued : MQ :=
  run [(0, OpPauseQueue "q");
       (0, OpAddMessage "q" "hello" (mkOptions None (Some 0) None (Some "m1")) "g")]
      mq_new.

(** Save the queue ["q"] before it exists, then enqueue a message that is
    due at once. *)
Definition savedThenEnqueued : MQ :=
  run [(0, OpPersistQueue "q");
       (0, OpAddMessage "q" "hello" (mkOptions None (Some 0) None (Some "m1")) "g")]
      mq_new.

(** A hook that reports a failure every time: the queue is drained when
    the message [r] is due, and the execution, if one was started, fails
    [took] milliseconds later. *)
Definition failingRound (q : string) (r : nat) (took : Z) (s : MQ) : MQ :=
  let due := qm_scheduledFor (deref (mq_heap s) r) in
  callback q r (Some "boom") (due + took) (processQueue q due s).

Fixpoint failingRounds (n : nat) (q : string) (r : nat) (took : Z) (s : MQ) : MQ :=
  match n with
  | O => s
  | S n' => failingRounds n' q r took (failingRound q r took s)
  end.

Definition isAttemptOf (q id : string) (e : QEvent) : bool :=
  match e with
  | Processing q' id' _ => bool_decide (q' = q) && bool_decide (id' = id)
  | _ => false
  end.

Definition isFailedOf (q id : string) (e : QEvent) : bool :=
  match e with
  | Failed q' id' _ => bool_decide (q' = q) && bool_decide (id' = id)
  | _ => false
  end.

(** The number of execution attempts of a message in a log of events. *)
Definition attemptsMade (q id : string) (events : list QEvent) : nat :=
  length (List.filter (isAttemptOf q id) events).

(** The number of [message:failed] events of a message. *)
Definition failuresReported (q id : string) (events : list QEvent) : nat :=
  length (List.filter (isFailedOf q id) events).

(** The delay scheduled before attempt [n]: [delay] before the first
    attempt, [delay * 2^(n-2)] before attempt [n >= 2]. *)
Definition backoffDelay (delay : Z) (n : Z) : Z :=
  if n <=? 1 then delay else delay * 2 ^ (n - 2).

(** The events of a message that fails every time, from attempt number
    [attempt], which is due at [due], for at most [rounds] attempts. *)
Fixpoint failureTrace (q id data : string) (r : nat) (delay maxRetries took : Z)
    (attempt due : Z) (rounds : nat) : list QEvent :=
  match rounds with
  | O => []
  | S rounds' =>
      Processing q id attempt :: ExecuteHook q data r ::
      (if attempt <? maxRetries then
         let next := due + took + backoffDelay delay (attempt + 1) in
         Retry q id attempt maxRetries next :: SetTimeout q delay ::
         SetImmediate q ::
         failureTrace q id data r delay maxRetries took (attempt + 1) next rounds'
       else [Failed q id attempt; SetImmediate q])
  end.

(** The queue state around one tracked message: [s] with the message
    appended to the object store and the queue [q] holding [queue]. *)
Definition tracked (s : MQ) (q : string) (msg : QueueMessage) (queue : list nat)
    (processing : gset string) (awaiting : list (string * nat))
    (stats : QStats) (events : list QEvent) : MQ :=
  mkMQ (mq_heap s ++ [msg]) (<[q := queue]> (mq_queues s))
       (<[q := processing]> (mq_processing s)) (mq_delays s) awaiting
       (mq_saved s) (mq_maxRetries s) (mq_defaultDelay s) (mq_maxConcurrent s)
       stats events.

(** [this.stats.retried++] and [this.stats.failed++] *)
Definition retried (st : QStats) : QStats :=
  mkQStats (st_queued st) (st_processed st) (st_failed st) (S (st_retried st)).
Definition failedOnce (st : QStats) : QStats :=
  mkQStats (st_queued st) (st_processed st) (S (st_failed st)) (st_retried st).

(** A message with [maxRetries: 0] on the queue ["emails"], drained when it
    is due, its execution failing. *)
Definition noRetryRun : MQ :=
  run [(0, OpAddMessage "emails" "hello" (mkOptions None None (Some 0) (Some "m1")) "g");
       (1000, OpProcessQueue "emails");
       (1000, OpCallback "emails" 0%nat (Some "boom"));
       (31000, OpProcessQueue "emails")]
      mq_new.

(** Two messages with the same id on the queue ["q"], both with
    [maxRetries: 1] and due at once: ["first"] is in flight when ["second"],
    of higher priority, is enqueued before it; the execution of ["first"]
    fails, the queue is drained, and the execution fails again. *)
Definition sameIdRun : MQ :=
  run [(0, OpAddMessage "q" "first" (mkOptions None (Some 0) (Some 1) (Some "m")) "g");
       (0, OpAddMessage "q" "second" (mkOptions (Some 5) (Some 0) (Some 1) (Some "m")) "g");
       (10, OpCallback "q" 0%nat (Some "boom"));
       (10, OpProcessQueue "q");
       (20, OpCallback "q" 0%nat (Some "boom"));
       (20, OpProcessQueue "q")]
      mq_new.

(** [a] stands before [b] in the order of the comparator. *)
Definition messageLe (a b : QueueMessage) : Prop := compareMessages a b <= 0.

(** The queue is in the order [queue.sort] leaves it in: priority
    descending, then [scheduledFor] ascending. *)
Definition queueSorted (h : list QueueMessage) (queue : list nat) : Prop :=
  StronglySorted (fun r1 r2 => messageLe (deref h r1) (deref h r2)) queue.

Definition messagesSorted (l : list QueueMessage) : Prop :=
  StronglySorted messageLe l.

(** [a] occurs in [l] before an occurrence of [b]. *)
Definition precedes {A} (a b : A) (l : list A) : Prop :=
  exists l1 l2 l3, l = l1 ++ a :: l2 ++ b :: l3.

(** The references that [message:execute] events hand out, in order. *)
Definition dispatchedRefs (events : list QEvent) : list nat :=
  flat_map (fun e => match e with ExecuteHook _ _ r => [r] | _ => [] end) events.

(** The shape of the object store, the queues and the pending executions. *)
Record queueWf (s : MQ) : Prop := mkQueueWf {
  wf_queue_bound : forall q queue r,
    mq_queues s !! q = Some queue -> In r queue -> (r < length (mq_heap s))%nat;
  wf_awaiting_bound : forall q r,
    In (q, r) (mq_awaiting s) -> (r < length (mq_heap s))%nat;
  wf_awaiting_owner : forall q1 q2 queue r,
    mq_queues s !! q1 = Some queue -> In r queue -> In (q2, r) (mq_awaiting s) ->
    q1 = q2;
  wf_disjoint : forall q1 q2 queue1 queue2 r,
    mq_queues s !! q1 = Some queue1 -> mq_queues s !! q2 = Some queue2 ->
    In r queue1 -> In r queue2 -> q1 = q2;
  wf_sorted : forall q queue,
    mq_queues s !! q = Some queue -> queueSorted (mq_heap s) queue
}.

(** [B] (priority 1) and then [A] (priority 5) are enqueued at the same
    instant with [delay: 0]. *)
Definition lowThenHighAtOnce : MQ :=
  run [(0, OpAddMessage "q" "payload B" (mkOptions (Some 1) (Some 0) None (Some "B")) "g");
       (0, OpAddMessage "q" "payload A" (mkOptions (Some 5) (Some 0) None (Some "A")) "g")]
      mq_new.

(** The same two messages with the default delay, in both orders, and a
    drain when they are due. *)
Definition lowThenHigh : MQ :=
  run [(0, OpAddMessage "q" "payload B" (mkOptions (Some 1) None None (Some "B")) "g");
       (0, OpAddMessage "q" "payload A" (mkOptions (Some 5) None None (Some "A")) "g");
       (1000, OpProcessQueue "q")]
      mq_new.

Definition highThenLow : MQ :=
  run [(0, OpAddMessage "q" "payload A" (mkOptions (Some 5) None None (Some "A")) "g");
       (0, OpAddMessage "q" "payload B" (mkOptions (Some 1) None None (Some "B")) "g");
       (1000, OpProcessQueue "q")]
      mq_new.

(** Two messages with the same sort key. *)
Definition sameKey (m m' : QueueMessage) : Prop :=
  qm_priority m = qm_priority m' /\ qm_scheduledFor m = qm_scheduledFor m'.

(** The ids in the order in which their executions were started. *)
Definition dispatchedIds (events : list QEvent) : list string :=
  flat_map (fun e => match e with Processing _ id _ => [id] | _ => [] end) events.

(** [B] then [A] enqueued with the default delay, not yet due. *)
Definition bothPending : MQ :=
  run [(0, OpAddMessage "q" "payload B" (mkOptions (Some 1) None None (Some "B")) "g");
       (0, OpAddMessage "q" "payload A" (mkOptions (Some 5) None None (Some "A")) "g")]
      mq_new.

(** A computation that sends and does nothing. *)
Definition keepsOut {A} (m : JS A) : Prop :=
  forall w, w_out (m w).2 = w_out w.


(** Gates 3 to 7 let the call through: it is not a command of the category
    [owner] sent to a group by someone who is not an owner, no cooldown is
    running, the rate limiter and the spam filter allow the call, and the
    arguments are valid.  [w'] is the state in which the handler starts. *)
Definition gatesPass (spam : AntiSpam) (rx : TextMeasures) (reg : Registry)
    (command : Command) (message : Message) (commandName : string) (nargs : Z)
    (w w' : World) : Prop :=
  let from := remoteJid message in
  let sender := senderOf message in
  isGroupChat message && bool_decide (cmd_category command = "owner")
    && negb (includes (cfg_ownerNumbers (w_cfg w)) sender) = false /\
  exists w1 rateLimitCheck w2 spamCheck w3,
    checkCooldown reg commandName sender w = (Ok None, w1) /\
    checkLimit sender commandName None w1 = (Ok rateLimitCheck, w2) /\
    allowed rateLimitCheck = true /\
    checkSpam spam rx sender (msg_id message) emptyContext w2 = (Ok spamCheck, w3) /\
    isSpam spamCheck = false /\
    validateArguments command nargs from w3 = (Ok true, w').

(** The sender's entry in the participant list of the group has an [admin]
    field. *)
Definition listedAsAdmin (env : Env) (message : Message) : Prop :=
  exists p role,
    List.find (fun p => bool_decide (p_id p = senderOf message))
              (groupParticipants env (remoteJid message)) = Some p /\
    p_admin p = Some role.

(** [shutdown] lives in the directory [owner] and asks for [owner] or
    [admin]. *)
Definition shutdown : Command :=
  mkCommand "shutdown" [] "owner" (Some ["owner"; "admin"]) None true None None true 0 None.

Definition reg1 : Registry :=
  mkRegistry (<["shutdown" := shutdown]> (commands reg0)) ∅.

Definition aliceInTeam : Message := mkMessage team (Some alice) None.

Definition world2 : World :=
  mkWorld cfg0 0 ∅ [] 0 [] ∅ (<["shutdown" := (0%nat, 0%nat)]> stats0) [].

(* ===================================================================== *)
(** * Further parts of the same modules *)
(* ===================================================================== *)

(* ===================================================================== *)
(** ** RateLimiter: reading and clearing the limits of a user *)
(* ===================================================================== *)

(** One entry of the object [getUserLimits] returns:
    [{used, max, remaining, resetTime}]. *)
Record UserLimit := mkUserLimit {
  ul_used : Z;
  ul_max : Z;
  ul_remaining : Z;
  ul_resetTime : Z
}.

(** [Object.entries(this.defaultLimits)], in the order of the literal. *)
Definition defaultLimitEntries : list (string * Limit) :=
  [("messages", mkLimit 20 60000); ("commands", mkLimit 10 60000);
   ("media", mkLimit 5 300000); ("api", mkLimit 100 3600000)].

(** The body of the loop of [getUserLimits] for one category. *)
Definition userLimitOf (userId type : string) (limit : Limit) : JS UserLimit :=
  (v <- cache_get (ratelimit_key type userId) ;;
   requests <- as_times v ;;
   now <- date_now ;;
   let validRequests := validWindow now (lim_window limit) requests in
   let used := Z.of_nat (length validRequests) in
   ret (mkUserLimit used (lim_max limit) (lim_max limit - used)
          (match validRequests with
           | [] => 0
           | first :: _ => first + lim_window limit - now
           end)))%js.

Fixpoint userLimitsLoop (userId : string) (entries : list (string * Limit))
  : JS (list (string * UserLimit)) :=
  match entries with
  | [] => ret []
  | (type, limit) :: rest =>
      (l <- userLimitOf userId type limit ;;
       limits <- userLimitsLoop userId rest ;;
       ret ((type, l) :: limits))%js
  end.

(** [getUserLimits]: the object it builds, as the list of its entries.
    The function has no [try]: a failure of the cache propagates. *)
Definition getUserLimits (userId : string) : JS (list (string * UserLimit)) :=
  userLimitsLoop userId defaultLimitEntries.

Fixpoint clearLimitsLoop (userId : string) (types : list string) : JS unit :=
  match types with
  | [] => ret tt
  | type :: rest =>
      (cache_del (ratelimit_key type userId) ;;; clearLimitsLoop userId rest)%js
  end.

(** [clearUserLimits]: the buckets of the four default categories, the
    violation record and the temporary ban. *)
Definition clearUserLimits (userId : string) : JS bool :=
  (clearLimitsLoop userId (map fst defaultLimitEntries) ;;;
   cache_del (violations_key userId) ;;;
   cache_del (tempban_key userId) ;;;
   ret true)%js.

(** The [ratelimit_] slots of a user hold lists of instants. *)
Definition limiterSlotsTyped (w : World) (userId : string) : Prop :=
  forall type e, w_cache w !! ratelimit_key type userId = Some e ->
                 exists l, ce_value e = VTimes l.

(** The instants the cache shows under [key] at the current instant. *)
Definition storedTimes (w : World) (key : string) : list Z :=
  match nodecache_get (w_now w) (w_cache w) key with
  | Some (VTimes l) => l
  | _ => []
  end.

(** Four denied calls of ["u"] on a limit of one request. *)
Definition fourViolations : World :=
  (run_seq (checkLimitAt "u" "x" (Some (mkLimit 1 100000)) [0; 1; 2; 3; 4])
           (world0 cfg0)).2.

(** What [getUserLimits] computes for one category from the cache. *)
Definition userLimitValue (w : World) (userId type : string) (limit : Limit)
  : UserLimit :=
  let valid := validWindow (w_now w) (lim_window limit)
                 (storedTimes w (ratelimit_key type userId)) in
  mkUserLimit (Z.of_nat (length valid)) (lim_max limit)
    (lim_max limit - Z.of_nat (length valid))
    (match valid with
     | [] => 0
     | first :: _ => first + lim_window limit - w_now w
     end).

(** The cache keys [clearUserLimits] deletes, in its order. *)
Definition clearedKeys (userId : string) : list string :=
  map (fun type => ratelimit_key type userId) (map fst defaultLimitEntries)
  ++ [violations_key userId; tempban_key userId].

(** The state after one request of ["u"] in the bucket of the command
    [ping]. *)
Definition afterOnePing : World := (checkLimit "u" "ping" None (world0 cfg0)).2.

(* ===================================================================== *)
(** ** AntiSpam: the similarity of two texts *)
(* ===================================================================== *)

(** [a[i] = v] on an array: inside the array the slot is replaced, at its
    end the array grows by one, further out JavaScript leaves holes
    (here [hole]; the code below never writes that far). *)
Definition arraySet {A} (hole : A) (i : nat) (v : A) (a : list A) : list A :=
  if (i <? length a)%nat then <[i := v]> a
  else a ++ replicate (i - length a) hole ++ [v].

(** [matrix[i][j]]; a cell that was not written reads as 0 here (it is
    [undefined] in JavaScript; the code reads written cells only). *)
Definition cellOf (matrix : list (list Z)) (i j : nat) : Z :=
  default 0 (default [] (matrix !! i) !! j).

(** [matrix[i][j] = v] *)
Definition setCell (i j : nat) (v : Z) (matrix : list (list Z)) : list (list Z) :=
  arraySet [] i (arraySet 0 j v (default [] (matrix !! i))) matrix.

Section Levenshtein.
Context {A : Type} `{EqDecision A}.

(** The body of the inner loop: [matrix[i][j]] from its three neighbours. *)
Definition fillCell (str1 str2 : list A) (i : nat) (matrix : list (list Z)) (j : nat)
  : list (list Z) :=
  if bool_decide (str2 !! (i - 1)%nat = str1 !! (j - 1)%nat) then
    setCell i j (cellOf matrix (i - 1) (j - 1)) matrix
  else
    setCell i j
      (Z.min (cellOf matrix (i - 1) (j - 1) + 1)
         (Z.min (cellOf matrix i (j - 1) + 1) (cellOf matrix (i - 1) j + 1)))
      matrix.

(** [levenshteinDistance(str1, str2)] on the code units of the two
    strings: the three loops over the matrix, then
    [matrix[str2.length][str1.length]]. *)
Definition levenshteinDistance (str1 str2 : list A) : Z :=
  let matrix :=
    fold_left (fun m i => arraySet [] i [Z.of_nat i] m)
              (seq 0 (S (length str2))) [] in
  let matrix :=
    fold_left (fun m j => setCell 0 j (Z.of_nat j) m)
              (seq 0 (S (length str1))) matrix in
  let matrix :=
    fold_left (fun m i => fold_left (fillCell str1 str2 i) (seq 1 (length str1)) m)
              (seq 1 (length str2)) matrix in
  cellOf matrix (length str2) (length str1).
End Levenshtein.

Module Similarity.
Section Similarity.
(** [str.toLowerCase().replace(/\s+/g, ' ').trim()], the work of the
    string library. *)
Variable normalize : string -> string.

(** [calculateSimilarity(text1, text2)] *)
Definition calculateSimilarity (text1 text2 : string) : Q :=
  if bool_decide (text1 = "") || bool_decide (text2 = "") then 0 else
  let norm1 := String.list_ascii_of_string (normalize text1) in
  let norm2 := String.list_ascii_of_string (normalize text2) in
  if bool_decide (norm1 = norm2) then 1 else
  let longer := if (length norm2 <? length norm1)%nat then norm1 else norm2 in
  let shorter := if (length norm2 <? length norm1)%nat then norm2 else norm1 in
  if bool_decide (length longer = 0%nat) then 1 else
  let distance := levenshteinDistance longer shorter in
  ((inject_Z (Z.of_nat (length longer)) - inject_Z distance)
   / inject_Z (Z.of_nat (length longer)))%Q.
End Similarity.
End Similarity.

(** The distance between the first [i] units of [str2] and the first [j]
    units of [str1], by the recurrence of the matrix. *)
Fixpoint prefixDistance {A} `{EqDecision A} (str1 str2 : list A) (i : nat)
  : nat -> Z :=
  match i with
  | O => fun j => Z.of_nat j
  | S i' =>
      fix row (j : nat) : Z :=
        match j with
        | O => Z.of_nat (S i')
        | S j' =>
            if bool_decide (str2 !! i' = str1 !! j') then prefixDistance str1 str2 i' j'
            else Z.min (prefixDistance str1 str2 i' j' + 1)
                   (Z.min (row j' + 1) (prefixDistance str1 str2 i' (S j') + 1))
        end
  end.

(* ===================================================================== *)
(** ** AntiSpam: the violation record and the actions *)
(* ===================================================================== *)

(** [getUserViolations]: the violations of the trailing hour. *)
Definition getUserViolations (userId : string) : JS (list SpamViolation) :=
  (v <- cache_get (spam_violations_key userId) ;;
   violations <- as_spam_violations v ;;
   now <- date_now ;;
   ret (recentViolations now violations))%js.

Definition clearUserViolations (userId : string) : JS bool :=
  (cache_del (spam_violations_key userId) ;;; ret true)%js.

(** [addToWhitelist] and [removeFromWhitelist] on the instance. *)
Definition addToWhitelist (userId : string) (this : AntiSpam) : AntiSpam :=
  mkAntiSpam ({[userId]} ∪ whitelistedUsers this) (settings this).

Definition removeFromWhitelist (userId : string) (this : AntiSpam) : AntiSpam :=
  mkAntiSpam (whitelistedUsers this ∖ {[userId]}) (settings this).

(** What [processSpamAction] does through the socket, in order. *)
Inductive SpamEffect :=
  | SlowDownNotice (chat sender : string)
  | SpamWarning (chat sender : string) (indicators : list string)
  | RemoveParticipant (chat sender : string)
  | RemovedNotice (chat sender : string)
  | BannedNotice (chat : string)
  | LogRemoveFailed.

(** [{from, sender, isGroup}] *)
Record ActionContext := mkActionContext {
  ac_from : string;
  ac_sender : string;
  ac_isGroup : bool
}.

(** [processSpamAction]: the [switch] compares [spamResult.action] with
    the three strings by [===]; [removeFails] says whether
    [sock.groupParticipantsUpdate] throws. *)
Definition processSpamAction (removeFails : bool) (spamResult : SpamResult)
    (context : ActionContext) : list SpamEffect :=
  let from := ac_from context in
  let sender := ac_sender context in
  match sr_action spamResult with
  | Some action =>
      if strict_eq action "throttle" then [SlowDownNotice from sender]
      else if strict_eq action "warn" then
        [SpamWarning from sender (sr_indicators spamResult)]
      else if strict_eq action "ban" then
        if ac_isGroup context then
          if removeFails then [RemoveParticipant from sender; LogRemoveFailed]
          else [RemoveParticipant from sender; RemovedNotice from sender]
        else [BannedNotice from]
      else []
  | None => []
  end.

(** A computation that, started with a working cache, leaves a working
    cache. *)
Definition keepsWorking {A} (m : JS A) : Prop :=
  forall w, w_faults w = [] -> w_faults (m w).2 = [].

(** The subject ["u"] sends a sixth message with the text of an earlier
    one; the measures compare texts by [calculateSimilarity] without any
    normalisation. *)
Definition rxPlain : TextMeasures :=
  mkTextMeasures (fun _ => 0) (fun _ => 0) (fun _ => None) (fun _ => 0)
                 (fun _ => 0) (fun _ => false)
                 (Similarity.calculateSimilarity (fun s => s)).

Definition helloWorld : string := "hello world!".

Definition afterHello : World :=
  (at_time 0 (checkRepeatedContent antiSpam0 rxPlain "u" (Some helloWorld))
           (world0 cfg0)).2.

(** [checkMessageFrequency] for the subject [userId], called at the
    instants [ts]. *)
Definition checkFrequencyAt (this : AntiSpam) (userId : string) (ts : list Z)
  : list (JS Check) :=
  map (fun t => at_time t (checkMessageFrequency this userId None)) ts.

(* ===================================================================== *)
(** ** CommandHandler: the registry and the statistics *)
(* ===================================================================== *)

(** The registration of one loaded command in [loadCommands]:
    [this.commands.set(command.name, command)] and, for each alias,
    [this.aliases.set(alias, command.name)]. *)
Definition registerCommand (command : Command) (reg : Registry) : Registry :=
  mkRegistry
    (<[cmd_name command := command]> (commands reg))
    (foldl (fun al alias => <[alias := cmd_name command]> al)
           (aliases reg) (cmd_aliases command)).

(** [array.slice(0, limit)]: a negative [limit] counts from the end. *)
Definition sliceTo {A} (limit : Z) (l : list A) : list A :=
  if 0 <=? limit then take (Z.to_nat limit) l
  else take (length l - Z.to_nat (- limit)) l.

(** [{name, used, errors}] *)
Record CommandStat := mkCommandStat {
  cs_name : string;
  cs_used : nat;
  cs_errors : nat
}.

(** [(a, b) => b[1].used - a[1].used] *)
Definition compareUsed (a b : string * (nat * nat)) : Z :=
  Z.of_nat b.2.1 - Z.of_nat a.2.1.

Definition statOf (e : string * (nat * nat)) : CommandStat :=
  mkCommandStat e.1 e.2.1 e.2.2.

(** [getTopCommands(limit)] on [Array.from(this.commandStats.entries())],
    the entries in the order in which the commands were loaded. *)
Definition getTopCommands (entries : list (string * (nat * nat))) (limit : Z)
  : list CommandStat :=
  map statOf (sliceTo limit (jsSort compareUsed entries)).

(** A command with a cooldown of ten seconds and the alias [p]. *)
Definition pong : Command :=
  mkCommand "pong" ["p"] "general" None (Some 10) true None None true 0 None.

Definition regPong : Registry := registerCommand pong (mkRegistry ∅ ∅).

(** A computation that only adds to what was sent and done so far. *)
Definition appendsOut {A} (m : JS A) : Prop :=
  forall w, exists new, w_out (m w).2 = w_out w ++ new.

(* ===================================================================== *)
(** ** MessageQueue: scheduling *)
(* ===================================================================== *)

(** [scheduleMessage(queueName, message, scheduleTime, options)]:
    [{...options, delay}] when the time lies ahead, [options] as they are
    otherwise. *)
Definition scheduleMessage (queueName data : string) (scheduleTime : Z)
    (options : Options) (generatedId : string) (now : Z) (s : MQ) : MQ :=
  let delay := scheduleTime - now in
  if delay <=? 0 then addMessage queueName data options generatedId now s
  else addMessage queueName data
         (mkOptions (o_priority options) (Some delay) (o_maxRetries options)
                    (o_id options))
         generatedId now s.

(** The queue is drained when the message [r] is due, and the execution,
    if one was started, succeeds [took] milliseconds later. *)
Definition succeedingRound (q : string) (r : nat) (took : Z) (s : MQ) : MQ :=
  let due := qm_scheduledFor (deref (mq_heap s) r) in
  callback q r None (due + took) (processQueue q due s).

(** [this.stats.processed++] *)
Definition completedOnce (st : QStats) : QStats :=
  mkQStats (st_queued st) (S (st_processed st)) (st_failed st) (st_retried st).

Definition isCompletedOf (q id : string) (e : QEvent) : bool :=
  match e with
  | Completed q' id' _ => bool_decide (q' = q) && bool_decide (id' = id)
  | _ => false
  end.

(** How often the events of a log are of one kind. *)
Definition countEvents (kind : QEvent -> bool) (events : list QEvent) : nat :=
  length (List.filter kind events).

Definition isQueued (e : QEvent) : bool :=
  match e with Queued _ _ _ => true | _ => false end.
Definition isCompleted (e : QEvent) : bool :=
  match e with Completed _ _ _ => true | _ => false end.
Definition isFailed (e : QEvent) : bool :=
  match e with Failed _ _ _ => true | _ => false end.
Definition isRetry (e : QEvent) : bool :=
  match e with Retry _ _ _ _ _ => true | _ => false end.

(** The four counters of [this.stats] count the events of their kind. *)
Definition statsCountEvents (s : MQ) : Prop :=
  st_queued (mq_stats s) = countEvents isQueued (mq_events s) /\
  st_processed (mq_stats s) = countEvents isCompleted (mq_events s) /\
  st_failed (mq_stats s) = countEvents isFailed (mq_events s) /\
  st_retried (mq_stats s) = countEvents isRetry (mq_events s).

(** The operation saves, or restores, the queue [q]. *)
Definition savesQueue (q : string) (now_op : Z * Op) : bool :=
  match now_op.2 with
  | OpPersistQueue q' => bool_decide (q' = q)
  | _ => false
  end.

Definition restoresQueue (q : string) (now_op : Z * Op) : bool :=
  match now_op.2 with
  | OpRestoreQueue q' => bool_decide (q' = q)
  | _ => false
  end.

(** One message waits on the queue ["q"]; the queue is saved, and a second
    message is enqueued. *)
Definition oneWaiting : MQ :=
  run [(0, OpAddMessage "q" "first" (mkOptions None None None (Some "m1")) "g")] mq_new.

Definition enqueuedAfterSaving : list (Z * Op) :=
  [(10, OpAddMessage "q" "second" (mkOptions None None None (Some "m2")) "g")].

(* ===================================================================== *)
(** * Properties *)
(* ===================================================================== *)

(** ** Running the monad *)

Lemma bind_ok {S A B} (m : M S A) (k : A -> M S B) s a s' :
  m s = (Ok a, s') -> bind m k s = k a s'.
Proof. intros H. unfold bind. now rewrite H. Qed.

Lemma bind_throw {S A B} (m : M S A) (k : A -> M S B) s e s' :
  m s = (Throw e, s') -> bind m k s = (Throw e, s').
Proof. intros H. unfold bind. now rewrite H. Qed.

Lemma cache_call_nofault {A} (f : World -> A * World) w :
  w_faults w = [] -> cache_call f w = (Ok (f w).1, (f w).2).
Proof. intros H. unfold cache_call. rewrite H. now destruct (f w). Qed.

Lemma cache_get_nofault k w :
  w_faults w = [] ->
  cache_get k w = (Ok (nodecache_get (w_now w) (w_cache w) k), w).
Proof. intros H. unfold cache_get. now rewrite cache_call_nofault. Qed.

Lemma cache_set_nofault k v ttl w :
  w_faults w = [] ->
  cache_set k v ttl w =
  (Ok tt, set_cache (nodecache_set (w_cfg w) (w_now w) (w_cache w) k v ttl) w).
Proof. intros H. unfold cache_set. now rewrite cache_call_nofault. Qed.

(** ** Cache keys of different families never coincide *)

Lemma violations_ne_ratelimit u type u' : violations_key u <> ratelimit_key type u'.
Proof. discriminate. Qed.

Lemma tempban_ne_ratelimit u type u' : tempban_key u <> ratelimit_key type u'.
Proof. discriminate. Qed.

Lemma tempban_ne_violations u u' : tempban_key u <> violations_key u'.
Proof. discriminate. Qed.

(** ** Rate limiter *)

Lemma recordViolation_nofault u type w :
  w_faults w = [] -> violationsTyped w u = true ->
  recordViolation u type w = (Ok tt, afterViolation u type w).
Proof.
  intros Hf Hty.
  unfold recordViolation.
  rewrite (bind_ok _ _ _ _ _ (cache_get_nofault _ _ Hf)).
  unfold violationsTyped in Hty. unfold afterViolation, storedViolations.
  unfold nodecache_get.
  destruct (w_cache w !! violations_key u) as [e|] eqn:He.
  - destruct (ce_value e) eqn:Hv; try discriminate.
    destruct ((ce_expires e =? 0) || (w_now w <=? ce_expires e)); cbn.
    all: unfold bind, date_now, gets, cache_set, cache_call; cbn; rewrite Hf; cbn.
    all: destruct (5 <=? _); cbn; try reflexivity.
    all: unfold temporaryBan, bind, date_now, gets, cache_set, cache_call, logger, modify; cbn;
         rewrite Hf; reflexivity.
  - cbn. unfold bind, date_now, gets, cache_set, cache_call; cbn; rewrite Hf; cbn.
    reflexivity.
Qed.

Lemma ceil_div_1000_ge x : 0 < x -> x <= ceil_div x 1000 * 1000 /\ 0 < ceil_div x 1000.
Proof.
  intros Hx. unfold ceil_div.
  pose proof (Z.div_mod (- x) 1000 ltac:(lia)) as Hdm.
  pose proof (Z.mod_pos_bound (- x) 1000 ltac:(lia)) as Hb.
  lia.
Qed.

Lemma validWindow_all now window l :
  Forall (fun x => now - x < window) l -> validWindow now window l = l.
Proof.
  induction 1 as [|x l Hx _ IH]; [reflexivity|].
  cbn. destruct (Z.ltb_spec (now - x) window); [|lia].
  unfold validWindow in IH. now rewrite IH.
Qed.

Lemma validWindow_none now window l :
  Forall (fun x => window <= now - x) l -> validWindow now window l = [].
Proof.
  induction 1 as [|x l Hx _ IH]; [reflexivity|].
  cbn. destruct (Z.ltb_spec (now - x) window); [lia|]. exact IH.
Qed.

Lemma validWindow_app now window l1 l2 :
  validWindow now window (l1 ++ l2) =
  validWindow now window l1 ++ validWindow now window l2.
Proof. unfold validWindow. induction l1; cbn; [reflexivity|]. destruct (_ <? _); cbn; now rewrite IHl1. Qed.

Lemma validWindow_bound now window l tl :
  Forall (fun x => x <= tl) l -> Forall (fun x => x <= tl) (validWindow now window l).
Proof.
  induction 1; cbn; [constructor|]. destruct (_ <? _); [constructor|]; assumption.
Qed.

Section CheckLimitStep.
Variables (userId type : string) (customLimit : option Limit) (limit : Limit).
Hypothesis resolved : limitFor type customLimit = Some limit.
Let key := ratelimit_key type userId.

(** One call of [checkLimit] against a working cache follows [windowStep]. *)
Lemma checkLimit_step w t stored tl :
  w_faults w = [] -> violationsTyped w userId = true ->
  slotInv w key (lim_window limit) stored tl ->
  tl <= t -> 0 < lim_window limit ->
  exists r w',
    at_time t (checkLimit userId type customLimit) w = (Ok r, w') /\
    allowed r = (windowStep limit stored t).1 /\
    (allowed r = false -> remaining r = Some 0) /\
    w_faults w' = [] /\ violationsTyped w' userId = true /\
    slotInv w' key (lim_window limit) (windowStep limit stored t).2
            (if allowed r then t else tl).
Proof.
  intros Hf Hty Hslot Hle Hwin.
  assert (Hget : validWindow t (lim_window limit)
                   (match nodecache_get t (w_cache w) key with
                    | Some (VTimes l) => l | _ => [] end)
                 = validWindow t (lim_window limit) stored
                 /\ as_times (nodecache_get t (w_cache w) key) (set_now t w)
                    = (Ok (match nodecache_get t (w_cache w) key with
                           | Some (VTimes l) => l | _ => [] end), set_now t w)).
  { unfold nodecache_get.
    destruct Hslot as [[Hnone ->]|(expires & Hsome & Hexp & Hbound)].
    - rewrite Hnone. split; reflexivity.
    - rewrite Hsome. cbn.
      destruct ((expires =? 0) || (t <=? expires)) eqn:Hvis; [split; reflexivity|].
      apply orb_false_iff in Hvis as [H0 Hlt].
      apply Z.eqb_neq in H0. apply Z.leb_gt in Hlt.
      split; [|reflexivity]. cbn. symmetry. apply validWindow_none.
      eapply Forall_impl; [exact Hbound|]. cbn. intros x Hx. lia. }
  destruct Hget as [Hvalid Has].
  set (seen := match nodecache_get t (w_cache w) key with
               | Some (VTimes l) => l | _ => [] end) in *.
  unfold at_time, checkLimit, try_catch.
  fold key. rewrite resolved.
  rewrite (bind_ok _ _ (set_now t w) _ _ (cache_get_nofault key (set_now t w) Hf)).
  cbn [w_now w_cache set_now].
  rewrite (bind_ok _ _ _ _ _ Has).
  unfold bind at 1. unfold date_now at 1. unfold gets at 1. cbn [w_now set_now].
  rewrite Hvalid. unfold windowStep.
  destruct (lim_max limit <=? Z.of_nat (length (validWindow t (lim_window limit) stored)))
    eqn:Hfull.
  - rewrite (bind_ok _ _ _ _ _ (recordViolation_nofault userId type (set_now t w) Hf Hty)).
    cbn [ret].
    eexists _, _. split; [reflexivity|]. cbn.
    split; [reflexivity|]. split; [reflexivity|].
    assert (Hfr : forall k, k <> violations_key userId -> k <> tempban_key userId ->
              w_cache (afterViolation userId type (set_now t w)) !! k = w_cache w !! k).
    { intros k Hk1 Hk2. unfold afterViolation.
      destruct (5 <=? _); cbn; unfold nodecache_set;
        rewrite ?lookup_insert_ne by congruence; reflexivity. }
    split.
    { unfold afterViolation. destruct (5 <=? _); cbn; exact Hf. }
    split.
    { unfold violationsTyped, afterViolation.
      destruct (5 <=? _); cbn; unfold nodecache_set.
      - rewrite lookup_insert_ne by (apply tempban_ne_violations).
        rewrite lookup_insert_eq. reflexivity.
      - rewrite lookup_insert_eq. reflexivity. }
    unfold slotInv. rewrite Hfr.
    + exact Hslot.
    + intros E. symmetry in E. revert E. apply violations_ne_ratelimit.
    + intros E. symmetry in E. revert E. apply tempban_ne_ratelimit.
  - rewrite (bind_ok _ _ _ _ _ (cache_set_nofault _ _ _ (set_now t w) Hf)).
    cbn [ret].
    eexists _, _. split; [reflexivity|]. cbn.
    split; [reflexivity|]. split; [discriminate|].
    split; [exact Hf|].
    split.
    { unfold violationsTyped in *. cbn. unfold nodecache_set.
      rewrite lookup_insert_ne; [exact Hty|].
      intros E. symmetry in E. revert E. apply violations_ne_ratelimit. }
    right. eexists. split.
    { cbn. unfold nodecache_set. rewrite lookup_insert_eq. reflexivity. }
    split.
    { right. destruct (ceil_div_1000_ge _ Hwin) as [Hge Hpos].
      destruct (Z.eqb_spec (ceil_div (lim_window limit) 1000) 0); lia. }
    apply Forall_app. split.
    + destruct Hslot as [[_ ->]|(expires & _ & _ & Hbound)]; [constructor|].
      eapply Forall_impl; [apply validWindow_bound; exact Hbound|]. cbn. intros; lia.
    + repeat constructor. lia.
Qed.
End CheckLimitStep.

Lemma ascending_cons t ts : ascending (t :: ts) -> ascending ts.
Proof. destruct ts; cbn; tauto. Qed.

Lemma ascending_head_le t ts x : ascending (t :: ts) -> In x ts -> t <= x.
Proof.
  revert t. induction ts as [|t' ts IH]; intros t Hasc Hin; [destruct Hin|].
  destruct Hasc as [Hle Hasc]. destruct Hin as [->|Hin]; [exact Hle|].
  specialize (IH t' Hasc Hin). lia.
Qed.

Lemma ascending_app_r l1 l2 : ascending (l1 ++ l2) -> ascending l2.
Proof. induction l1; [trivial|]. intros H. apply IHl1. eapply ascending_cons, H. Qed.

Lemma ascending_app_l l1 l2 : ascending (l1 ++ l2) -> ascending l1.
Proof.
  induction l1 as [|a k IH]; [intros; exact I|].
  destruct k as [|b k]; [intros; exact I|]. cbn. intros [Hab H]. split; [exact Hab|].
  apply IH. exact H.
Qed.

Lemma ascending_replace_head t t' ts :
  ascending (t :: ts) -> (forall x, In x ts -> t' <= x) -> ascending (t' :: ts).
Proof.
  destruct ts as [|x ts]; [trivial|]. intros [_ H] Hx. split; [|exact H].
  apply Hx. now left.
Qed.

Lemma run_seq_app {A} (ms1 ms2 : list (JS A)) w :
  run_seq (ms1 ++ ms2) w =
  let (r1, w1) := run_seq ms1 w in
  let (r2, w2) := run_seq ms2 w1 in (r1 ++ r2, w2).
Proof.
  revert w. induction ms1 as [|m ms1 IH]; intros w; cbn.
  - now destruct (run_seq ms2 w).
  - destruct (m w) as [r w']. rewrite IH.
    destruct (run_seq ms1 w') as [r1 w1]. now destruct (run_seq ms2 w1).
Qed.

Section CheckLimitRun.
Variables (userId type : string) (customLimit : option Limit) (limit : Limit).
Hypothesis resolved : limitFor type customLimit = Some limit.
Let key := ratelimit_key type userId.

(** A series of calls follows [windowRun]. *)
Lemma checkLimit_run ts : forall w stored tl,
  w_faults w = [] -> violationsTyped w userId = true ->
  slotInv w key (lim_window limit) stored tl ->
  ascending (tl :: ts) -> 0 < lim_window limit ->
  exists rs w' tl',
    run_seq (checkLimitAt userId type customLimit ts) w = (map Ok rs, w') /\
    map allowed rs = (windowRun limit stored ts).1 /\
    Forall (fun r => allowed r = false -> remaining r = Some 0) rs /\
    w_faults w' = [] /\ violationsTyped w' userId = true /\
    slotInv w' key (lim_window limit) (windowRun limit stored ts).2 tl' /\
    (forall rest, ascending (tl :: ts ++ rest) -> ascending (tl' :: rest)).
Proof.
  induction ts as [|t ts IH]; intros w stored tl Hf Hty Hslot Hasc Hwin.
  - exists [], w, tl. cbn. repeat split; auto.
  - destruct Hasc as [Hle Hasc].
    destruct (checkLimit_step userId type customLimit limit resolved w t stored tl
                Hf Hty Hslot Hle Hwin)
      as (r & w1 & Hrun & Hal & Hrem & Hf1 & Hty1 & Hslot1).
    fold key in Hal, Hslot1.
    assert (Hasc1 : ascending ((if allowed r then t else tl) :: ts)).
    { destruct (allowed r); [exact Hasc|].
      apply (ascending_replace_head t); [exact Hasc|].
      intros x Hx. pose proof (ascending_head_le _ _ _ Hasc Hx). lia. }
    destruct (IH w1 _ _ Hf1 Hty1 Hslot1 Hasc1 Hwin)
      as (rs & w2 & tl2 & Hrun2 & Hal2 & Hrem2 & Hf2 & Hty2 & Hslot2 & Hnext).
    exists (r :: rs), w2, tl2.
    cbn [checkLimitAt map run_seq]. rewrite Hrun.
    unfold checkLimitAt in Hrun2. rewrite Hrun2.
    cbn [windowRun].
    destruct (windowStep limit stored t) as [ok stored1] eqn:Hstep.
    cbn [fst snd] in *.
    destruct (windowRun limit stored1 ts) as [oks stored2] eqn:Hwr.
    cbn [fst snd] in *.
    split; [reflexivity|]. split; [cbn; congruence|].
    split; [constructor; assumption|].
    split; [exact Hf2|]. split; [exact Hty2|]. split; [exact Hslot2|].
    intros rest Hrest. apply Hnext.
    cbn [app] in Hrest. destruct Hrest as [_ Hrest].
    destruct (allowed r); [exact Hrest|].
    apply (ascending_replace_head t); [exact Hrest|].
    intros x Hx. pose proof (ascending_head_le _ _ _ Hrest Hx). lia.
Qed.
End CheckLimitRun.

(** *** The window on its own *)

Lemma windowRun_app limit stored ts1 ts2 :
  windowRun limit stored (ts1 ++ ts2) =
  let (o1, s1) := windowRun limit stored ts1 in
  let (o2, s2) := windowRun limit s1 ts2 in (o1 ++ o2, s2).
Proof.
  revert stored. induction ts1 as [|t ts1 IH]; intros stored; cbn.
  - now destruct (windowRun limit stored ts2).
  - destruct (windowStep limit stored t) as [ok st1]. rewrite IH.
    destruct (windowRun limit st1 ts1) as [o1 s1].
    now destruct (windowRun limit s1 ts2).
Qed.

Lemma windowRun_length limit ts : forall stored,
  length (windowRun limit stored ts).1 = length ts.
Proof.
  induction ts as [|t ts IH]; intros stored; [reflexivity|].
  cbn [windowRun]. destruct (windowStep limit stored t) as [ok st].
  specialize (IH st). destruct (windowRun limit st ts). cbn in *. now rewrite IH.
Qed.

(** While every call is let through, the calls made since [t1] all stay in
    the slot, and the slot never holds more than [max] instants. *)
Lemma windowRun_accepted limit t1 ts : forall older acc,
  Forall (fun x => t1 <= x) acc ->
  Forall (fun t => t1 <= t /\ t - t1 < lim_window limit) ts ->
  (windowRun limit (older ++ acc) ts).1 = repeat true (length ts) ->
  exists older',
    (windowRun limit (older ++ acc) ts).2 = older' ++ acc ++ ts /\
    (ts <> [] -> Z.of_nat (length (older' ++ acc ++ ts)) <= lim_max limit).
Proof.
  induction ts as [|t ts IH]; intros older acc Hacc Hts Hall.
  - exists older. cbn. rewrite app_nil_r. split; [reflexivity|congruence].
  - inversion Hts as [|? ? [Ht1 Htw] Hts']; subst.
    cbn [windowRun] in *. unfold windowStep in *.
    rewrite validWindow_app in *.
    rewrite (validWindow_all t _ acc) in *
      by (eapply Forall_impl; [exact Hacc|]; cbn; intros; lia).
    destruct (lim_max limit <=? _) eqn:Hfull.
    { destruct (windowRun limit (older ++ acc) ts). discriminate Hall. }
    apply Z.leb_gt in Hfull.
    rewrite <- (app_assoc _ acc [t]) in *.
    destruct (windowRun limit (validWindow t (lim_window limit) older ++ acc ++ [t]) ts)
      as [oks st2] eqn:Hwr.
    cbn [fst snd length repeat] in *.
    injection Hall as Hall.
    specialize (IH (validWindow t (lim_window limit) older) (acc ++ [t])).
    rewrite Hwr in IH. cbn [fst snd] in IH.
    destruct IH as (older' & Hst & Hlen); [|exact Hts'|exact Hall|].
    { apply Forall_app. split; [exact Hacc|]. repeat constructor. exact Ht1. }
    rewrite <- app_assoc in Hst, Hlen. cbn [app] in Hst, Hlen.
    exists older'. split; [exact Hst|]. intros _.
    destruct ts as [|t' ts].
    + cbn in Hwr. injection Hwr as _ <-.
      apply (f_equal (@length Z)) in Hst.
      rewrite !length_app in *. cbn [length] in *. lia.
    + apply Hlen. discriminate.
Qed.

(** A full slot of live instants rejects, and is left as it is. *)
Lemma windowRun_rejected limit t1 stored us :
  Forall (fun x => t1 <= x) stored ->
  lim_max limit <= Z.of_nat (length stored) ->
  Forall (fun u => u - t1 < lim_window limit) us ->
  windowRun limit stored us = (repeat false (length us), stored).
Proof.
  intros Hst Hfull. induction 1 as [|u us Hu _ IH]; [reflexivity|].
  cbn [windowRun]. unfold windowStep.
  rewrite validWindow_all by (eapply Forall_impl; [exact Hst|]; cbn; intros; lia).
  destruct (Z.leb_spec (lim_max limit) (Z.of_nat (length stored))); [|lia].
  now rewrite IH.
Qed.

(** Once the oldest instant has left the window there is room again. *)
Lemma windowStep_elapsed limit t1 ts t' :
  Z.of_nat (length (t1 :: ts)) <= lim_max limit ->
  lim_window limit <= t' - t1 ->
  (windowStep limit (t1 :: ts) t').1 = true.
Proof.
  intros Hlen Hel. unfold windowStep. cbn [validWindow List.filter].
  destruct (Z.ltb_spec (t' - t1) (lim_window limit)); [lia|].
  pose proof (List.filter_length_le (fun timestamp => t' - timestamp <? lim_window limit) ts) as Hfl.
  cbn [length] in Hlen.
  destruct (Z.leb_spec (lim_max limit)
              (Z.of_nat (length (List.filter (fun timestamp => t' - timestamp <? lim_window limit) ts))));
    [lia|reflexivity].
Qed.

Lemma map_allowed_all_true (rs : list LimitResult) :
  Forall accepted (map Ok rs) -> map allowed rs = repeat true (length rs).
Proof.
  induction rs as [|r rs IH]; [reflexivity|]. cbn. intros H.
  inversion H as [|? ? (res & Hres & Hal) Hrest]; subst.
  injection Hres as <-. rewrite Hal. now rewrite IH.
Qed.

(** C2. Sliding window: once [max] calls of a subject have been let through
    within one window, every further call inside that window is rejected with
    nothing remaining, and the first call made after the window has elapsed
    since the first of them is let through again. *)
Theorem sliding_window_correctness
    (userId type : string) (customLimit : option Limit) (limit : Limit)
    (w w1 : World) (stored : list Z) (tl t1 t' : Z) (ts us : list Z)
    (rs1 : list (Res LimitResult)) :
  limitFor type customLimit = Some limit ->
  w_faults w = [] ->
  violationsTyped w userId = true ->
  slotInv w (ratelimit_key type userId) (lim_window limit) stored tl ->
  0 < lim_window limit ->
  Z.of_nat (length (t1 :: ts)) = lim_max limit ->
  ascending (tl :: (t1 :: ts) ++ us ++ [t']) ->
  Forall (fun t => t - t1 < lim_window limit) (ts ++ us) ->
  lim_window limit <= t' - t1 ->
  run_seq (checkLimitAt userId type customLimit (t1 :: ts)) w = (rs1, w1) ->
  Forall accepted rs1 ->
  exists rs2 r w2,
    run_seq (checkLimitAt userId type customLimit (us ++ [t'])) w1 = (rs2 ++ [r], w2) /\
    length rs2 = length us /\
    Forall rejected rs2 /\
    accepted r.
Proof.
  intros Hlimit Hf Hty Hslot Hwin Hlen Hasc Hin Hel Hrun1 Hacc.
  assert (Hasc1 : ascending (tl :: t1 :: ts)).
  { apply (ascending_app_l (tl :: t1 :: ts) (us ++ [t'])). exact Hasc. }
  destruct (checkLimit_run userId type customLimit limit Hlimit (t1 :: ts) w stored tl
              Hf Hty Hslot Hasc1 Hwin)
    as (rs & w1' & tl1 & Hrun & Hal & _ & Hf1 & Hty1 & Hslot1 & Hnext).
  rewrite Hrun in Hrun1. injection Hrun1 as <- <-.
  apply map_allowed_all_true in Hacc.
  assert (Hlenrs : length rs = length (t1 :: ts)).
  { apply (f_equal (@length bool)) in Hal.
    now rewrite length_map, windowRun_length in Hal. }
  rewrite Hal, Hlenrs in Hacc.
  assert (Hge : Forall (fun t => t1 <= t) (ts ++ us)).
  { apply List.Forall_forall. intros x Hx.
    destruct Hasc1 as [_ Hasc1].
    assert (Hasc2 : ascending (t1 :: ts ++ us ++ [t'])).
    { apply (ascending_cons tl). exact Hasc. }
    apply (ascending_head_le _ _ _ Hasc2). rewrite app_assoc. apply in_or_app. now left. }
  apply Forall_app in Hge as [Hge_ts Hge_us].
  apply Forall_app in Hin as [Hin_ts Hin_us].
  destruct (windowRun_accepted limit t1 (t1 :: ts) stored []) as (older' & Hst & Hbound).
  { constructor. }
  { constructor; [lia|].
    apply List.Forall_forall. intros x Hx. rewrite List.Forall_forall in Hge_ts, Hin_ts.
    split; [apply Hge_ts|apply Hin_ts]; exact Hx. }
  { rewrite app_nil_r. exact Hacc. }
  rewrite app_nil_r in Hst. cbn [app] in Hst, Hbound.
  specialize (Hbound ltac:(discriminate)).
  assert (older' = []) as ->.
  { destruct older'; [reflexivity|]. rewrite length_app in Hbound. cbn [length] in *. lia. }
  cbn [app] in Hst. rewrite Hst in Hslot1.
  specialize (Hnext (us ++ [t']) Hasc).
  destruct (checkLimit_run userId type customLimit limit Hlimit (us ++ [t']) w1'
              (t1 :: ts) tl1 Hf1 Hty1 Hslot1 Hnext Hwin)
    as (rs2 & w2 & tl2 & Hrun2 & Hal2 & Hrem2 & _).
  rewrite windowRun_app in Hal2.
  rewrite (windowRun_rejected limit t1 (t1 :: ts) us) in Hal2; cycle 1.
  { constructor; [lia|exact Hge_ts]. }
  { lia. }
  { exact Hin_us. }
  cbn [windowRun] in Hal2.
  pose proof (windowStep_elapsed limit t1 ts t' ltac:(lia) Hel) as Hok.
  destruct (windowStep limit (t1 :: ts) t') as [ok st]. cbn [fst snd] in *. subst ok.
  induction rs2 as [|r rs2' _] using rev_ind.
  { cbn in Hal2. destruct us; discriminate Hal2. }
  rewrite map_app in Hal2. cbn [map] in Hal2.
  apply app_inj_tail in Hal2 as [Hal2 Hr].
  rewrite Forall_app in Hrem2. destruct Hrem2 as [Hrem2 _].
  exists (map Ok rs2'), (Ok r), w2.
  rewrite Hrun2, map_app. split; [reflexivity|].
  split.
  { rewrite length_map. apply (f_equal (@length bool)) in Hal2.
    now rewrite length_map, repeat_length in Hal2. }
  split.
  { apply List.Forall_forall. intros x Hx. apply in_map_iff in Hx as (d & <- & Hd).
    assert (Hfalse : allowed d = false).
    { assert (In (allowed d) (repeat false (length us))).
      { rewrite <- Hal2. apply in_map. exact Hd. }
      eapply repeat_spec; eassumption. }
    exists d. split; [reflexivity|]. split; [exact Hfalse|].
    rewrite List.Forall_forall in Hrem2. apply Hrem2; assumption. }
  exists r. split; [reflexivity|exact Hr].
Qed.

Lemma sliding_window_witness :
  exists rs2 r w2,
    run_seq (checkLimitAt "u" "x" (Some (mkLimit 2 1000)) ([500; 900] ++ [1000]))
            (run_seq (checkLimitAt "u" "x" (Some (mkLimit 2 1000)) [0; 100])
                     (world0 cfg0)).2
    = (rs2 ++ [r], w2) /\
    length rs2 = length [500; 900] /\ Forall rejected rs2 /\ accepted r.
Proof.
  eapply (sliding_window_correctness "u" "x" (Some (mkLimit 2 1000)) (mkLimit 2 1000)
            (world0 cfg0) _ [] 0 0 1000 [100] [500; 900] _).
  - reflexivity.
  - reflexivity.
  - reflexivity.
  - left. split; reflexivity.
  - cbn. lia.
  - reflexivity.
  - cbn. lia.
  - repeat constructor; cbn; lia.
  - cbn. lia.
  - apply surjective_pairing.
  - vm_compute. repeat constructor; eexists; split; reflexivity.
Defined.

(** *** What a call leaves untouched *)

Lemma bind_inv_ok {S A B} (m : M S A) (k : A -> M S B) s b s' :
  bind m k s = (Ok b, s') ->
  exists a s1, m s = (Ok a, s1) /\ k a s1 = (Ok b, s').
Proof.
  unfold bind. destruct (m s) as [[a|e] s1]; intros H; [eauto|discriminate].
Qed.

Lemma sameOutside_refl w : sameOutside w w.
Proof. repeat split. Qed.

Lemma sameOutside_trans w1 w2 w3 :
  sameOutside w1 w2 -> sameOutside w2 w3 -> sameOutside w1 w3.
Proof. unfold sameOutside. intuition congruence. Qed.

Lemma cache_call_inv {A} (f : World -> A * World) w a w' :
  cache_call f w = (Ok a, w') ->
  exists w0, sameOutside w w0 /\ w_cache w0 = w_cache w /\ w_log w0 = w_log w /\
             f w0 = (a, w').
Proof.
  unfold cache_call. destruct (w_faults w) as [|[] fs]; intros H.
  - exists w. destruct (f w). injection H as <- <-.
    repeat split.
  - discriminate.
  - exists (set_faults fs (w_thrown w) w).
    destruct (f (set_faults fs (w_thrown w) w)). injection H as <- <-.
    repeat split.
Qed.

Lemma cache_get_inv k w v w' :
  cache_get k w = (Ok v, w') ->
  v = nodecache_get (w_now w) (w_cache w) k /\
  sameOutside w w' /\ w_cache w' = w_cache w /\ w_log w' = w_log w.
Proof.
  intros H. apply cache_call_inv in H as (w0 & Hs & Hc & Hl & Hf).
  injection Hf as <- <-. pose proof Hs as (_ & Hn & _).
  rewrite Hn, Hc. repeat split; solve [assumption | apply Hs].
Qed.

Lemma cache_set_inv k v ttl w w' :
  cache_set k v ttl w = (Ok tt, w') ->
  w_cache w' = nodecache_set (w_cfg w) (w_now w) (w_cache w) k v ttl /\
  sameOutside w w' /\ w_log w' = w_log w.
Proof.
  intros H. apply cache_call_inv in H as (w0 & Hs & Hc & Hl & Hf).
  injection Hf as <-. destruct Hs as (Hcfg & Hn & Hcd & Hst & Hout & Hth).
  cbn. rewrite Hcfg, Hn, Hc. repeat split; assumption.
Qed.

Lemma recordViolation_inv u type w w' :
  recordViolation u type w = (Ok tt, w') ->
  let violations := storedViolations w u ++ [mkRlViolation type (w_now w)] in
  sameOutside w w' /\
  (forall k, k <> violations_key u -> k <> tempban_key u ->
             w_cache w' !! k = w_cache w !! k) /\
  (exists e, w_cache w' !! violations_key u = Some e /\
             ce_value e = VRlViolations violations) /\
  (w_cache w' !! tempban_key u = w_cache w !! tempban_key u \/
   5 <= Z.of_nat (length violations)).
Proof.
  unfold recordViolation. intros H.
  apply bind_inv_ok in H as (v & w1 & Hget & H).
  apply cache_get_inv in Hget as (-> & Hs1 & Hc1 & _).
  apply bind_inv_ok in H as (violations & w2 & Has & H).
  assert (violations = storedViolations w u /\ w2 = w1) as [-> ->].
  { unfold storedViolations.
    destruct (nodecache_get (w_now w) (w_cache w) (violations_key u)) as [[]|];
      cbn in Has; try discriminate; injection Has as <- <-; split; reflexivity. }
  apply bind_inv_ok in H as (now & w3 & Hnow & H).
  injection Hnow as <- <-.
  apply bind_inv_ok in H as ([] & w4 & Hset & H).
  apply cache_set_inv in Hset as (Hc4 & Hs4 & _).
  assert (Hnow1 : w_now w1 = w_now w) by apply Hs1.
  assert (Hcfg1 : w_cfg w1 = w_cfg w) by apply Hs1.
  rewrite Hnow1, Hcfg1, Hc1 in *.
  destruct (5 <=? Z.of_nat (length (storedViolations w u ++ [mkRlViolation type (w_now w)])))
    eqn:Hfive.
  - apply bind_inv_ok in H as ([] & w5 & Hban & H).
    unfold temporaryBan in Hban.
    apply bind_inv_ok in Hban as (now' & w6 & Hnow' & Hban).
    injection Hnow' as <- <-.
    apply cache_set_inv in Hban as (Hc5 & Hs5 & _).
    injection H as <-.
    assert (Hs : sameOutside w w5)
      by (eapply sameOutside_trans; [exact Hs1|]; eapply sameOutside_trans; eassumption).
    split; [|split; [|split]].
    + exact Hs.
    + intros k Hk1 Hk2. cbn. rewrite Hc5, Hc4. unfold nodecache_set.
      rewrite !lookup_insert_ne by congruence. reflexivity.
    + cbn. rewrite Hc5, Hc4. unfold nodecache_set.
      rewrite lookup_insert_ne by (apply tempban_ne_violations).
      rewrite lookup_insert_eq. eexists. split; reflexivity.
    + right. apply Z.leb_le. exact Hfive.
  - injection H as <-.
    assert (Hs : sameOutside w w4) by (eapply sameOutside_trans; eassumption).
    split; [exact Hs|split; [|split]].
    + intros k Hk1 Hk2. rewrite Hc4. unfold nodecache_set.
      rewrite lookup_insert_ne by congruence. reflexivity.
    + rewrite Hc4. unfold nodecache_set. rewrite lookup_insert_eq.
      eexists. split; reflexivity.
    + left. rewrite Hc4. unfold nodecache_set.
      rewrite lookup_insert_ne; [reflexivity|].
      intros E. symmetry in E. revert E. apply tempban_ne_violations.
Qed.

(** A rejected call is: the read of the slot, then [recordViolation], both
    without a failure of the cache. *)
Lemma checkLimit_denied_run
    (userId type : string) (customLimit : option Limit)
    (w w' : World) (r : LimitResult) :
  checkLimit userId type customLimit w = (Ok r, w') ->
  allowed r = false ->
  exists w2, sameOutside w w2 /\ w_cache w2 = w_cache w /\
             recordViolation userId type w2 = (Ok tt, w').
Proof.
  unfold checkLimit, try_catch. intros H Hdenied.
  match type of H with
  | context [match ?body w with _ => _ end] => destruct (body w) as [[res|e] w1] eqn:Hbody
  end.
  2:{ unfold bind, logger, modify, ret in H. cbn in H. injection H as <- <-.
      discriminate Hdenied. }
  injection H as -> ->.
  apply bind_inv_ok in Hbody as (v & w2 & Hget & Hbody).
  apply cache_get_inv in Hget as (-> & Hs2 & Hc2 & _).
  apply bind_inv_ok in Hbody as (requests & w3 & Has & Hbody).
  assert (w3 = w2) as ->.
  { destruct (nodecache_get _ _ _) as [[]|]; cbn in Has; try discriminate;
      now injection Has. }
  apply bind_inv_ok in Hbody as (now & w4 & Hnow & Hbody).
  injection Hnow as <- <-.
  destruct (limitFor type customLimit) as [limit|].
  2:{ apply bind_inv_ok in Hbody as (? & ? & _ & Hbody).
      injection Hbody as <- <-. discriminate Hdenied. }
  destruct (lim_max _ <=? _).
  2:{ apply bind_inv_ok in Hbody as (? & ? & _ & Hbody).
      injection Hbody as <- <-. discriminate Hdenied. }
  apply bind_inv_ok in Hbody as ([] & w5 & Hrec & Hbody).
  injection Hbody as _ <-.
  exists w2. repeat split; solve [apply Hs2 | assumption].
Qed.

(** C10. A rejected call does not write the subject's list of instants: the
    only cache slots it can change are the subject's violation record, which
    grows by one entry, and the temporary ban that the fifth violation
    brings; nothing else of the process state changes. *)
Theorem denied_request_consumes_no_quota
    (userId type : string) (customLimit : option Limit)
    (w w' : World) (r : LimitResult) :
  checkLimit userId type customLimit w = (Ok r, w') ->
  allowed r = false ->
  let violations := storedViolations w userId ++ [mkRlViolation type (w_now w)] in
  w_cache w' !! ratelimit_key type userId = w_cache w !! ratelimit_key type userId /\
  (forall k, k <> violations_key userId -> k <> tempban_key userId ->
             w_cache w' !! k = w_cache w !! k) /\
  (exists e, w_cache w' !! violations_key userId = Some e /\
             ce_value e = VRlViolations violations) /\
  (w_cache w' !! tempban_key userId = w_cache w !! tempban_key userId \/
   5 <= Z.of_nat (length violations)) /\
  sameOutside w w'.
Proof.
  intros H Hdenied.
  destruct (checkLimit_denied_run _ _ _ _ _ _ H Hdenied) as (w2 & Hs2 & Hc2 & Hrec).
  apply recordViolation_inv in Hrec as (Hs5 & Hframe & Hviol & Hban).
  assert (Hstored : storedViolations w2 userId = storedViolations w userId).
  { unfold storedViolations. destruct Hs2 as (_ & -> & _). now rewrite Hc2. }
  assert (Hnow2 : w_now w2 = w_now w) by apply Hs2.
  rewrite Hstored, Hnow2, Hc2 in *.
  split; [|split; [|split; [|split]]].
  - apply Hframe.
    + intros E. symmetry in E. revert E. apply violations_ne_ratelimit.
    + intros E. symmetry in E. revert E. apply tempban_ne_ratelimit.
  - exact Hframe.
  - exact Hviol.
  - exact Hban.
  - eapply sameOutside_trans; eassumption.
Qed.

Lemma denied_request_witness :
  let w := (at_time 0 (checkLimit "u" "x" (Some (mkLimit 1 1000))) (world0 cfg0)).2 in
  let w' := (checkLimit "u" "x" (Some (mkLimit 1 1000)) w).2 in
  w_cache w' !! ratelimit_key "x" "u" = w_cache w !! ratelimit_key "x" "u".
Proof.
  intros w w'.
  refine (proj1 (denied_request_consumes_no_quota "u" "x" (Some (mkLimit 1 1000))
                   w w' (mkLimitResult false (Some 0) (Some 1000) (Some 1)) _ _)).
  - vm_compute. reflexivity.
  - reflexivity.
Defined.

(** *** Failing open *)


(** Were a cache call of [checkLimit] to throw, the request would be let
    through: a rejection comes with no failure. *)
Lemma checkLimit_fail_open userId type customLimit w r w' :
  checkLimit userId type customLimit w = (Ok r, w') ->
  w_thrown w' <> w_thrown w -> allowed r = true.
Proof.
  intros H Hthrown. destruct (allowed r) eqn:Hal; [reflexivity|].
  destruct (checkLimit_denied_run _ _ _ _ _ _ H Hal) as (w2 & Hs2 & _ & Hrec).
  apply recordViolation_inv in Hrec as (Hs5 & _).
  destruct (sameOutside_trans _ _ _ Hs2 Hs5) as (_ & _ & _ & _ & _ & Hth).
  contradiction.
Qed.


(** What [checkSpam] reports as spam always carries a promise as its action
    and a wait time of 0: [determineAction] is [async] and is called without
    [await], so [action === 'throttle'] compares a promise with a string. *)
Lemma checkSpam_action_unawaited this rx userId messageId context w r w' :
  checkSpam this rx userId messageId context w = (Ok r, w') ->
  isSpam r = true ->
  sr_waitTime r = Some 0%Q /\ exists settles, sr_action r = Some (Promise settles).
Proof.
  unfold checkSpam, try_catch. intros H Hspam.
  match type of H with
  | context [match ?body w with _ => _ end] => destruct (body w) as [[res|e] w1] eqn:Hbody
  end.
  2:{ cbn in H. injection H as <- <-. discriminate Hspam. }
  injection H as -> ->.
  destruct (bool_decide _).
  { injection Hbody as <- <-. discriminate Hspam. }
  apply bind_inv_ok in Hbody as (cfg & w2 & _ & Hbody).
  destruct (_ && _ && _).
  { injection Hbody as <- <-. discriminate Hspam. }
  apply bind_inv_ok in Hbody as (checks & w3 & _ & Hbody).
  destruct (bool_decide _).
  { injection Hbody as <- <-. discriminate Hspam. }
  apply bind_inv_ok in Hbody as ([] & w4 & _ & Hbody).
  apply bind_inv_ok in Hbody as (action & w5 & Hact & Hbody).
  injection Hbody as <- <-. cbn.
  unfold unawaited in Hact.
  destruct (determineAction this userId _ w4) as [settles w6].
  injection Hact as <- <-. cbn. split; [reflexivity|]. eexists. reflexivity.
Qed.

(** ** Anti-spam *)

(** The decision table of [determineAction], with the default thresholds. *)
Lemma decideAction_table recent severity :
  let count := Z.of_nat (length recent) in
  let avg := (fold_left (fun sum v => sum + sv_severity v) recent 0
              / inject_Z count)%Q in
  decideAction antiSpam0 recent severity =
    if (5 <=? count) || Qgtb avg 3 then "ban"
    else if (3 <=? count) || Qgtb severity 2 then "warn"
    else "throttle".
Proof. reflexivity. Qed.

Lemma calculateWaitTime_cap severity :
  calculateWaitTime severity = Qmin (severity * 5000) 30000.
Proof. reflexivity. Qed.

(** C1 (defect). The sixth message of a subject within ten seconds, with no
    earlier violation, is spam of severity 6/5.  The decision table says
    [throttle], so the wait time should be [min(6/5 * 5000, 30000) = 6000] ms;
    [checkSpam] returns a promise as the action and a wait time of 0. *)
Theorem checkSpam_throttle_has_no_wait_time :
  (at_time 5 (checkSpam antiSpam0 rx0 "u" None emptyContext) afterFiveMessages).1
  = Ok (mkSpamResult true None (Some (6 # 5)) ["message_frequency"]
          (Some (Promise (Ok "throttle"))) (Some 0%Q) None)
  /\ decideAction antiSpam0 [mkSpamViolation 5 ["message_frequency"] (6 # 5)] (6 # 5)
     = "throttle"
  /\ (calculateWaitTime (6 # 5) == 6000)%Q.
Proof. split; [|split]; reflexivity. Qed.

(** ** Dispatcher *)

Lemma permissionLoop_exists cfg user group isGroupAdmin isBotAdmin permissions :
  permissionLoop cfg user group isGroupAdmin isBotAdmin permissions = true <->
  exists tag, In tag permissions /\
              permissionHolds cfg user group isGroupAdmin isBotAdmin tag = true.
Proof.
  induction permissions as [|p rest IH]; cbn.
  - split; [discriminate|]. intros (tag & [] & _).
  - destruct (permissionHolds cfg user group isGroupAdmin isBotAdmin p) eqn:Hp.
    + split; [|reflexivity]. intros _. exists p. split; [now left|exact Hp].
    + rewrite IH. split.
      * intros (tag & Hin & Htag). exists tag. split; [now right|exact Htag].
      * intros (tag & [<-|Hin] & Htag); [congruence|]. exists tag. now split.
Qed.

Lemma permissionHolds_owner cfg user group isGroupAdmin isBotAdmin :
  permissionHolds cfg user group isGroupAdmin isBotAdmin "owner"
  = includes (cfg_ownerNumbers cfg) (u_jid user).
Proof. reflexivity. Qed.

Lemma permissionHolds_admin cfg user group isGroupAdmin isBotAdmin :
  permissionHolds cfg user group isGroupAdmin isBotAdmin "admin"
  = includes (cfg_ownerNumbers cfg) (u_jid user) || isGroupAdmin.
Proof. reflexivity. Qed.

(** *** What the gates send, and where [undefined] can come from *)

Lemma bind_inv {S A B} (m : M S A) (k : A -> M S B) s r s' :
  bind m k s = (r, s') ->
  (exists e, m s = (Throw e, s') /\ r = Throw e) \/
  (exists a s1, m s = (Ok a, s1) /\ k a s1 = (r, s')).
Proof.
  unfold bind. destruct (m s) as [[a|e] s1]; intros H.
  - right. eauto.
  - left. injection H as <- <-. eauto.
Qed.

Lemma keepsOut_ret {A} (a : A) : keepsOut (ret a).
Proof. intros w. reflexivity. Qed.

Lemma keepsOut_throw {A} e : keepsOut (@throw World A e).
Proof. intros w. reflexivity. Qed.

Lemma keepsOut_gets {A} (f : World -> A) : keepsOut (gets f).
Proof. intros w. reflexivity. Qed.

Lemma keepsOut_logger l : keepsOut (logger l).
Proof. intros w. reflexivity. Qed.

Lemma keepsOut_modify (f : World -> World) :
  (forall w, w_out (f w) = w_out w) -> keepsOut (modify f).
Proof. intros Hf w. apply Hf. Qed.

Lemma keepsOut_cache_call {A} (f : World -> A * World) :
  (forall w, w_out (f w).2 = w_out w) -> keepsOut (cache_call f).
Proof.
  intros Hf w. unfold cache_call. destruct (w_faults w) as [|[] fs].
  - specialize (Hf w). destruct (f w). exact Hf.
  - reflexivity.
  - specialize (Hf (set_faults fs (w_thrown w) w)).
    destruct (f (set_faults fs (w_thrown w) w)). exact Hf.
Qed.

Lemma keepsOut_cache_get k : keepsOut (cache_get k).
Proof. apply keepsOut_cache_call. reflexivity. Qed.

Lemma keepsOut_cache_set k v ttl : keepsOut (cache_set k v ttl).
Proof. apply keepsOut_cache_call. reflexivity. Qed.

Lemma keepsOut_bind {A B} (m : JS A) (k : A -> JS B) :
  keepsOut m -> (forall a, keepsOut (k a)) -> keepsOut (bind m k).
Proof.
  intros Hm Hk w. unfold bind. specialize (Hm w).
  destruct (m w) as [[a|e] w1]; cbn in Hm; [|exact Hm].
  now rewrite Hk.
Qed.

Lemma keepsOut_try_catch {A} (m : JS A) (h : JsError -> JS A) :
  keepsOut m -> (forall e, keepsOut (h e)) -> keepsOut (try_catch m h).
Proof.
  intros Hm Hh w. unfold try_catch. specialize (Hm w).
  destruct (m w) as [[a|e] w1]; cbn in Hm; [exact Hm|].
  now rewrite Hh.
Qed.

Lemma keepsOut_unawaited {A} (m : JS A) : keepsOut m -> keepsOut (unawaited m).
Proof.
  intros Hm w. unfold unawaited. specialize (Hm w). destruct (m w). exact Hm.
Qed.

Ltac silent :=
  repeat first
    [ apply keepsOut_ret | apply keepsOut_throw | apply keepsOut_gets
    | apply keepsOut_logger | apply keepsOut_cache_get | apply keepsOut_cache_set
    | apply keepsOut_unawaited
    | apply keepsOut_modify; intros ?; reflexivity
    | apply keepsOut_bind; [|intros ?]
    | apply keepsOut_try_catch; [|intros ?]
    | match goal with
      | |- keepsOut (if ?b then _ else _) => destruct b
      | |- keepsOut (match ?x with _ => _ end) => destruct x
      end ].

Lemma keepsOut_checkCooldown reg commandName userId :
  keepsOut (checkCooldown reg commandName userId).
Proof. unfold checkCooldown, date_now. silent. Qed.

Lemma keepsOut_checkLimit userId type customLimit :
  keepsOut (checkLimit userId type customLimit).
Proof.
  unfold checkLimit, recordViolation, temporaryBan, as_times, as_rl_violations, date_now.
  silent.
Qed.

Lemma keepsOut_checkSpam this rx userId messageId context :
  keepsOut (checkSpam this rx userId messageId context).
Proof.
  unfold checkSpam, allChecks, checkMessageFrequency, checkRepeatedContent,
    recordSpamViolation, determineAction, as_freq, as_content, as_spam_violations,
    date_now.
  silent.
Qed.

(** Arguments that are accepted are accepted silently. *)
Lemma validateArguments_true command nargs chat w w' :
  validateArguments command nargs chat w = (Ok true, w') -> w' = w.
Proof.
  unfold validateArguments.
  destruct (negb (cmd_args command)); [intros H; now injection H|].
  destruct (truthy (cmd_minArgs command)) as [minArgs|].
  - destruct (nargs <? minArgs); [discriminate|].
    destruct (truthy (cmd_maxArgs command)) as [maxArgs|]; [|intros H; now injection H].
    destruct (maxArgs <? nargs); [discriminate|intros H; now injection H].
  - destruct (truthy (cmd_maxArgs command)) as [maxArgs|]; [|intros H; now injection H].
    destruct (maxArgs <? nargs); [discriminate|intros H; now injection H].
Qed.

Lemma gatesPass_out spam rx reg command message commandName nargs w w' :
  gatesPass spam rx reg command message commandName nargs w w' ->
  w_out w' = w_out w.
Proof.
  intros (_ & w1 & r & w2 & sr & w3 & Hcd & Hrl & _ & Hsp & _ & Hargs).
  apply validateArguments_true in Hargs. subst w'.
  pose proof (keepsOut_checkCooldown reg commandName (senderOf message) w) as H1.
  pose proof (keepsOut_checkLimit (senderOf message) commandName None w1) as H2.
  pose proof (keepsOut_checkSpam spam rx (senderOf message) (msg_id message)
                emptyContext w2) as H3.
  rewrite Hcd in H1. rewrite Hrl in H2. rewrite Hsp in H3. cbn in H1, H2, H3.
  congruence.
Qed.

(** Past the gates the handler is invoked, once; what it throws is what
    comes out of the [try] block, unless the statistics entry of the
    command is missing. *)
Lemma afterPermission_runs spam rx reg command message commandName nargs w w4 :
  gatesPass spam rx reg command message commandName nargs w w4 ->
  exists r w',
    afterPermission spam rx reg command message commandName nargs w = (r, w') /\
    List.filter isExecute (w_out w')
    = List.filter isExecute (w_out w) ++ [Execute commandName (senderOf message)] /\
    (r = Throw Nullish <-> cmd_throws command = Some ThrownNullish).
Proof.
  intros Hgates. pose proof (gatesPass_out _ _ _ _ _ _ _ _ _ Hgates) as Hout.
  destruct Hgates as (Howner & w1 & rl & w2 & sr & w3 & Hcd & Hrl & Hal & Hsp & Hns & Hargs).
  unfold afterPermission.
  unfold bind at 1. unfold gets at 1. rewrite Howner.
  rewrite (bind_ok _ _ _ _ _ Hcd), (bind_ok _ _ _ _ _ Hrl), Hal. cbn [negb].
  rewrite (bind_ok _ _ _ _ _ Hsp), Hns, (bind_ok _ _ _ _ _ Hargs). cbn [negb].
  unfold execute, bumpUsed, unawaited, cache_set, cache_call, bind, emit, logger, modify,
    date_now, gets, throw, ret.
  destruct (cmd_typing command); destruct (cmd_throws command) as [[msg|]|]; cbn.
  all: try (eexists _, _; split; [reflexivity|]; cbn;
            rewrite ?List.filter_app, Hout; cbn; rewrite ?app_nil_r;
            split; [reflexivity|split; [congruence|congruence]]).
  all: destruct (w_stats w4 !! cmd_name command) as [[used errors]|]; cbn.
  all: try (eexists _, _; split; [reflexivity|]; cbn;
            rewrite ?List.filter_app, Hout; cbn; rewrite ?app_nil_r;
            split; [reflexivity|split; [congruence|congruence]]).
  all: destruct (isGroupChat message); cbn.
  all: destruct (5000 <? _); cbn.
  all: destruct (w_faults w4) as [|[] fs]; cbn.
  all: eexists _, _; (split; [reflexivity|]); cbn;
       rewrite ?List.filter_app, Hout; cbn; rewrite ?app_nil_r;
       (split; [reflexivity|split; [congruence|congruence]]).
Qed.

Lemma afterPermission_true spam rx reg command message commandName nargs w b w' :
  afterPermission spam rx reg command message commandName nargs w = (Ok b, w') ->
  b = true.
Proof.
  unfold afterPermission. intros H.
  apply bind_inv_ok in H as (cfg & w1 & _ & H).
  destruct (_ && _ && _).
  { apply bind_inv_ok in H as (? & ? & _ & H). now injection H. }
  apply bind_inv_ok in H as (cooldownCheck & w2 & _ & H).
  destruct cooldownCheck.
  { apply bind_inv_ok in H as (? & ? & _ & H). now injection H. }
  apply bind_inv_ok in H as (rateLimitCheck & w3 & _ & H).
  destruct (negb _).
  { apply bind_inv_ok in H as (? & ? & _ & H). now injection H. }
  apply bind_inv_ok in H as (spamCheck & w4 & _ & H).
  destruct (isSpam _).
  { apply bind_inv_ok in H as (? & ? & _ & H). now injection H. }
  apply bind_inv_ok in H as (argsValid & w5 & _ & H).
  destruct (negb _).
  { now injection H. }
  repeat (apply bind_inv_ok in H as (? & ? & _ & H)).
  now injection H.
Qed.

(** A call that passes every gate invokes the handler of the command, once;
    it returns [true], unless the handler throws [undefined] or [null]:
    then the [catch] block throws in its turn. *)
Lemma handleCommand_runs spam rx reg env message commandName nargs w command user w4 :
  getCommand reg commandName = Some command ->
  getUser env (senderOf message) = Some user ->
  u_isBanned user = false ->
  groupIsBanned env message = false ->
  checkPermissions (w_cfg w) user (groupOf env message)
    (senderIsGroupAdmin env message) (botIsGroupAdmin env message) command = true ->
  gatesPass spam rx reg command message commandName nargs w w4 ->
  exists r w',
    handleCommand spam rx reg env message commandName nargs w = (r, w') /\
    List.filter isExecute (w_out w')
    = List.filter isExecute (w_out w) ++ [Execute commandName (senderOf message)] /\
    r = match cmd_throws command with
        | Some ThrownNullish => Throw TypeError
        | _ => Ok true
        end.
Proof.
  intros Hcmd Huser Hban Hgban Hperm Hgates.
  destruct (afterPermission_runs _ _ _ _ _ _ _ _ _ Hgates) as (r & w' & Hrun & Hexec & Hnull).
  unfold handleCommand, finally, try_catch, dispatch.
  rewrite Hcmd, Huser, Hban, Hgban.
  unfold bind at 1. unfold gets at 1. rewrite Hperm. cbn [negb]. rewrite Hrun.
  destruct r as [b|e].
  - apply afterPermission_true in Hrun. subst b.
    eexists _, _. split; [reflexivity|]. cbn. rewrite List.filter_app, Hexec. cbn.
    rewrite app_nil_r. split; [reflexivity|].
    destruct (cmd_throws command) as [[]|]; try reflexivity.
    exfalso. assert (H : @Ok bool true = Throw Nullish) by now apply Hnull.
    discriminate H.
  - unfold bind, logger, modify, bumpErrors, emit, throw, ret. cbn.
    destruct (w_stats w' !! commandName) as [[used errors]|]; destruct e; cbn.
    all: eexists _, _; (split; [reflexivity|]); cbn;
         rewrite ?List.filter_app, Hexec; cbn; rewrite ?app_nil_r;
         (split; [reflexivity|]).
    all: destruct (cmd_throws command) as [[]|] eqn:Hthrows; try reflexivity.
    all: exfalso; destruct Hnull as [Hn1 Hn2];
         first [ specialize (Hn2 eq_refl); discriminate Hn2
               | specialize (Hn1 eq_refl); discriminate Hn1 ].
Qed.

(** C6, as the code has it. The permission gate has OR semantics: a command
    with a non-empty list of tags passes the gate exactly when the subject
    satisfies one of them.  With [owner, admin], a sender whom the group
    lists as an administrator passes, and when the later gates let the call
    through the handler is invoked, once; a sender who holds neither tag
    gets the access-denied reply, and the handler is not invoked. *)
Theorem permission_or_semantics
    (spam : AntiSpam) (rx : TextMeasures) (reg : Registry) (env : Env)
    (message : Message) (commandName : string) (nargs : Z) (w : World)
    (command : Command) (user : User) (permissions : list string) :
  let sender := senderOf message in
  let isOwner := includes (cfg_ownerNumbers (w_cfg w)) (u_jid user) in
  let isGroupAdmin := senderIsGroupAdmin env message in
  let holds := permissionHolds (w_cfg w) user (groupOf env message)
                 isGroupAdmin (botIsGroupAdmin env message) in
  let passes := checkPermissions (w_cfg w) user (groupOf env message)
                  isGroupAdmin (botIsGroupAdmin env message) command in
  getCommand reg commandName = Some command ->
  getUser env sender = Some user ->
  u_isBanned user = false ->
  groupIsBanned env message = false ->
  cmd_permissions command = Some permissions ->
  permissions <> [] ->
  (passes = true <-> exists tag, In tag permissions /\ holds tag = true) /\
  (permissions = ["owner"; "admin"] -> passes = isOwner || isGroupAdmin) /\
  (permissions = ["owner"; "admin"] -> isGroupChat message = true ->
   listedAsAdmin env message -> passes = true) /\
  (passes = true ->
   forall w4, gatesPass spam rx reg command message commandName nargs w w4 ->
   exists r w',
     handleCommand spam rx reg env message commandName nargs w = (r, w') /\
     List.filter isExecute (w_out w')
     = List.filter isExecute (w_out w) ++ [Execute commandName sender]) /\
  (passes = false ->
   handleCommand spam rx reg env message commandName nargs w =
   (Ok true, add_out (PresenceUpdate "paused" (remoteJid message))
               (add_out (SendMessage (remoteJid message) AccessDenied) w))).
Proof.
  intros sender isOwner isGroupAdmin holds passes Hcmd Huser Hban Hgban Hperm Hne.
  assert (Hpasses : passes = permissionLoop (w_cfg w) user (groupOf env message)
                               isGroupAdmin (botIsGroupAdmin env message) permissions).
  { unfold passes, checkPermissions. rewrite Hperm.
    destruct permissions; [contradiction|reflexivity]. }
  assert (Htwo : permissions = ["owner"; "admin"] -> passes = isOwner || isGroupAdmin).
  { intros ->. rewrite Hpasses. cbn [permissionLoop].
    rewrite permissionHolds_owner, permissionHolds_admin. fold isOwner.
    destruct isOwner, isGroupAdmin; reflexivity. }
  split; [|split; [|split; [|split]]].
  - rewrite Hpasses. apply permissionLoop_exists.
  - exact Htwo.
  - intros Hp Hgroup (p & role & Hfind & Hrole).
    rewrite (Htwo Hp).
    assert (Hadmin : isGroupAdmin = true).
    { unfold isGroupAdmin, senderIsGroupAdmin, isAdminIn. rewrite Hgroup, Hfind, Hrole.
      reflexivity. }
    rewrite Hadmin. apply orb_true_r.
  - intros Hpass w4 Hgates.
    destruct (handleCommand_runs spam rx reg env message commandName nargs w command user w4
                Hcmd Huser Hban Hgban Hpass Hgates) as (r & w' & Hrun & Hexec & _).
    exists r, w'. split; assumption.
  - intros Hdeny.
    unfold handleCommand, finally, try_catch, dispatch.
    fold sender. rewrite Hcmd, Huser, Hban, Hgban.
    unfold bind at 1. unfold gets at 1. fold isGroupAdmin passes. rewrite Hdeny.
    reflexivity.
Qed.

(** [alice], whom [team] lists as an administrator and who is not an owner,
    runs [kick]; [bob], a plain member, is turned away. *)
Lemma permission_or_witness :
  (exists r w',
     at_time 5 (handleCommand antiSpam0 rx0 reg0 env0 (mkMessage team (Some alice) None)
                  "kick" 0) world1 = (r, w') /\
     List.filter isExecute (w_out w') = [Execute "kick" alice]) /\
  at_time 5 (handleCommand antiSpam0 rx0 reg0 env0 (mkMessage team (Some bob) None) "kick" 0)
    world1
  = (Ok true, add_out (PresenceUpdate "paused" team)
                (add_out (SendMessage team AccessDenied) (set_now 5 world1))).
Proof.
  split.
  - pose proof (permission_or_semantics antiSpam0 rx0 reg0 env0
                  (mkMessage team (Some alice) None) "kick" 0 (set_now 5 world1) kick
                  (mkUser alice false false) ["owner"; "admin"]
                  eq_refl eq_refl eq_refl eq_refl eq_refl ltac:(discriminate))
      as (_ & _ & Hadmin & Hrun & _).
    refine (Hrun (Hadmin eq_refl eq_refl _) _ _).
    + eexists _, _. split; reflexivity.
    + split; [reflexivity|]. repeat eexists; vm_compute; reflexivity.
  - refine (proj2 (proj2 (proj2 (proj2
      (permission_or_semantics antiSpam0 rx0 reg0 env0 (mkMessage team (Some bob) None)
         "kick" 0 (set_now 5 world1) kick (mkUser bob false false) ["owner"; "admin"]
         _ _ _ _ _ _)))) _); try reflexivity.
    discriminate.
Defined.

(** [alice], an administrator of [team] and not an owner, sends [shutdown],
    which asks for [owner] or [admin] and lives in the directory [owner]:
    she passes the permission gate, and gate 3 turns her away. *)
Lemma group_admin_is_stopped_at_the_owner_gate :
  cmd_permissions shutdown = Some ["owner"; "admin"] /\
  senderIsGroupAdmin env0 aliceInTeam = true /\
  checkPermissions cfg0 (mkUser alice false false) (groupOf env0 aliceInTeam)
    (senderIsGroupAdmin env0 aliceInTeam) (botIsGroupAdmin env0 aliceInTeam) shutdown
  = true /\
  (handleCommand antiSpam0 rx0 reg1 env0 aliceInTeam "shutdown" 0 world2).1 = Ok true /\
  w_out (handleCommand antiSpam0 rx0 reg1 env0 aliceInTeam "shutdown" 0 world2).2
  = [SendMessage team OwnerCommand; PresenceUpdate "paused" team].
Proof. vm_compute. repeat split. Qed.

(** C3 (defect). Gate 5 calls [checkLimit(sender, commandName)]: the bucket
    is named after the command and, for a name that is not a category, gets
    the limit of [messages] (20 per minute).  After one [ping] the slot
    [ratelimit_ping_<sender>] is written and [ratelimit_commands_<sender>] is
    not; eleven [ping]s within a minute are all executed, where the
    [commands] bucket (10 per minute) rejects the eleventh. *)
Theorem dispatcher_rate_limit_bucket_is_command_name :
  (let w := (at_time 5 (handleCommand antiSpam0 rx0 reg0 env0
                          (mkMessage alice None None) "ping" 0) world1).2 in
   w_cache w !! ratelimit_key "ping" alice = Some (mkCacheEntry (VTimes [5]) 60005) /\
   w_cache w !! ratelimit_key "commands" alice = None) /\
  limitFor "ping" None = Some (mkLimit 20 60000) /\
  (let '(rs, w) := run_seq pingsOfAlice world1 in
   rs = repeat (Ok true) 11 /\
   length (List.filter isExecute (w_out w)) = 11%nat) /\
  (let '(rs, _) := run_seq (checkLimitAt alice "commands" None pingTimes) (world0 cfg0) in
   map (fun r => match r with Ok res => allowed res | Throw _ => true end) rs
   = repeat true 10 ++ [false]).
Proof. vm_compute. repeat split. Qed.

(** ** Message queue: pausing *)

(** [processQueue] never reads [this.delays]. *)
Lemma processQueue_ignores_delays f queueName now s :
  processQueue queueName now (upd_delays f s)
  = upd_delays f (processQueue queueName now s).
Proof.
  unfold processQueue.
  change (toDispatch queueName now (upd_delays f s)) with (toDispatch queueName now s).
  generalize (toDispatch queueName now s). intros l. revert s.
  induction l as [|r l IH]; intros s; [reflexivity|].
  cbn [fold_left]. rewrite <- IH. reflexivity.
Qed.

(** C7 (defect). [pauseQueue] records the pause in [this.delays] and
    [getQueueStatus] reports it, but [processQueue] does not look at it: a
    message enqueued on a paused queue and due at once is dispatched by the
    drain that [addMessage] triggers. *)
Theorem paused_queue_still_dispatches :
  qs_paused (getQueueStatus "q" pausedThenEnqueued) = true /\
  mq_events pausedThenEnqueued
  = [Paused "q"; Queued "q" "m1" 1; Processing "q" "m1" 1; ExecuteHook "q" "hello" 0] /\
  mq_awaiting pausedThenEnqueued = [("q", 0%nat)] /\
  qs_processing (getQueueStatus "q" pausedThenEnqueued) = 1%nat.
Proof. vm_compute. repeat split. Qed.

(** ** Message queue: bounded concurrency *)

Lemma processingOf_dispatchOne q s r q' :
  processingOf (dispatchOne q s r) q'
  = if decide (q = q') then {[qm_id (deref (mq_heap s) r)]} ∪ processingOf s q
    else processingOf s q'.
Proof.
  unfold dispatchOne, processMessage, processingOf. cbn.
  destruct (decide (q = q')) as [->|Hne].
  - now rewrite lookup_insert_eq.
  - now rewrite lookup_insert_ne.
Qed.

Lemma dispatch_fold_frame q l : forall s,
  mq_maxConcurrent (fold_left (dispatchOne q) l s) = mq_maxConcurrent s /\
  mq_queues (fold_left (dispatchOne q) l s) = mq_queues s /\
  mq_awaiting (fold_left (dispatchOne q) l s) = mq_awaiting s ++ map (pair q) l /\
  (forall q', q' <> q ->
     processingOf (fold_left (dispatchOne q) l s) q' = processingOf s q') /\
  processingOf s q ⊆ processingOf (fold_left (dispatchOne q) l s) q /\
  (size (processingOf (fold_left (dispatchOne q) l s) q)
   <= size (processingOf s q) + length l)%nat.
Proof.
  induction l as [|r l IH]; intros s; cbn [fold_left].
  - rewrite app_nil_r. repeat split; auto. lia.
  - destruct (IH (dispatchOne q s r)) as (Hmc & Hq & Haw & Hother & Hsub & Hsize).
    pose proof (processingOf_dispatchOne q s r q) as Hq1.
    rewrite decide_True in Hq1 by reflexivity.
    split; [exact Hmc|]. split; [exact Hq|].
    split.
    { rewrite Haw. cbn. rewrite <- app_assoc. reflexivity. }
    split.
    { intros q' Hne. rewrite Hother by exact Hne.
      rewrite processingOf_dispatchOne. now rewrite decide_False by congruence. }
    split.
    { etrans; [|exact Hsub]. rewrite Hq1. apply union_subseteq_r. }
    rewrite Hq1 in Hsize. cbn [length].
    pose proof (size_union_alt {[qm_id (deref (mq_heap s) r)]} (processingOf s q)) as Hu.
    assert (Hd : (size (processingOf s q ∖ {[qm_id (deref (mq_heap s) r)]})
                  <= size (processingOf s q))%nat).
    { apply subseteq_size, subseteq_difference_l. reflexivity. }
    rewrite size_singleton in Hu. lia.
Qed.

(** [processQueue] starts at most as many executions as there is room for. *)
Lemma toDispatch_bound q now s :
  (size (processingOf s q) <= mq_maxConcurrent s ->
   length (toDispatch q now s) + size (processingOf s q) <= mq_maxConcurrent s)%nat.
Proof.
  intros Hinv. unfold toDispatch.
  destruct (mq_queues s !! q) as [queue|]; [|cbn; lia].
  destruct (Nat.leb_spec (mq_maxConcurrent s) (size (processingOf s q))); [cbn; lia|].
  rewrite length_take. lia.
Qed.

Lemma toDispatch_no_queue q now s : mq_queues s !! q = None -> toDispatch q now s = [].
Proof. unfold toDispatch. now intros ->. Qed.

Lemma concurrencyInv_processQueue q now s :
  concurrencyInv s -> concurrencyInv (processQueue q now s).
Proof.
  intros [Hsize Hnone]. unfold processQueue.
  destruct (dispatch_fold_frame q (toDispatch q now s) s)
    as (Hmc & Hq & _ & Hother & _ & Hbound).
  split.
  - intros q'. rewrite Hmc. destruct (decide (q' = q)) as [->|Hne].
    + pose proof (toDispatch_bound q now s (Hsize q)). lia.
    + rewrite Hother by exact Hne. apply Hsize.
  - intros q'. rewrite Hq. intros Hq'. destruct (decide (q' = q)) as [->|Hne].
    + rewrite (toDispatch_no_queue q now s Hq'). cbn. now apply Hnone.
    + rewrite Hother by exact Hne. now apply Hnone.
Qed.

(** Setting the in-flight set of one queue to a subset of what it was, or to
    the empty set, keeps the bound. *)
Lemma concurrencyInv_shrink q (X : gset string) s s' :
  concurrencyInv s ->
  mq_maxConcurrent s' = mq_maxConcurrent s ->
  mq_processing s' = <[q := X]> (mq_processing s) ->
  X ⊆ processingOf s q ->
  (forall q', q' <> q -> mq_queues s' !! q' = None -> mq_queues s !! q' = None) ->
  (mq_queues s' !! q = None -> X = ∅) ->
  concurrencyInv s'.
Proof.
  intros [Hsize Hnone] Hmc Hp Hsub Hq Hqq. split.
  - intros q'. rewrite Hmc. unfold processingOf. rewrite Hp.
    destruct (decide (q = q')) as [->|Hne].
    + rewrite lookup_insert_eq. cbn. etrans; [apply subseteq_size, Hsub|apply Hsize].
    + rewrite lookup_insert_ne by exact Hne. apply Hsize.
  - intros q' Hq'. unfold processingOf. rewrite Hp.
    destruct (decide (q = q')) as [->|Hne].
    + rewrite lookup_insert_eq. cbn. now apply Hqq.
    + rewrite lookup_insert_ne by exact Hne. apply Hnone, Hq; [congruence|exact Hq'].
Qed.

Lemma concurrencyInv_frame s s' :
  concurrencyInv s ->
  mq_maxConcurrent s' = mq_maxConcurrent s ->
  mq_processing s' = mq_processing s ->
  (forall q, mq_queues s' !! q = None -> mq_queues s !! q = None) ->
  concurrencyInv s'.
Proof.
  intros [Hsize Hnone] Hmc Hp Hq. split.
  - intros q. rewrite Hmc. unfold processingOf. rewrite Hp. apply Hsize.
  - intros q Hq'. unfold processingOf. rewrite Hp. apply Hnone, Hq, Hq'.
Qed.

Lemma concurrencyInv_handleSuccess q r now s :
  concurrencyInv s -> concurrencyInv (handleSuccess q r now s).
Proof.
  intros Hinv. unfold handleSuccess.
  eapply (concurrencyInv_shrink q _ s); [exact Hinv|reflexivity|reflexivity| | |].
  - apply subseteq_difference_l. reflexivity.
  - cbn. intros q' Hne. now rewrite lookup_insert_ne by congruence.
  - cbn. rewrite lookup_insert_eq. discriminate.
Qed.

Lemma concurrencyInv_handleFailure q r now s :
  concurrencyInv s -> concurrencyInv (handleFailure q r now s).
Proof.
  intros Hinv. unfold handleFailure.
  destruct (qm_attempts (deref (mq_heap s) r) <? qm_maxRetries (deref (mq_heap s) r)).
  - eapply (concurrencyInv_shrink q _ s); [exact Hinv|reflexivity|reflexivity| | |].
    + apply subseteq_difference_l. reflexivity.
    + cbn. intros q' Hne. now rewrite lookup_insert_ne by congruence.
    + cbn. rewrite lookup_insert_eq. discriminate.
  - eapply (concurrencyInv_shrink q _ s); [exact Hinv|reflexivity|reflexivity| | |].
    + apply subseteq_difference_l. reflexivity.
    + cbn. intros q' Hne. now rewrite lookup_insert_ne by congruence.
    + cbn. rewrite lookup_insert_eq. discriminate.
Qed.

Lemma concurrencyInv_callback q r error now s :
  concurrencyInv s -> concurrencyInv (callback q r error now s).
Proof.
  intros Hinv. unfold callback. destruct (bool_decide _); [|exact Hinv].
  assert (Hinv' : concurrencyInv (upd_awaiting (removeFirst (q, r)) s)).
  { eapply concurrencyInv_frame; [exact Hinv|reflexivity|reflexivity|auto]. }
  destruct error.
  - now apply concurrencyInv_handleFailure.
  - now apply concurrencyInv_handleSuccess.
Qed.

Lemma concurrencyInv_addMessage q data options gen now s :
  concurrencyInv s -> concurrencyInv (addMessage q data options gen now s).
Proof.
  intros Hinv. unfold addMessage. apply concurrencyInv_processQueue.
  destruct (mq_queues s !! q) as [queue|] eqn:Hq.
  - eapply concurrencyInv_frame; [exact Hinv|reflexivity|reflexivity|].
    cbn. intros q'. rewrite !lookup_insert_None. tauto.
  - eapply (concurrencyInv_shrink q ∅ s); [exact Hinv|reflexivity|reflexivity| | |].
    + apply empty_subseteq.
    + cbn. intros q' Hne. rewrite !lookup_insert_None. tauto.
    + reflexivity.
Qed.

Lemma concurrencyInv_restoreQueue q now s :
  concurrencyInv s -> concurrencyInv (restoreQueue q now s).
Proof.
  intros Hinv. unfold restoreQueue.
  destruct (savedQueueOf s q now) as [[]|]; [| |exact Hinv].
  all: apply concurrencyInv_processQueue.
  all: eapply (concurrencyInv_shrink q ∅ s); [exact Hinv|reflexivity|reflexivity| | |].
  all: try apply empty_subseteq; try reflexivity.
  all: cbn; intros q' Hne; now rewrite lookup_insert_ne by congruence.
Qed.

Lemma concurrencyInv_step s op : concurrencyInv s -> concurrencyInv (step s op).
Proof.
  intros Hinv. destruct op as [now []]; cbn [step].
  - now apply concurrencyInv_addMessage.
  - now apply concurrencyInv_processQueue.
  - now apply concurrencyInv_callback.
  - unfold removeMessage. destruct (mq_queues s !! queueName) eqn:Hq; [|exact Hinv].
    destruct (hasId _ _ _); [|exact Hinv].
    eapply concurrencyInv_frame; [exact Hinv|reflexivity|reflexivity|].
    cbn. intros q'. rewrite lookup_insert_None. tauto.
  - unfold clearQueue. destruct (mq_queues s !! queueName) eqn:Hq; [|exact Hinv].
    eapply concurrencyInv_frame; [exact Hinv|reflexivity|reflexivity|].
    cbn. intros q'. rewrite lookup_insert_None. tauto.
  - eapply concurrencyInv_frame; [exact Hinv|reflexivity|reflexivity|auto].
  - unfold resumeQueue. apply concurrencyInv_processQueue.
    eapply concurrencyInv_frame; [exact Hinv|reflexivity|reflexivity|auto].
  - eapply concurrencyInv_frame; [exact Hinv|reflexivity|reflexivity|auto].
  - now apply concurrencyInv_restoreQueue.
Qed.

Lemma maxConcurrent_processQueue q now s :
  mq_maxConcurrent (processQueue q now s) = mq_maxConcurrent s.
Proof. unfold processQueue. apply dispatch_fold_frame. Qed.

Lemma maxConcurrent_step s op : mq_maxConcurrent (step s op) = mq_maxConcurrent s.
Proof.
  destruct op as [now []]; cbn [step].
  - unfold addMessage. rewrite maxConcurrent_processQueue.
    destruct (mq_queues s !! queueName); reflexivity.
  - apply maxConcurrent_processQueue.
  - unfold callback. destruct (bool_decide _); [|reflexivity].
    destruct error; [unfold handleFailure|reflexivity].
    cbn. destruct (_ <? _); reflexivity.
  - unfold removeMessage. destruct (mq_queues s !! queueName); [|reflexivity].
    destruct (hasId _ _ _); reflexivity.
  - unfold clearQueue. destruct (mq_queues s !! queueName); reflexivity.
  - reflexivity.
  - unfold resumeQueue. now rewrite maxConcurrent_processQueue.
  - reflexivity.
  - unfold restoreQueue. destruct (savedQueueOf s queueName now) as [[]|]; [| |reflexivity].
    all: now rewrite maxConcurrent_processQueue.
Qed.

Lemma run_snoc trace op s : run (trace ++ [op]) s = step (run trace s) op.
Proof. unfold run. now rewrite fold_left_app. Qed.

(** An invariant of [step] that holds for a new queue holds in every
    reachable state. *)
Lemma reachable_ind (P : MQ -> Prop) :
  P mq_new -> (forall s op, P s -> P (step s op)) -> forall s, reachable s -> P s.
Proof.
  intros H0 Hstep s [trace ->].
  induction trace as [|op trace IH] using rev_ind; [exact H0|].
  rewrite run_snoc. apply Hstep, IH.
Qed.

Lemma reachable_concurrency s :
  reachable s -> mq_maxConcurrent s = 5%nat /\ concurrencyInv s.
Proof.
  apply (reachable_ind (fun s => mq_maxConcurrent s = 5%nat /\ concurrencyInv s)).
  - split; [reflexivity|]. split; intros q; cbn.
    + unfold processingOf. cbn. rewrite lookup_empty. cbn. rewrite size_empty. lia.
    + intros _. unfold processingOf. cbn. now rewrite lookup_empty.
  - intros s0 op [Hmc Hinv]. split.
    + now rewrite maxConcurrent_step.
    + now apply concurrencyInv_step.
Qed.

Lemma processQueue_mono q0 now s q :
  processingOf s q ⊆ processingOf (processQueue q0 now s) q.
Proof.
  unfold processQueue.
  destruct (dispatch_fold_frame q0 (toDispatch q0 now s) s)
    as (_ & _ & _ & Hother & Hsub & _).
  destruct (decide (q = q0)) as [->|Hne]; [exact Hsub|].
  now rewrite Hother.
Qed.

Lemma processingOf_insert_ne q0 q X s s' :
  mq_processing s' = <[q0 := X]> (mq_processing s) -> q <> q0 ->
  processingOf s' q = processingOf s q.
Proof. intros Hp Hne. unfold processingOf. rewrite Hp. now rewrite lookup_insert_ne. Qed.

(** Every operation other than a callback or a restore of the same queue
    keeps what is in flight in flight. *)
Lemma step_in_flight_mono s now op q id :
  concurrencyInv s ->
  match op with
  | OpCallback q' _ _ | OpRestoreQueue q' => q' <> q
  | _ => True
  end ->
  id ∈ processingOf s q -> id ∈ processingOf (step s (now, op)) q.
Proof.
  intros [_ Hnone] Hop Hin. destruct op; cbn [step].
  - unfold addMessage. apply processQueue_mono.
    destruct (mq_queues s !! queueName) eqn:Hq; [exact Hin|].
    destruct (decide (q = queueName)) as [->|Hne].
    + rewrite (Hnone _ Hq) in Hin. now apply not_elem_of_empty in Hin.
    + erewrite processingOf_insert_ne; [exact Hin|reflexivity|exact Hne].
  - now apply processQueue_mono.
  - assert (Hne : q <> queueName) by congruence.
    unfold callback. destruct (bool_decide _); [|exact Hin].
    destruct error.
    + unfold handleFailure. destruct (_ <? _);
        (erewrite processingOf_insert_ne; [exact Hin|reflexivity|exact Hne]).
    + unfold handleSuccess.
      erewrite processingOf_insert_ne; [exact Hin|reflexivity|exact Hne].
  - unfold removeMessage.
    destruct (mq_queues s !! queueName); [|exact Hin].
    destruct (hasId _ _ _); exact Hin.
  - unfold clearQueue.
    destruct (mq_queues s !! queueName); exact Hin.
  - exact Hin.
  - unfold resumeQueue. apply processQueue_mono. exact Hin.
  - exact Hin.
  - assert (Hne : q <> queueName) by congruence.
    unfold restoreQueue.
    destruct (savedQueueOf s queueName now) as [[]|]; [| |exact Hin].
    all: apply processQueue_mono.
    all: erewrite processingOf_insert_ne; [exact Hin|reflexivity|exact Hne].
Qed.

(** Only the resumption of [processMessage] after the callback and
    [restoreQueue] take an id out of an in-flight set. *)
Lemma step_keeps_in_flight s now op q id :
  concurrencyInv s ->
  id ∈ processingOf s q -> id ∉ processingOf (step s (now, op)) q ->
  (exists r error, op = OpCallback q r error) \/ op = OpRestoreQueue q.
Proof.
  intros Hinv Hin Hout.
  assert (Hmono := step_in_flight_mono s now op q id Hinv).
  destruct op as [| |q' r error| | | | | |q'];
    try (exfalso; apply Hout, Hmono; [exact I|exact Hin]).
  - destruct (decide (q' = q)) as [->|Hne]; [left; eauto|].
    exfalso. apply Hout, Hmono; [exact Hne|exact Hin].
  - destruct (decide (q' = q)) as [->|Hne]; [now right|].
    exfalso. apply Hout, Hmono; [exact Hne|exact Hin].
Qed.

(** C9, as the code has it. In every reachable state no queue has more than
    [maxConcurrent] (5) messages in flight; a drain starts at most
    [maxConcurrent] minus the in-flight count executions; and an id leaves an
    in-flight set only when [processMessage] resumes after the callback
    ([handleSuccess], [handleFailure]) or when [restoreQueue] replaces the set
    by an empty one. *)
Theorem bounded_concurrency (s : MQ) :
  reachable s ->
  mq_maxConcurrent s = 5%nat /\
  (forall q, (size (processingOf s q) <= mq_maxConcurrent s)%nat) /\
  (forall q now,
     (length (toDispatch q now s) + size (processingOf s q) <= mq_maxConcurrent s)%nat /\
     mq_awaiting (processQueue q now s)
     = mq_awaiting s ++ map (pair q) (toDispatch q now s)) /\
  (forall now op q id,
     id ∈ processingOf s q -> id ∉ processingOf (step s (now, op)) q ->
     (exists r error, op = OpCallback q r error) \/ op = OpRestoreQueue q).
Proof.
  intros Hreach. destruct (reachable_concurrency s Hreach) as [Hmc Hinv].
  split; [exact Hmc|]. split; [apply Hinv|]. split.
  - intros q now. split.
    + apply toDispatch_bound, Hinv.
    + unfold processQueue. apply dispatch_fold_frame.
  - intros now op q id. now apply step_keeps_in_flight.
Qed.

Lemma reachable_run trace : reachable (run trace mq_new).
Proof. exists trace. reflexivity. Qed.

Lemma pausedThenEnqueued_reachable : reachable pausedThenEnqueued.
Proof. unfold pausedThenEnqueued. apply reachable_run. Qed.

Lemma savedThenEnqueued_reachable : reachable savedThenEnqueued.
Proof. unfold savedThenEnqueued. apply reachable_run. Qed.

Lemma bounded_concurrency_witness :
  (size (processingOf pausedThenEnqueued "q") <= mq_maxConcurrent pausedThenEnqueued)%nat.
Proof.
  exact (proj1 (proj2 (bounded_concurrency pausedThenEnqueued
                         pausedThenEnqueued_reachable)) "q").
Defined.

(** [restoreQueue] is neither [handleSuccess] nor [handleFailure], and it
    takes the running message out of the in-flight set of ["q"]. *)
Lemma callbacks_are_not_the_only_decrement :
  ~ (forall s now op q id,
       reachable s ->
       id ∈ processingOf s q -> id ∉ processingOf (step s (now, op)) q ->
       exists r error, op = OpCallback q r error).
Proof.
  intros H.
  destruct (H savedThenEnqueued 0 (OpRestoreQueue "q") "q" "m1") as (r & error & Hop).
  - exact savedThenEnqueued_reachable.
  - apply elem_of_elements.
    assert (E : elements (processingOf savedThenEnqueued "q") = ["m1"])
      by (vm_compute; reflexivity).
    rewrite E. left.
  - rewrite <- elem_of_elements.
    assert (E : elements (processingOf (step savedThenEnqueued (0, OpRestoreQueue "q")) "q")
                = []) by (vm_compute; reflexivity).
    rewrite E. inversion 1.
  - discriminate Hop.
Qed.

(** ** Message queue: retry and backoff *)

Lemma MQ_ext (a b : MQ) :
  mq_heap a = mq_heap b -> mq_queues a = mq_queues b ->
  mq_processing a = mq_processing b -> mq_delays a = mq_delays b ->
  mq_awaiting a = mq_awaiting b -> mq_saved a = mq_saved b ->
  mq_maxRetries a = mq_maxRetries b -> mq_defaultDelay a = mq_defaultDelay b ->
  mq_maxConcurrent a = mq_maxConcurrent b -> mq_stats a = mq_stats b ->
  mq_events a = mq_events b -> a = b.
Proof. destruct a, b; cbn; intros; subst; reflexivity. Qed.

(** Read a field through the updates applied to a state. *)
Ltac mq_proj :=
  cbn [mq_heap mq_queues mq_processing mq_delays mq_awaiting mq_saved
       mq_maxRetries mq_defaultDelay mq_maxConcurrent mq_stats mq_events
       upd_heap upd_queues upd_processing upd_delays upd_awaiting upd_saved
       upd_stats emitQ updMessage sortQueue].

(** The same, resolving what is read of the queue and the in-flight set
    that was just written. *)
Ltac mq_simpl :=
  repeat progress
    (mq_proj; unfold queueOf, processingOf;
     rewrite ?lookup_insert_eq;
     cbn [default from_option id]).

Lemma deref_last (h : list QueueMessage) msg : deref (h ++ [msg]) (length h) = msg.
Proof. unfold deref. rewrite lookup_app_r by lia. now rewrite Nat.sub_diag. Qed.

Lemma heap_update_last (h : list QueueMessage) msg msg' :
  <[length h := msg']> (h ++ [msg]) = h ++ [msg'].
Proof. rewrite insert_app_r_alt by lia. now rewrite Nat.sub_diag. Qed.

(** Reading fields of a [tracked] state. *)
Ltac tracked_proj :=
  cbn [mq_heap mq_queues mq_processing mq_delays mq_awaiting mq_saved
       mq_maxRetries mq_defaultDelay mq_maxConcurrent mq_stats mq_events
       upd_heap upd_queues upd_processing upd_delays upd_awaiting upd_saved
       upd_stats emitQ updMessage sortQueue tracked].

Ltac tracked_simpl :=
  repeat progress
    (tracked_proj; unfold queueOf, processingOf;
     rewrite ?lookup_insert_eq, ?deref_last, ?heap_update_last;
     cbn [default from_option id]).

Lemma removeFirst_last (p : string * nat) l :
  p ∉ l -> removeFirst p (l ++ [p]) = l.
Proof.
  induction l as [|x l IH]; intros Hnin; cbn.
  - now rewrite bool_decide_eq_true_2.
  - rewrite bool_decide_eq_false_2.
    + f_equal. apply IH. intros Hin. apply Hnin. now right.
    + intros ->. apply Hnin. now left.
Qed.

Lemma processingOf_lookup (s : MQ) q X :
  mq_processing s !! q = Some X -> processingOf s q = X.
Proof. unfold processingOf. now intros ->. Qed.

Lemma queueOf_lookup (s : MQ) q l :
  mq_queues s !! q = Some l -> queueOf s q = l.
Proof. unfold queueOf. now intros ->. Qed.

Section Tracked.
Variables (s : MQ) (q : string).
Let r := length (mq_heap s).

Lemma tracked_queue msg queue processing awaiting stats events :
  mq_queues (tracked s q msg queue processing awaiting stats events) !! q = Some queue.
Proof. tracked_proj. apply lookup_insert_eq. Qed.

Lemma tracked_processing msg queue processing awaiting stats events :
  processingOf (tracked s q msg queue processing awaiting stats events) q = processing.
Proof. apply processingOf_lookup. tracked_proj. apply lookup_insert_eq. Qed.

Lemma tracked_deref msg queue processing awaiting stats events :
  deref (mq_heap (tracked s q msg queue processing awaiting stats events)) r = msg.
Proof. tracked_proj. apply deref_last. Qed.

Lemma toDispatch_tracked_idle msg awaiting stats events now :
  (0 < mq_maxConcurrent s)%nat ->
  toDispatch q now (tracked s q msg [r] ∅ awaiting stats events)
  = if qm_scheduledFor msg <=? now then [r] else [].
Proof.
  intros Hmc. unfold toDispatch. rewrite tracked_queue, tracked_processing, size_empty.
  tracked_proj.
  destruct (Nat.leb_spec (mq_maxConcurrent s) 0) as [Hle|_]; [lia|].
  cbn [List.filter]. unfold isReady.
  rewrite tracked_deref, tracked_processing.
  rewrite bool_decide_eq_false_2 by apply not_elem_of_empty.
  rewrite andb_true_r.
  destruct (qm_scheduledFor msg <=? now); [|apply take_nil].
  rewrite Nat.sub_0_r. destruct (mq_maxConcurrent s) as [|n]; [lia|].
  cbn [take]. now rewrite take_nil.
Qed.


Lemma toDispatch_tracked_done msg processing awaiting stats events now :
  toDispatch q now (tracked s q msg [] processing awaiting stats events) = [].
Proof.
  unfold toDispatch. rewrite tracked_queue.
  destruct (_ <=? _)%nat; [reflexivity|]. apply take_nil.
Qed.

(** A drain finds the tracked message due and idle: it is dispatched. *)
Lemma processQueue_tracked_due msg awaiting stats events now :
  (0 < mq_maxConcurrent s)%nat -> qm_scheduledFor msg <= now ->
  processQueue q now (tracked s q msg [r] ∅ awaiting stats events)
  = tracked s q (incAttempts msg) [r] {[qm_id msg]} (awaiting ++ [(q, r)]) stats
      (events ++ [Processing q (qm_id msg) (qm_attempts msg + 1);
                  ExecuteHook q (qm_data msg) r]).
Proof.
  intros Hmc Hdue. unfold processQueue.
  rewrite toDispatch_tracked_idle by exact Hmc.
  destruct (Z.leb_spec (qm_scheduledFor msg) now); [|lia].
  cbn [fold_left]. unfold dispatchOne, processMessage.
  rewrite tracked_deref, tracked_processing.
  apply MQ_ext; tracked_proj; unfold r;
    rewrite ?deref_last, ?heap_update_last, ?deref_last; try reflexivity.
  - now rewrite insert_insert_eq, (right_id_L ∅ (∪)).
  - now rewrite <- !app_assoc.
Qed.


Lemma processQueue_tracked_done msg processing awaiting stats events now :
  processQueue q now (tracked s q msg [] processing awaiting stats events)
  = tracked s q msg [] processing awaiting stats events.
Proof. unfold processQueue. now rewrite toDispatch_tracked_done. Qed.

Lemma awaiting_last (awaiting : list (string * nat)) :
  bool_decide ((q, r) ∈ awaiting ++ [(q, r)]) = true.
Proof. apply bool_decide_eq_true_2, elem_of_app. right. now apply list_elem_of_singleton. Qed.

(** The execution in flight fails and may be retried: the message is
    rescheduled with the backoff and is idle again. *)
Lemma callback_tracked_retry msg awaiting stats events now error :
  (q, r) ∉ awaiting -> qm_attempts msg < qm_maxRetries msg ->
  callback q r (Some error) now
    (tracked s q msg [r] {[qm_id msg]} (awaiting ++ [(q, r)]) stats events)
  = tracked s q
      (setScheduledFor (now + qm_delay msg * 2 ^ (qm_attempts msg - 1)) msg)
      [r] ∅ awaiting (retried stats)
      (events ++ [Retry q (qm_id msg) (qm_attempts msg) (qm_maxRetries msg)
                    (now + qm_delay msg * 2 ^ (qm_attempts msg - 1));
                  SetTimeout q (qm_delay msg); SetImmediate q]).
Proof.
  intros Hnin Hlt. unfold callback.
  replace (mq_awaiting (tracked s q msg [r] {[qm_id msg]} (awaiting ++ [(q, r)]) stats events))
    with (awaiting ++ [(q, r)]) by reflexivity.
  rewrite awaiting_last. unfold handleFailure.
  replace (deref (mq_heap (upd_awaiting (removeFirst (q, r))
             (tracked s q msg [r] {[qm_id msg]} (awaiting ++ [(q, r)]) stats events))) r)
    with msg by (tracked_proj; unfold r; now rewrite deref_last).
  destruct (Z.ltb_spec (qm_attempts msg) (qm_maxRetries msg)); [|lia].
  apply MQ_ext; unfold r; tracked_simpl; try reflexivity.
  - now rewrite insert_insert_eq.
  - rewrite insert_insert_eq. f_equal. apply difference_diag_L.
  - now apply removeFirst_last.
  - now rewrite <- !app_assoc.
Qed.

(** The execution in flight fails for the last time: the message leaves the
    queue and [message:failed] is emitted. *)
Lemma callback_tracked_final msg awaiting stats events now error :
  (q, r) ∉ awaiting -> qm_maxRetries msg <= qm_attempts msg ->
  callback q r (Some error) now
    (tracked s q msg [r] {[qm_id msg]} (awaiting ++ [(q, r)]) stats events)
  = tracked s q msg [] ∅ awaiting (failedOnce stats)
      (events ++ [Failed q (qm_id msg) (qm_attempts msg); SetImmediate q]).
Proof.
  intros Hnin Hge. unfold callback.
  replace (mq_awaiting (tracked s q msg [r] {[qm_id msg]} (awaiting ++ [(q, r)]) stats events))
    with (awaiting ++ [(q, r)]) by reflexivity.
  rewrite awaiting_last. unfold handleFailure.
  replace (deref (mq_heap (upd_awaiting (removeFirst (q, r))
             (tracked s q msg [r] {[qm_id msg]} (awaiting ++ [(q, r)]) stats events))) r)
    with msg by (tracked_proj; unfold r; now rewrite deref_last).
  destruct (Z.ltb_spec (qm_attempts msg) (qm_maxRetries msg)); [lia|].
  apply MQ_ext; unfold r; tracked_simpl; cbn [spliceById]; tracked_simpl; try reflexivity.
  - rewrite bool_decide_eq_true_2 by reflexivity. now rewrite insert_insert_eq.
  - rewrite insert_insert_eq. f_equal. apply difference_diag_L.
  - now apply removeFirst_last.
  - now rewrite <- !app_assoc.
Qed.


(** [addMessage] on a queue that does not exist yet: the message is stored
    as the only entry, then the queue is drained. *)
Lemma addMessage_fresh data options gen t0 :
  mq_queues s !! q = None ->
  addMessage q data options gen t0 s
  = processQueue q t0
      (tracked s q
         (mkQueueMessage (default gen (o_id options)) data
            (default 0 (o_priority options))
            (default (mq_defaultDelay s) (o_delay options))
            (default (mq_maxRetries s) (o_maxRetries options)) 0 t0
            (t0 + default (mq_defaultDelay s) (o_delay options)))
         [r] ∅ (mq_awaiting s)
         (mkQStats (S (st_queued (mq_stats s))) (st_processed (mq_stats s))
                   (st_failed (mq_stats s)) (st_retried (mq_stats s)))
         (mq_events s ++ [Queued q (default gen (o_id options)) 1])).
Proof.
  intros Hq. unfold addMessage. rewrite Hq. f_equal.
  apply MQ_ext; unfold r; tracked_simpl; cbn [app jsSort foldr sortInsert length];
    try reflexivity.
  now rewrite !insert_insert_eq.
Qed.

Variable took : Z.

Lemma backoffDelay_next delay attempt :
  1 <= attempt -> backoffDelay delay (attempt + 1) = delay * 2 ^ (attempt - 1).
Proof.
  intros H. unfold backoffDelay.
  destruct (Z.leb_spec (attempt + 1) 1); [lia|]. do 2 f_equal. lia.
Qed.

(** One round on the idle message: it is dispatched and fails. *)
Lemma failingRound_idle msg awaiting stats events :
  (0 < mq_maxConcurrent s)%nat -> (q, r) ∉ awaiting -> 0 <= qm_attempts msg ->
  let attempt := qm_attempts msg + 1 in
  let next := qm_scheduledFor msg + took + backoffDelay (qm_delay msg) (attempt + 1) in
  failingRound q r took (tracked s q msg [r] ∅ awaiting stats events)
  = if attempt <? qm_maxRetries msg then
      tracked s q (setScheduledFor next (incAttempts msg)) [r] ∅ awaiting (retried stats)
        (events ++ [Processing q (qm_id msg) attempt; ExecuteHook q (qm_data msg) r;
                    Retry q (qm_id msg) attempt (qm_maxRetries msg) next;
                    SetTimeout q (qm_delay msg); SetImmediate q])
    else
      tracked s q (incAttempts msg) [] ∅ awaiting (failedOnce stats)
        (events ++ [Processing q (qm_id msg) attempt; ExecuteHook q (qm_data msg) r;
                    Failed q (qm_id msg) attempt; SetImmediate q]).
Proof.
  intros Hmc Hnin Hatt attempt next. subst attempt next. unfold failingRound.
  rewrite tracked_deref.
  rewrite processQueue_tracked_due by (assumption || lia).
  rewrite backoffDelay_next by lia.
  replace (qm_attempts msg + 1 - 1) with (qm_attempts (incAttempts msg) - 1)
    by (cbn; lia).
  destruct (Z.ltb_spec (qm_attempts msg + 1) (qm_maxRetries msg)) as [Hlt|Hge].
  - pose proof (callback_tracked_retry (incAttempts msg) awaiting stats
                  (events ++ [Processing q (qm_id msg) (qm_attempts msg + 1);
                              ExecuteHook q (qm_data msg) r])
                  (qm_scheduledFor msg + took) "boom" Hnin Hlt) as H.
    cbn [incAttempts qm_id qm_maxRetries qm_delay] in H.
    rewrite H, <- app_assoc. reflexivity.
  - pose proof (callback_tracked_final (incAttempts msg) awaiting stats
                  (events ++ [Processing q (qm_id msg) (qm_attempts msg + 1);
                              ExecuteHook q (qm_data msg) r])
                  (qm_scheduledFor msg + took) "boom" Hnin Hge) as H.
    cbn [incAttempts qm_id qm_maxRetries qm_delay] in H.
    rewrite H, <- app_assoc. reflexivity.
Qed.



End Tracked.

(** *** The trace of a message that always fails *)

Lemma attemptsMade_cons q id e events :
  attemptsMade q id (e :: events)
  = ((if isAttemptOf q id e then 1 else 0) + attemptsMade q id events)%nat.
Proof. unfold attemptsMade. cbn. now destruct (isAttemptOf q id e). Qed.

Lemma failuresReported_cons q id e events :
  failuresReported q id (e :: events)
  = ((if isFailedOf q id e then 1 else 0) + failuresReported q id events)%nat.
Proof. unfold failuresReported. cbn. now destruct (isFailedOf q id e). Qed.

Lemma isAttemptOf_processing q id k : isAttemptOf q id (Processing q id k) = true.
Proof. cbn. now rewrite !bool_decide_eq_true_2. Qed.







(** The attempts are bounded for a message whose id no other message of
    the queue has: [handleFailure] takes the first message with the id of
    the failed one out of the queue.  Here that is ["second"], which was
    never attempted; ["first"] stays, is attempted a second time with
    [maxRetries: 1], and [message:failed] is emitted twice. *)
Lemma same_id_is_attempted_again :
  dispatchedRefs (mq_events sameIdRun) = [0%nat; 0%nat] /\
  qm_maxRetries (deref (mq_heap sameIdRun) 0) = 1 /\
  qm_attempts (deref (mq_heap sameIdRun) 0) = 2 /\
  qm_attempts (deref (mq_heap sameIdRun) 1) = 0 /\
  failuresReported "q" "m" (mq_events sameIdRun) = 2%nat /\
  queueOf sameIdRun "q" = [].
Proof. vm_compute. repeat split. Qed.

(** ** Message queue: ordering *)

Lemma compareMessages_le_trans a b c :
  messageLe a b -> messageLe b c -> messageLe a c.
Proof.
  unfold messageLe, compareMessages.
  repeat (case_bool_decide); lia.
Qed.

Lemma compareMessages_refl a : messageLe a a.
Proof. unfold messageLe, compareMessages. case_bool_decide; lia. Qed.

Lemma compareMessages_flip a b : ~ compareMessages a b <= 0 -> messageLe b a.
Proof. unfold messageLe, compareMessages. repeat case_bool_decide; lia. Qed.

Lemma compareMessages_higher_priority a b :
  qm_priority b < qm_priority a -> ~ messageLe b a.
Proof. unfold messageLe, compareMessages. case_bool_decide; lia. Qed.

Section SortFacts.
Context {A : Type}.
Variable cmp : A -> A -> Z.
Let le (x y : A) : Prop := cmp x y <= 0.
Hypothesis le_trans : forall x y z, le x y -> le y z -> le x z.
Hypothesis le_flip : forall x y, ~ cmp x y <= 0 -> le y x.

Lemma sortInsert_In x l z : In z (sortInsert cmp x l) <-> z = x \/ In z l.
Proof.
  induction l as [|y l IH]; cbn.
  - intuition.
  - destruct (cmp x y <=? 0); cbn; [intuition|]. rewrite IH. intuition.
Qed.

Lemma sortInsert_sorted x l :
  StronglySorted le l -> StronglySorted le (sortInsert cmp x l).
Proof.
  induction 1 as [|y l Hs IH Hy]; cbn.
  - repeat constructor.
  - destruct (Z.leb_spec (cmp x y) 0) as [Hle|Hgt].
    + constructor; [constructor; assumption|].
      constructor; [exact Hle|].
      eapply Forall_impl; [exact Hy|]. intros z Hz. eapply le_trans; eassumption.
    + constructor; [exact IH|].
      apply List.Forall_forall. intros z Hz. apply sortInsert_In in Hz as [->|Hz].
      * apply le_flip. lia.
      * rewrite List.Forall_forall in Hy. now apply Hy.
Qed.

Lemma jsSort_In l z : In z (jsSort cmp l) <-> In z l.
Proof.
  induction l as [|x l IH]; cbn; [tauto|].
  rewrite sortInsert_In, IH. intuition.
Qed.

Lemma jsSort_sorted l : StronglySorted le (jsSort cmp l).
Proof.
  induction l as [|x l IH]; cbn; [constructor|]. now apply sortInsert_sorted.
Qed.
End SortFacts.

Lemma StronglySorted_ext_in {A} (R R' : A -> A -> Prop) l :
  (forall x y, In x l -> In y l -> R x y -> R' x y) ->
  StronglySorted R l -> StronglySorted R' l.
Proof.
  intros Hext Hs. induction Hs as [|x l Hs IH Hx]; [constructor|].
  constructor.
  - apply IH. intros y z Hy Hz. apply Hext; now right.
  - apply List.Forall_forall. intros y Hy. rewrite List.Forall_forall in Hx.
    apply Hext; [now left|now right|now apply Hx].
Qed.

Lemma StronglySorted_map {A B} (f : A -> B) (R : B -> B -> Prop) l :
  StronglySorted (fun x y => R (f x) (f y)) l <-> StronglySorted R (map f l).
Proof.
  induction l as [|x l IH]; cbn.
  - split; constructor.
  - split; intros H; inversion H as [|? ? Hs Hx]; subst; constructor.
    + now apply IH.
    + rewrite List.Forall_map. exact Hx.
    + now apply IH.
    + rewrite List.Forall_map in Hx. exact Hx.
Qed.

Lemma StronglySorted_filter {A} (R : A -> A -> Prop) (f : A -> bool) l :
  StronglySorted R l -> StronglySorted R (List.filter f l).
Proof.
  induction 1 as [|x l Hs IH Hx]; cbn; [constructor|].
  destruct (f x); [|exact IH]. constructor; [exact IH|].
  apply List.Forall_forall. intros y Hy. apply filter_In in Hy as [Hy _].
  rewrite List.Forall_forall in Hx. now apply Hx.
Qed.

Lemma spliceById_In h id queue r : In r (spliceById h id queue) -> In r queue.
Proof.
  induction queue as [|x queue IH]; cbn; [tauto|].
  destruct (bool_decide _); cbn; intuition.
Qed.

Lemma spliceById_sorted (R : nat -> nat -> Prop) h id queue :
  StronglySorted R queue -> StronglySorted R (spliceById h id queue).
Proof.
  induction 1 as [|x l Hs IH Hx]; cbn; [constructor|].
  destruct (bool_decide _); [exact Hs|]. constructor; [exact IH|].
  apply List.Forall_forall. intros y Hy. apply spliceById_In in Hy.
  rewrite List.Forall_forall in Hx. now apply Hx.
Qed.

(** In a sorted list, what is dispatched of a strictly lower entry comes
    after the strictly higher one. *)
Lemma sorted_take_precedes {A} (R : A -> A -> Prop) (a b : A) l : forall k,
  StronglySorted R l -> R a a -> In a l -> ~ R b a ->
  In b (take k l) -> precedes a b (take k l).
Proof.
  induction l as [|x l IH]; intros k Hs Hrefl Ha Hnot Hb.
  - destruct Ha.
  - destruct k as [|k]; [destruct Hb|]. cbn [take] in *.
    inversion Hs as [|? ? Hs' Hx]; subst.
    destruct Ha as [->|Ha].
    + destruct Hb as [->|Hb]; [contradiction|].
      apply in_split in Hb as (l2 & l3 & ->). exists [], l2, l3. reflexivity.
    + destruct Hb as [->|Hb].
      * rewrite List.Forall_forall in Hx. exfalso. apply Hnot, Hx, Ha.
      * destruct (IH k Hs' Hrefl Ha Hnot Hb) as (l1 & l2 & l3 & Heq).
        exists (x :: l1), l2, l3. cbn. now rewrite Heq.
Qed.

(** *** The object store *)

Lemma deref_insert_ne (h : list QueueMessage) r r' x :
  r' <> r -> deref (<[r := x]> h) r' = deref h r'.
Proof. intros Hne. unfold deref. now rewrite list_lookup_insert_ne. Qed.

Lemma deref_insert_eq (h : list QueueMessage) r x :
  (r < length h)%nat -> deref (<[r := x]> h) r = x.
Proof. intros Hlt. unfold deref. now rewrite list_lookup_insert_eq. Qed.

Lemma deref_app_l (h l : list QueueMessage) r :
  (r < length h)%nat -> deref (h ++ l) r = deref h r.
Proof. intros Hlt. unfold deref. now rewrite lookup_app_l. Qed.

Lemma deref_app_r (h l : list QueueMessage) i :
  deref (h ++ l) (length h + i) = default dummyMessage (l !! i).
Proof.
  unfold deref. rewrite lookup_app_r by lia. do 2 f_equal. lia.
Qed.

Lemma sameKey_refl m : sameKey m m.
Proof. split; reflexivity. Qed.

Lemma messageLe_sameKey a a' b b' :
  sameKey a' a -> sameKey b' b -> messageLe a b -> messageLe a' b'.
Proof.
  unfold sameKey, messageLe, compareMessages. intros [-> ->] [-> ->]. trivial.
Qed.

Lemma incAttempts_sameKey (h : list QueueMessage) r r' :
  sameKey (deref (<[r := incAttempts (deref h r)]> h) r') (deref h r').
Proof.
  destruct (decide (r' = r)) as [->|Hne].
  - destruct (Nat.lt_ge_cases r (length h)) as [Hlt|Hge].
    + rewrite deref_insert_eq by exact Hlt. split; reflexivity.
    + rewrite list_insert_ge by exact Hge. apply sameKey_refl.
  - rewrite deref_insert_ne by exact Hne. apply sameKey_refl.
Qed.

Lemma queueSorted_sameKey h h' queue :
  (forall r, In r queue -> sameKey (deref h' r) (deref h r)) ->
  queueSorted h queue -> queueSorted h' queue.
Proof.
  intros Hkey. apply StronglySorted_ext_in. intros x y Hx Hy.
  apply messageLe_sameKey; now apply Hkey.
Qed.

Lemma jsSort_queueSorted h queue : queueSorted h (jsSort (compareRefs h) queue).
Proof.
  apply (jsSort_sorted (compareRefs h)).
  - intros x y z. apply compareMessages_le_trans.
  - intros x y. apply compareMessages_flip.
Qed.

(** *** The shape of the queue is kept by every operation *)

Lemma dispatchOne_fields q s r :
  mq_heap (dispatchOne q s r) = <[r := incAttempts (deref (mq_heap s) r)]> (mq_heap s) /\
  mq_queues (dispatchOne q s r) = mq_queues s /\
  mq_awaiting (dispatchOne q s r) = mq_awaiting s ++ [(q, r)] /\
  mq_saved (dispatchOne q s r) = mq_saved s.
Proof. unfold dispatchOne, processMessage. mq_proj. repeat split. Qed.

Lemma queueWf_dispatchOne q s r queue :
  queueWf s -> mq_queues s !! q = Some queue -> In r queue ->
  queueWf (dispatchOne q s r).
Proof.
  intros Hwf Hq Hr.
  destruct (dispatchOne_fields q s r) as (Hh & Hqs & Haw & Hsv).
  constructor; rewrite ?Hh, ?Hqs, ?Haw, ?Hsv, ?length_insert.
  - apply Hwf.
  - intros q' r' Hin. apply in_app_or in Hin as [Hin|[Heq|[]]].
    + eapply wf_awaiting_bound; eassumption.
    + injection Heq as <- <-. eapply wf_queue_bound; eassumption.
  - intros q1 q2 queue1 r' Hq1 Hr' Hin. apply in_app_or in Hin as [Hin|[Heq|[]]].
    + eapply wf_awaiting_owner; eassumption.
    + injection Heq as <- <-. eapply (wf_disjoint s Hwf); eassumption.
  - apply Hwf.
  - intros q' queue' Hq'. eapply queueSorted_sameKey; [|eapply wf_sorted; eassumption].
    intros r' _. apply incAttempts_sameKey.
Qed.

Lemma toDispatch_In q now s r queue :
  mq_queues s !! q = Some queue -> In r (toDispatch q now s) -> In r queue.
Proof.
  unfold toDispatch. intros ->. destruct (_ <=? _)%nat; [intros []|].
  intros Hin. apply list_elem_of_In in Hin.
  apply (subseteq_take _ _ r) in Hin. apply list_elem_of_In in Hin.
  now apply filter_In in Hin.
Qed.

Lemma queueWf_dispatch_fold q queue l : forall s,
  queueWf s -> mq_queues s !! q = Some queue -> (forall r, In r l -> In r queue) ->
  queueWf (fold_left (dispatchOne q) l s).
Proof.
  induction l as [|r l IH]; intros s Hwf Hq Hl; [exact Hwf|].
  cbn [fold_left]. apply IH.
  - eapply queueWf_dispatchOne; [exact Hwf|exact Hq|apply Hl; now left].
  - destruct (dispatchOne_fields q s r) as (_ & -> & _). exact Hq.
  - intros r' Hr'. apply Hl. now right.
Qed.

Lemma queueWf_processQueue q now s : queueWf s -> queueWf (processQueue q now s).
Proof.
  intros Hwf. unfold processQueue.
  destruct (mq_queues s !! q) as [queue|] eqn:Hq.
  - eapply queueWf_dispatch_fold; [exact Hwf|exact Hq|].
    intros r. now apply toDispatch_In.
  - now rewrite toDispatch_no_queue.
Qed.

Lemma queueOf_In_bound s q r :
  queueWf s -> In r (queueOf s q) -> (r < length (mq_heap s))%nat.
Proof.
  intros Hwf. unfold queueOf. destruct (mq_queues s !! q) eqn:Hq; cbn; [|tauto].
  intros Hin. eapply wf_queue_bound; eassumption.
Qed.

Lemma queueOf_sorted s q : queueWf s -> queueSorted (mq_heap s) (queueOf s q).
Proof.
  intros Hwf. unfold queueOf. destruct (mq_queues s !! q) eqn:Hq; cbn.
  - eapply wf_sorted; eassumption.
  - constructor.
Qed.

(** The queue [q] is replaced by some of its entries, still in order. *)
Lemma queueWf_shrink_queue s s' q X :
  queueWf s ->
  mq_heap s' = mq_heap s ->
  mq_queues s' = <[q := X]> (mq_queues s) ->
  (forall p, In p (mq_awaiting s') -> In p (mq_awaiting s)) ->
  (forall r, In r X -> In r (queueOf s q)) ->
  queueSorted (mq_heap s) X ->
  queueWf s'.
Proof.
  intros Hwf Hh Hqs Haw Hsub Hsorted.
  assert (Hold : forall q' queue' r, mq_queues s' !! q' = Some queue' -> In r queue' ->
            exists queue, mq_queues s !! q' = Some queue /\ In r queue).
  { intros q' queue' r Hq' Hr. rewrite Hqs in Hq'.
    destruct (decide (q = q')) as [<-|Hne].
    - rewrite lookup_insert_eq in Hq'. injection Hq' as <-.
      apply Hsub in Hr. unfold queueOf in Hr.
      destruct (mq_queues s !! q) as [queue|]; [|destruct Hr]. eauto.
    - rewrite lookup_insert_ne in Hq' by exact Hne. eauto. }
  constructor; rewrite ?Hh.
  - intros q' queue' r Hq' Hr.
    destruct (Hold _ _ _ Hq' Hr) as (queue & Hq & Hin).
    eapply wf_queue_bound; eassumption.
  - intros q' r Hin. eapply wf_awaiting_bound; [exact Hwf|apply Haw, Hin].
  - intros q1 q2 queue1 r Hq1 Hr Hin.
    destruct (Hold _ _ _ Hq1 Hr) as (queue & Hq & Hin').
    eapply wf_awaiting_owner; [exact Hwf|exact Hq|exact Hin'|apply Haw, Hin].
  - intros q1 q2 queue1 queue2 r Hq1 Hq2 Hr1 Hr2.
    destruct (Hold _ _ _ Hq1 Hr1) as (o1 & Ho1 & Hin1).
    destruct (Hold _ _ _ Hq2 Hr2) as (o2 & Ho2 & Hin2).
    eapply (wf_disjoint s Hwf); eassumption.
  - intros q' queue' Hq'. rewrite Hqs in Hq'.
    destruct (decide (q = q')) as [<-|Hne].
    + rewrite lookup_insert_eq in Hq'. now injection Hq' as <-.
    + rewrite lookup_insert_ne in Hq' by exact Hne. eapply wf_sorted; eassumption.
Qed.

(** The message [r], whose execution is awaited for the queue [q], gets a
    new [scheduledFor], and [q] is sorted again. *)
Lemma queueWf_reschedule s s' q r t :
  queueWf s ->
  In (q, r) (mq_awaiting s) ->
  mq_heap s' = <[r := setScheduledFor t (deref (mq_heap s) r)]> (mq_heap s) ->
  mq_queues s' = <[q := jsSort (compareRefs (mq_heap s')) (queueOf s q)]> (mq_queues s) ->
  (forall p, In p (mq_awaiting s') -> In p (mq_awaiting s)) ->
  queueWf s'.
Proof.
  intros Hwf Hrun Hh Hqs Haw.
  assert (Hold : forall q' queue' r', mq_queues s' !! q' = Some queue' -> In r' queue' ->
            exists queue, mq_queues s !! q' = Some queue /\ In r' queue).
  { intros q' queue' r' Hq' Hr'. rewrite Hqs in Hq'.
    destruct (decide (q = q')) as [<-|Hne].
    - rewrite lookup_insert_eq in Hq'. injection Hq' as <-.
      apply jsSort_In in Hr'. unfold queueOf in Hr'.
      destruct (mq_queues s !! q) as [queue|]; [|destruct Hr']. eauto.
    - rewrite lookup_insert_ne in Hq' by exact Hne. eauto. }
  assert (Hlen : length (mq_heap s') = length (mq_heap s))
    by (rewrite Hh; apply length_insert).
  constructor; rewrite ?Hlen.
  - intros q' queue' r' Hq' Hr'.
    destruct (Hold _ _ _ Hq' Hr') as (queue & Hq & Hin).
    eapply wf_queue_bound; eassumption.
  - intros q' r' Hin. eapply wf_awaiting_bound; [exact Hwf|apply Haw, Hin].
  - intros q1 q2 queue1 r' Hq1 Hr' Hin.
    destruct (Hold _ _ _ Hq1 Hr') as (queue & Hq & Hin').
    eapply wf_awaiting_owner; [exact Hwf|exact Hq|exact Hin'|apply Haw, Hin].
  - intros q1 q2 queue1 queue2 r' Hq1 Hq2 Hr1 Hr2.
    destruct (Hold _ _ _ Hq1 Hr1) as (o1 & Ho1 & Hin1).
    destruct (Hold _ _ _ Hq2 Hr2) as (o2 & Ho2 & Hin2).
    eapply (wf_disjoint s Hwf); eassumption.
  - intros q' queue' Hq'. pose proof Hq' as Hq''. rewrite Hqs in Hq'.
    destruct (decide (q = q')) as [<-|Hne].
    + rewrite lookup_insert_eq in Hq'. injection Hq' as <-. apply jsSort_queueSorted.
    + rewrite lookup_insert_ne in Hq' by exact Hne.
      eapply queueSorted_sameKey; [|eapply wf_sorted; eassumption].
      intros r' Hr'. rewrite Hh.
      destruct (decide (r' = r)) as [->|Hr].
      * exfalso. apply Hne. symmetry.
        eapply wf_awaiting_owner; eassumption.
      * rewrite deref_insert_ne by exact Hr. apply sameKey_refl.
Qed.

(** A new message object is appended to the store and sorted into [q]. *)
Lemma queueWf_enqueue s s' q msg :
  queueWf s ->
  mq_heap s' = mq_heap s ++ [msg] ->
  mq_queues s'
  = <[q := jsSort (compareRefs (mq_heap s')) (queueOf s q ++ [length (mq_heap s)])]>
      (mq_queues s) ->
  mq_awaiting s' = mq_awaiting s ->
  queueWf s'.
Proof.
  intros Hwf Hh Hqs Haw.
  assert (Hold : forall q' queue' r, mq_queues s' !! q' = Some queue' -> In r queue' ->
            (q' = q /\ r = length (mq_heap s)) \/
            exists queue, mq_queues s !! q' = Some queue /\ In r queue).
  { intros q' queue' r Hq' Hr. rewrite Hqs in Hq'.
    destruct (decide (q = q')) as [<-|Hne].
    - rewrite lookup_insert_eq in Hq'. injection Hq' as <-.
      apply jsSort_In, in_app_or in Hr as [Hr|[<-|[]]]; [|now left].
      right. unfold queueOf in Hr.
      destruct (mq_queues s !! q) as [queue|]; [|destruct Hr]. eauto.
    - rewrite lookup_insert_ne in Hq' by exact Hne. eauto. }
  assert (Hlen : length (mq_heap s') = S (length (mq_heap s)))
    by (rewrite Hh, length_app; cbn; lia).
  constructor; rewrite ?Hlen, ?Haw.
  - intros q' queue' r Hq' Hr.
    destruct (Hold _ _ _ Hq' Hr) as [[_ ->]|(queue & Hq & Hin)]; [lia|].
    pose proof (wf_queue_bound s Hwf _ _ _ Hq Hin). lia.
  - intros q' r Hin. pose proof (wf_awaiting_bound s Hwf _ _ Hin). lia.
  - intros q1 q2 queue1 r Hq1 Hr Hin.
    destruct (Hold _ _ _ Hq1 Hr) as [[_ ->]|(queue & Hq & Hin')].
    + pose proof (wf_awaiting_bound s Hwf _ _ Hin). lia.
    + eapply wf_awaiting_owner; eassumption.
  - intros q1 q2 queue1 queue2 r Hq1 Hq2 Hr1 Hr2.
    destruct (Hold _ _ _ Hq1 Hr1) as [[-> ->]|(o1 & Ho1 & Hin1)];
      destruct (Hold _ _ _ Hq2 Hr2) as [[-> Hr]|(o2 & Ho2 & Hin2)]; try reflexivity.
    + pose proof (wf_queue_bound s Hwf _ _ _ Ho2 Hin2). lia.
    + subst r. pose proof (wf_queue_bound s Hwf _ _ _ Ho1 Hin1). lia.
    + eapply (wf_disjoint s Hwf); eassumption.
  - intros q' queue' Hq'. pose proof Hq' as Hq''. rewrite Hqs in Hq'.
    destruct (decide (q = q')) as [<-|Hne].
    + rewrite lookup_insert_eq in Hq'. injection Hq' as <-. apply jsSort_queueSorted.
    + rewrite lookup_insert_ne in Hq' by exact Hne.
      eapply queueSorted_sameKey; [|eapply wf_sorted; eassumption].
      intros r Hr. rewrite Hh, deref_app_l; [apply sameKey_refl|].
      eapply wf_queue_bound; eassumption.
Qed.

Lemma removeFirst_In (p x : string * nat) l : In p (removeFirst x l) -> In p l.
Proof.
  induction l as [|y l IH]; cbn; [tauto|].
  destruct (bool_decide _); cbn; intuition.
Qed.

Lemma queueWf_callback q r error now s : queueWf s -> queueWf (callback q r error now s).
Proof.
  intros Hwf. unfold callback. case_bool_decide as Hin; [|exact Hwf].
  apply list_elem_of_In in Hin.
  destruct error as [e|].
  - unfold handleFailure.
    replace (deref (mq_heap (upd_awaiting (removeFirst (q, r)) s)) r)
      with (deref (mq_heap s) r) by reflexivity.
    destruct (_ <? _).
    + eapply (queueWf_reschedule s _ q r); [exact Hwf|exact Hin| | |];
        mq_simpl; try reflexivity.
      intros p. apply removeFirst_In.
    + eapply (queueWf_shrink_queue s _ q); [exact Hwf| | | | |];
        mq_simpl; try reflexivity.
      * intros p. apply removeFirst_In.
      * intros r'. apply spliceById_In.
      * apply spliceById_sorted. now apply queueOf_sorted.
  - unfold handleSuccess.
    eapply (queueWf_shrink_queue s _ q); [exact Hwf| | | | |];
      mq_simpl; try reflexivity.
    + intros p. apply removeFirst_In.
    + intros r'. apply spliceById_In.
    + apply spliceById_sorted. now apply queueOf_sorted.
Qed.

Lemma queueWf_addMessage q data options gen now s :
  queueWf s -> queueWf (addMessage q data options gen now s).
Proof.
  intros Hwf. unfold addMessage. apply queueWf_processQueue.
  destruct (mq_queues s !! q) as [queue|] eqn:Hq.
  - eapply (queueWf_enqueue s _ q); [exact Hwf| | |]; mq_simpl; try reflexivity.
    now rewrite insert_insert_eq.
  - eapply (queueWf_enqueue s _ q); [exact Hwf| | |]; mq_simpl; try reflexivity.
    rewrite Hq. cbn [default from_option id]. now rewrite !insert_insert_eq.
Qed.

Lemma queueWf_restoreQueue q now s : queueWf s -> queueWf (restoreQueue q now s).
Proof.
  intros Hwf. unfold restoreQueue.
  destruct (savedQueueOf s q now) as [[]|]; [| |exact Hwf].
  - apply queueWf_processQueue.
    eapply (queueWf_shrink_queue s _ q (queueOf s q)); [exact Hwf| | | | |];
      mq_simpl; try reflexivity; try tauto.
    now apply queueOf_sorted.
  - apply queueWf_processQueue.
    eapply (queueWf_shrink_queue s _ q []); [exact Hwf| | | | |];
      mq_simpl; try reflexivity; try tauto.
    + intros r [].
    + constructor.
Qed.

Lemma queueWf_persistQueue q now s : queueWf s -> queueWf (persistQueue q now s).
Proof. intros Hwf. constructor; apply Hwf. Qed.

Lemma queueWf_step s op : queueWf s -> queueWf (step s op).
Proof.
  intros Hwf. destruct op as [now []]; cbn [step].
  - now apply queueWf_addMessage.
  - now apply queueWf_processQueue.
  - now apply queueWf_callback.
  - unfold removeMessage. destruct (mq_queues s !! queueName) as [queue|] eqn:Hq;
      [|exact Hwf].
    destruct (hasId _ _ _); [|exact Hwf].
    eapply (queueWf_shrink_queue s _ queueName); [exact Hwf| | | | |];
      mq_simpl; try reflexivity; try tauto.
    + intros r. rewrite Hq. cbn. apply spliceById_In.
    + apply spliceById_sorted. eapply wf_sorted; eassumption.
  - unfold clearQueue. destruct (mq_queues s !! queueName) as [queue|] eqn:Hq;
      [|exact Hwf].
    eapply (queueWf_shrink_queue s _ queueName); [exact Hwf| | | | |];
      mq_simpl; try reflexivity; try tauto.
    + intros r [].
    + constructor.
  - constructor; apply Hwf.
  - unfold resumeQueue. apply queueWf_processQueue. constructor; apply Hwf.
  - now apply queueWf_persistQueue.
  - now apply queueWf_restoreQueue.
Qed.

Lemma reachable_queueWf s : reachable s -> queueWf s.
Proof.
  apply reachable_ind.
  - constructor; cbn; try (intros; rewrite lookup_empty in *; discriminate);
      intros; contradiction.
  - intros s0 op. apply queueWf_step.
Qed.

(** *** The order of dispatch *)

Lemma dispatchedRefs_app l1 l2 :
  dispatchedRefs (l1 ++ l2) = dispatchedRefs l1 ++ dispatchedRefs l2.
Proof. unfold dispatchedRefs. apply flat_map_app. Qed.

Lemma dispatchedRefs_fold q l : forall s,
  dispatchedRefs (mq_events (fold_left (dispatchOne q) l s))
  = dispatchedRefs (mq_events s) ++ l.
Proof.
  induction l as [|r l IH]; intros s; cbn [fold_left].
  - now rewrite app_nil_r.
  - rewrite IH. unfold dispatchOne, processMessage. mq_proj.
    rewrite !dispatchedRefs_app. cbn [dispatchedRefs flat_map app].
    now rewrite !app_nil_r, <- app_assoc.
Qed.

Lemma sorted_precedes {A} (R : A -> A -> Prop) (a b : A) l :
  StronglySorted R l -> R a a -> In a l -> ~ R b a -> In b l -> precedes a b l.
Proof.
  intros Hs Hrefl Ha Hnot Hb.
  pose proof (sorted_take_precedes R a b l (length l) Hs Hrefl Ha Hnot) as H.
  rewrite firstn_all in H. now apply H.
Qed.

(** C5, as the code has it. In every reachable state each queue is sorted
    by priority descending, then [scheduledFor] ascending; a drain starts the
    ready messages in that order; so for [A] and [B] in the same queue with
    equal [scheduledFor] and [A.priority > B.priority], [A] stands before
    [B], and a drain that dispatches [B] while [A] is not in flight
    dispatches [A] first. *)
Theorem priority_dispatch_order
    (s : MQ) (q : string) (queue : list nat) (a b : nat) (now : Z) :
  let A := deref (mq_heap s) a in
  let B := deref (mq_heap s) b in
  reachable s ->
  mq_queues s !! q = Some queue -> In a queue -> In b queue ->
  qm_priority B < qm_priority A ->
  qm_scheduledFor A = qm_scheduledFor B ->
  qm_id A ∉ processingOf s q ->
  queueSorted (mq_heap s) queue /\
  precedes a b queue /\
  (In b (toDispatch q now s) -> precedes a b (toDispatch q now s)) /\
  dispatchedRefs (mq_events (processQueue q now s))
  = dispatchedRefs (mq_events s) ++ toDispatch q now s.
Proof.
  intros A B Hreach Hq Ha Hb Hprio Hsched Hidle.
  pose proof (reachable_queueWf s Hreach) as Hwf.
  pose proof (wf_sorted s Hwf q queue Hq) as Hsorted.
  assert (Hnot : ~ messageLe B A) by now apply compareMessages_higher_priority.
  split; [exact Hsorted|]. split.
  { apply (sorted_precedes (fun r1 r2 => messageLe (deref (mq_heap s) r1)
                                                   (deref (mq_heap s) r2)));
      try assumption. apply compareMessages_refl. }
  split.
  - unfold toDispatch. rewrite Hq.
    destruct (_ <=? _)%nat; [intros []|]. intros Hin.
    assert (Hbready : isReady s q now b = true).
    { apply list_elem_of_In in Hin. apply (subseteq_take _ _ b) in Hin.
      apply list_elem_of_In, filter_In in Hin. apply Hin. }
    apply (sorted_take_precedes (fun r1 r2 => messageLe (deref (mq_heap s) r1)
                                                        (deref (mq_heap s) r2)));
      try assumption.
    + now apply StronglySorted_filter.
    + apply compareMessages_refl.
    + apply filter_In. split; [exact Ha|].
      unfold isReady in *. apply andb_true_iff in Hbready as [Hdue _].
      fold A. rewrite Hsched. fold B in Hdue. rewrite Hdue.
      now rewrite bool_decide_eq_false_2.
  - unfold processQueue. apply dispatchedRefs_fold.
Qed.

Lemma bothPending_reachable : reachable bothPending.
Proof. unfold bothPending. apply reachable_run. Qed.

Lemma priority_dispatch_witness :
  precedes 1%nat 0%nat [1%nat; 0%nat].
Proof.
  assert (Hp : processingOf bothPending "q" = ∅) by (vm_compute; reflexivity).
  refine (proj1 (proj2 (priority_dispatch_order bothPending "q" [1%nat; 0%nat]
                          1%nat 0%nat 1000 bothPending_reachable _ _ _ _ _ _))).
  - vm_compute. reflexivity.
  - now left.
  - right. now left.
  - vm_compute. reflexivity.
  - vm_compute. reflexivity.
  - rewrite Hp. apply not_elem_of_empty.
Defined.

(** Enqueued in either order with the default delay, [A] is started first. *)
Example priority_either_order :
  dispatchedIds (mq_events lowThenHigh) = ["A"; "B"] /\
  dispatchedIds (mq_events highThenLow) = ["A"; "B"].
Proof. vm_compute. split; reflexivity. Qed.

(** [B] is enqueued first with [delay: 0] and started by the drain of its own
    [addMessage]; [A], enqueued in the same millisecond with a higher
    priority and the same [scheduledFor], is started after it. *)
Lemma higher_priority_enqueued_later_runs_later :
  queueOf lowThenHighAtOnce "q" = [1%nat; 0%nat] /\
  map (fun r => (qm_id r, qm_priority r, qm_scheduledFor r)) (mq_heap lowThenHighAtOnce)
  = [("B", 1, 0); ("A", 5, 0)] /\
  dispatchedIds (mq_events lowThenHighAtOnce) = ["B"; "A"].
Proof. vm_compute. repeat split. Qed.

(* ===================================================================== *)
(** * Further properties of the same modules *)
(* ===================================================================== *)

(** ** Rate limiter: bans, reading and clearing the limits *)

Lemma cache_del_nofault k w :
  w_faults w = [] ->
  cache_del k w = (Ok tt, set_cache (delete k (w_cache w)) w).
Proof. intros H. unfold cache_del. now rewrite cache_call_nofault. Qed.

Lemma set_now_faults t w : w_faults (set_now t w) = w_faults w.
Proof. reflexivity. Qed.

Lemma isTemporaryBanned_of_entry u w b expires :
  w_faults w = [] ->
  w_cache w !! tempban_key u = Some (mkCacheEntry (VBan b) expires) ->
  w_now w - bd_bannedAt b < bd_duration b -> w_now w <= expires ->
  (isTemporaryBanned u w).1 =
    Ok (Some (bd_reason b, bd_duration b - (w_now w - bd_bannedAt b))).
Proof.
  intros Hf Hslot Hin Hvis.
  unfold isTemporaryBanned.
  rewrite (bind_ok _ _ _ _ _ (cache_get_nofault _ _ Hf)).
  unfold nodecache_get. rewrite Hslot. cbn [ce_expires ce_value].
  replace (w_now w <=? expires) with true by (symmetry; apply Z.leb_le; lia).
  rewrite orb_true_r.
  unfold bind, date_now, gets. cbn.
  destruct (Z.leb_spec (bd_duration b) (w_now w - bd_bannedAt b)); [lia|].
  reflexivity.
Qed.

Lemma isTemporaryBanned_elapsed u w b expires :
  w_faults w = [] ->
  w_cache w !! tempban_key u = Some (mkCacheEntry (VBan b) expires) ->
  bd_duration b <= w_now w - bd_bannedAt b ->
  (isTemporaryBanned u w).1 = Ok None.
Proof.
  intros Hf Hslot Hout.
  unfold isTemporaryBanned.
  rewrite (bind_ok _ _ _ _ _ (cache_get_nofault _ _ Hf)).
  unfold nodecache_get. rewrite Hslot. cbn [ce_expires ce_value].
  destruct ((expires =? 0) || (w_now w <=? expires)); [|reflexivity].
  unfold bind at 1. unfold date_now, gets. cbn.
  destruct (Z.leb_spec (bd_duration b) (w_now w - bd_bannedAt b)); [|lia].
  rewrite (bind_ok _ _ _ _ _ (cache_del_nofault _ _ Hf)). reflexivity.
Qed.

Lemma temporaryBan_nofault u d w :
  w_faults w = [] ->
  temporaryBan u d w =
  (Ok tt, set_cache (nodecache_set (w_cfg w) (w_now w) (w_cache w) (tempban_key u)
                       (VBan (mkBanData u (w_now w) d "Rate limit violations"))
                       (ceil_div d 1000)) w).
Proof.
  intros Hf. unfold temporaryBan, bind, date_now, gets.
  now rewrite cache_set_nofault.
Qed.

(** X1. A ban set by [temporaryBan] for [d] milliseconds is what
    [isTemporaryBanned] reports for exactly [d] milliseconds: inside that
    span the answer carries the reason and the time that remains, from then
    on the answer is [false]. *)
Theorem temporaryBan_lasts_its_duration (u : string) (d t : Z) (w : World) :
  w_faults w = [] -> 0 < d -> w_now w <= t ->
  (isTemporaryBanned u (set_now t (temporaryBan u d w).2)).1 =
    Ok (if t - w_now w <? d
        then Some ("Rate limit violations", d - (t - w_now w))
        else None).
Proof.
  intros Hf Hd Ht.
  rewrite (temporaryBan_nofault u d w Hf). cbn [snd].
  destruct (ceil_div_1000_ge d Hd) as [Hge Hpos].
  set (b := mkBanData u (w_now w) d "Rate limit violations").
  set (w1 := set_now t _).
  assert (Hf1 : w_faults w1 = []) by exact Hf.
  assert (Hslot : w_cache w1 !! tempban_key u
            = Some (mkCacheEntry (VBan b) (w_now w + ceil_div d 1000 * 1000))).
  { cbn. unfold nodecache_set. rewrite lookup_insert_eq.
    destruct (Z.eqb_spec (ceil_div d 1000) 0); [lia|reflexivity]. }
  destruct (Z.ltb_spec (t - w_now w) d).
  - rewrite (isTemporaryBanned_of_entry u w1 b _ Hf1 Hslot); cbn; first reflexivity; lia.
  - rewrite (isTemporaryBanned_elapsed u w1 b _ Hf1 Hslot); cbn; first reflexivity; lia.
Qed.

Lemma temporaryBan_lasts_witness :
  (isTemporaryBanned "u" (set_now 1500 (temporaryBan "u" 2000 (world0 cfg0)).2)).1 =
    Ok (Some ("Rate limit violations", 500)).
Proof.
  exact (temporaryBan_lasts_its_duration "u" 2000 1500 (world0 cfg0)
           eq_refl eq_refl ltac:(cbn; lia)).
Defined.

(** X2. [recordViolation] bans from the fifth stored violation on, and only
    then: with four or more violations on record the new one sets (or
    renews) a ban of a full hour, counted from this violation; with fewer
    the ban slot is left as it was. *)
Theorem fifth_violation_bans_for_an_hour (u type : string) (t : Z) (w : World) :
  w_faults w = [] -> violationsTyped w u = true -> w_now w <= t ->
  let w1 := (recordViolation u type w).2 in
  ((4 <= length (storedViolations w u))%nat ->
   (isTemporaryBanned u (set_now t w1)).1 =
     Ok (if t - w_now w <? 3600000
         then Some ("Rate limit violations", 3600000 - (t - w_now w))
         else None)) /\
  ((length (storedViolations w u) < 4)%nat ->
   w_cache w1 !! tempban_key u = w_cache w !! tempban_key u).
Proof.
  intros Hf Hty Ht w1. subst w1.
  rewrite (recordViolation_nofault u type w Hf Hty). cbn [snd].
  unfold afterViolation. rewrite length_app. cbn [length].
  split; intros Hlen.
  - destruct (Z.leb_spec 5 (Z.of_nat (length (storedViolations w u) + 1))); [|lia].
    set (b := mkBanData u (w_now w) 3600000 "Rate limit violations").
    set (w1 := set_now t _).
    assert (Hf1 : w_faults w1 = []) by exact Hf.
    assert (Hslot : w_cache w1 !! tempban_key u
              = Some (mkCacheEntry (VBan b) (w_now w + 3600 * 1000))).
    { cbn. unfold nodecache_set. rewrite lookup_insert_eq. reflexivity. }
    destruct (Z.ltb_spec (t - w_now w) 3600000).
    + rewrite (isTemporaryBanned_of_entry u w1 b _ Hf1 Hslot); cbn; first reflexivity; lia.
    + rewrite (isTemporaryBanned_elapsed u w1 b _ Hf1 Hslot); cbn; first reflexivity; lia.
  - destruct (Z.leb_spec 5 (Z.of_nat (length (storedViolations w u) + 1))); [lia|].
    cbn. unfold nodecache_set. rewrite lookup_insert_ne; [reflexivity|].
    intros E. symmetry in E. revert E. apply tempban_ne_violations.
Qed.

Lemma fifth_violation_witness :
  (isTemporaryBanned "u"
     (set_now 1000 (recordViolation "u" "x" (set_now 5 fourViolations)).2)).1 =
    Ok (Some ("Rate limit violations", 3600000 - 995)).
Proof.
  refine (proj1 (fifth_violation_bans_for_an_hour "u" "x" 1000 (set_now 5 fourViolations)
                   _ _ _) _).
  - reflexivity.
  - vm_compute. reflexivity.
  - cbn. lia.
  - vm_compute. lia.
Defined.

(** *** One call against a working cache *)

Lemma as_times_typed w key :
  (forall e, w_cache w !! key = Some e -> exists l, ce_value e = VTimes l) ->
  as_times (nodecache_get (w_now w) (w_cache w) key) w = (Ok (storedTimes w key), w).
Proof.
  intros Hty. unfold storedTimes, nodecache_get.
  destruct (w_cache w !! key) as [e|] eqn:He; [|reflexivity].
  destruct (Hty e eq_refl) as [l Hl]. rewrite Hl.
  destruct (_ || _); reflexivity.
Qed.

Lemma checkLimit_nofault userId type customLimit limit w :
  let key := ratelimit_key type userId in
  let valid := validWindow (w_now w) (lim_window limit) (storedTimes w key) in
  limitFor type customLimit = Some limit ->
  w_faults w = [] -> violationsTyped w userId = true ->
  (forall e, w_cache w !! key = Some e -> exists l, ce_value e = VTimes l) ->
  checkLimit userId type customLimit w =
    if lim_max limit <=? Z.of_nat (length valid) then
      (Ok (mkLimitResult false (Some 0) (head_plus valid (lim_window limit - w_now w))
             (option_map (fun r => ceil_div r 1000)
                (head_plus valid (lim_window limit - w_now w)))),
       afterViolation userId type w)
    else
      (Ok (mkLimitResult true
             (Some (lim_max limit - Z.of_nat (length (valid ++ [w_now w]))))
             (head_plus (valid ++ [w_now w]) (lim_window limit - w_now w)) (Some 0)),
       set_cache (nodecache_set (w_cfg w) (w_now w) (w_cache w) key
                    (VTimes (valid ++ [w_now w])) (ceil_div (lim_window limit) 1000)) w).
Proof.
  intros key valid Hlimit Hf Hty Hslot.
  unfold checkLimit, try_catch. fold key. rewrite Hlimit.
  rewrite (bind_ok _ _ _ _ _ (cache_get_nofault key w Hf)).
  rewrite (bind_ok _ _ _ _ _ (as_times_typed w key Hslot)).
  unfold bind at 1. unfold date_now at 1. unfold gets at 1.
  fold valid.
  destruct (lim_max limit <=? Z.of_nat (length valid)).
  - rewrite (bind_ok _ _ _ _ _ (recordViolation_nofault userId type w Hf Hty)).
    reflexivity.
  - rewrite (bind_ok _ _ _ _ _ (cache_set_nofault _ _ _ w Hf)). reflexivity.
Qed.

(** With a type that names a member of [Object.prototype] every call is
    let through, and the slot holds the instant of the last call only. *)
Lemma checkLimit_inherited_nofault userId type customLimit w :
  let key := ratelimit_key type userId in
  limitFor type customLimit = None ->
  w_faults w = [] ->
  (forall e, w_cache w !! key = Some e -> exists l, ce_value e = VTimes l) ->
  checkLimit userId type customLimit w =
    (Ok (mkLimitResult true None None (Some 0)),
     set_cache (nodecache_set (w_cfg w) (w_now w) (w_cache w) key
                  (VTimes [w_now w]) 0) w).
Proof.
  intros key Hlimit Hf Hslot.
  unfold checkLimit, try_catch. fold key. rewrite Hlimit.
  rewrite (bind_ok _ _ _ _ _ (cache_get_nofault key w Hf)).
  rewrite (bind_ok _ _ _ _ _ (as_times_typed w key Hslot)).
  unfold bind at 1. unfold date_now at 1. unfold gets at 1.
  rewrite (bind_ok _ _ _ _ _ (cache_set_nofault _ _ _ w Hf)). reflexivity.
Qed.

Lemma validWindow_idem now window l :
  validWindow now window (validWindow now window l) = validWindow now window l.
Proof.
  unfold validWindow. induction l as [|x l IH]; [reflexivity|].
  cbn. destruct (now - x <? window) eqn:E; [|exact IH].
  cbn. rewrite E. now rewrite IH.
Qed.

Lemma string_app_length a b :
  String.length (a +:+ b) = (String.length a + String.length b)%nat.
Proof. induction a as [|c a IH]; [reflexivity|]. cbn [String.length Nat.add]. simpl. f_equal. exact IH. Qed.

Lemma string_app_inv_tail a b x : a +:+ x = b +:+ x -> a = b.
Proof.
  revert b. induction a as [|c a IH]; intros [|c' b] H; cbn in H.
  - reflexivity.
  - apply (f_equal String.length) in H. rewrite !string_app_length in H. simpl in H. lia.
  - apply (f_equal String.length) in H. rewrite !string_app_length in H. simpl in H. lia.
  - injection H as -> H. f_equal. now apply IH.
Qed.

Lemma ratelimit_key_inj type type' u :
  ratelimit_key type u = ratelimit_key type' u -> type = type'.
Proof.
  unfold ratelimit_key. intros H.
  apply String.app_inj in H.
  apply (string_app_inv_tail type type' ("_" +:+ u)). exact H.
Qed.

(** *** [getUserLimits] *)

Lemma userLimitOf_nofault u type limit w :
  w_faults w = [] -> limiterSlotsTyped w u ->
  userLimitOf u type limit w = (Ok (userLimitValue w u type limit), w).
Proof.
  intros Hf Hty. unfold userLimitOf.
  rewrite (bind_ok _ _ _ _ _ (cache_get_nofault _ w Hf)).
  rewrite (bind_ok _ _ _ _ _ (as_times_typed w _ (Hty type))).
  reflexivity.
Qed.

Lemma userLimitsLoop_nofault u entries w :
  w_faults w = [] -> limiterSlotsTyped w u ->
  userLimitsLoop u entries w =
    (Ok (map (fun e => (e.1, userLimitValue w u e.1 e.2)) entries), w).
Proof.
  intros Hf Hty. induction entries as [|[type limit] rest IH]; [reflexivity|].
  cbn [userLimitsLoop].
  rewrite (bind_ok _ _ _ _ _ (userLimitOf_nofault u type limit w Hf Hty)).
  rewrite (bind_ok _ _ _ _ _ IH). reflexivity.
Qed.

Lemma limitFor_default type limit :
  In (type, limit) defaultLimitEntries -> limitFor type None = Some limit.
Proof.
  intros [E|[E|[E|[E|[]]]]]; injection E as <- <-; reflexivity.
Qed.

Lemma defaultLimit_positive type limit :
  In (type, limit) defaultLimitEntries -> 0 < lim_max limit /\ 0 < lim_window limit.
Proof.
  intros [E|[E|[E|[E|[]]]]]; injection E as <- <-; cbn; lia.
Qed.

(** X3. [getUserLimits] agrees with [checkLimit]: right after a call that
    was let through for one of the default categories, the entry of that
    category reports the [remaining] and the [resetTime] the call returned,
    with [used = max - remaining]; the four categories come in the order
    of [defaultLimits], and reading them changes nothing. *)
Theorem getUserLimits_agrees_with_checkLimit
    (u type : string) (limit : Limit) (w w1 : World) (r : LimitResult) :
  In (type, limit) defaultLimitEntries ->
  w_faults w = [] -> limiterSlotsTyped w u -> violationsTyped w u = true ->
  checkLimit u type None w = (Ok r, w1) -> allowed r = true ->
  exists limits e,
    getUserLimits u w1 = (Ok limits, w1) /\
    map fst limits = ["messages"; "commands"; "media"; "api"] /\
    In (type, e) limits /\
    ul_max e = lim_max limit /\
    remaining r = Some (ul_remaining e) /\
    ul_used e = lim_max limit - ul_remaining e /\
    resetTime r = Some (ul_resetTime e).
Proof.
  intros Hin Hf Hty Hvt Hrun Hal.
  pose proof (limitFor_default _ _ Hin) as Hlim.
  destruct (defaultLimit_positive _ _ Hin) as [Hmax Hwin].
  rewrite (checkLimit_nofault u type None limit w Hlim Hf Hvt (Hty type)) in Hrun.
  set (key := ratelimit_key type u) in *.
  set (valid := validWindow (w_now w) (lim_window limit) (storedTimes w key)) in *.
  destruct (lim_max limit <=? Z.of_nat (length valid)).
  { injection Hrun as <- _. discriminate Hal. }
  injection Hrun as <- <-.
  set (w1 := set_cache _ w).
  assert (Hf1 : w_faults w1 = []) by exact Hf.
  assert (Hty1 : limiterSlotsTyped w1 u).
  { intros type' e. subst w1. cbn. unfold nodecache_set.
    destruct (decide (key = ratelimit_key type' u)) as [<-|Hne].
    - rewrite lookup_insert_eq. intros [= <-]. eexists. reflexivity.
    - rewrite lookup_insert_ne by exact Hne. apply Hty. }
  assert (Hstored : storedTimes w1 key = valid ++ [w_now w]).
  { unfold storedTimes, nodecache_get. subst w1. cbn. unfold nodecache_set.
    rewrite lookup_insert_eq. cbn.
    destruct (ceil_div_1000_ge _ Hwin) as [_ Hpos].
    destruct (Z.eqb_spec (ceil_div (lim_window limit) 1000) 0); [lia|].
    replace (w_now w <=? w_now w + ceil_div (lim_window limit) 1000 * 1000)
      with true by (symmetry; apply Z.leb_le; lia).
    rewrite orb_true_r. reflexivity. }
  assert (Hvalid1 : validWindow (w_now w1) (lim_window limit) (storedTimes w1 key)
                    = valid ++ [w_now w]).
  { rewrite Hstored. rewrite validWindow_app. subst valid.
    rewrite validWindow_idem. f_equal. cbn.
    replace (w_now w - w_now w) with 0 by lia.
    destruct (Z.ltb_spec 0 (lim_window limit)); [reflexivity|lia]. }
  exists (map (fun e => (e.1, userLimitValue w1 u e.1 e.2)) defaultLimitEntries),
         (userLimitValue w1 u type limit).
  split; [apply (userLimitsLoop_nofault u defaultLimitEntries w1 Hf1 Hty1)|].
  split; [reflexivity|].
  split.
  { apply (in_map (fun e => (e.1, userLimitValue w1 u e.1 e.2)) _ (type, limit)).
    exact Hin. }
  unfold userLimitValue. fold key. rewrite Hvalid1. cbn [ul_max ul_remaining ul_used
    ul_resetTime remaining resetTime].
  split; [reflexivity|]. split; [reflexivity|]. split; [lia|].
  destruct valid as [|first rest]; cbn; f_equal; lia.
Qed.

Lemma getUserLimits_witness :
  exists limits e,
    getUserLimits "u" (checkLimit "u" "media" None (world0 cfg0)).2
      = (Ok limits, (checkLimit "u" "media" None (world0 cfg0)).2) /\
    map fst limits = ["messages"; "commands"; "media"; "api"] /\
    In ("media", e) limits /\
    ul_max e = 5 /\ Some 4 = Some (ul_remaining e) /\ ul_used e = 5 - ul_remaining e /\
    Some 300000 = Some (ul_resetTime e).
Proof.
  refine (getUserLimits_agrees_with_checkLimit "u" "media" (mkLimit 5 300000)
            (world0 cfg0) _ (mkLimitResult true (Some 4) (Some 300000) (Some 0)) _ _ _ _ _ _).
  - cbn. tauto.
  - reflexivity.
  - intros type e He. cbn in He. rewrite lookup_empty in He. discriminate.
  - reflexivity.
  - vm_compute. reflexivity.
  - reflexivity.
Defined.

(** *** [clearUserLimits] *)

Lemma lookup_foldl_delete {V} (ks : list string) (c : gmap string V) k :
  foldl (fun c k => delete k c) c ks !! k = if decide (k ∈ ks) then None else c !! k.
Proof.
  revert c. induction ks as [|k0 ks IH]; intros c; cbn.
  - destruct (decide (k ∈ [])) as [H|_]; [inversion H|reflexivity].
  - rewrite IH. destruct (decide (k ∈ ks)) as [Hin|Hnin].
    + rewrite decide_True by (now right). reflexivity.
    + destruct (decide (k = k0)) as [->|Hne].
      * rewrite decide_True by (now left). apply lookup_delete_eq.
      * rewrite decide_False by (intros H; inversion H; subst; tauto).
        now apply lookup_delete_ne.
Qed.

Lemma clearLimitsLoop_nofault u types w :
  w_faults w = [] ->
  exists w1, clearLimitsLoop u types w = (Ok tt, w1) /\
    w_faults w1 = [] /\ w_now w1 = w_now w /\ w_cfg w1 = w_cfg w /\
    w_cache w1 = foldl (fun c k => delete k c) (w_cache w)
                       (map (fun type => ratelimit_key type u) types).
Proof.
  revert w. induction types as [|type rest IH]; intros w Hf.
  - exists w. repeat split; assumption.
  - cbn [clearLimitsLoop].
    rewrite (bind_ok _ _ _ _ _ (cache_del_nofault _ w Hf)).
    destruct (IH (set_cache (delete (ratelimit_key type u) (w_cache w)) w) Hf)
      as (w1 & Hrun & Hf1 & Hn1 & Hc1 & Hcache).
    exists w1. repeat split; assumption.
Qed.

Lemma clearUserLimits_nofault u w :
  w_faults w = [] ->
  exists w1, clearUserLimits u w = (Ok true, w1) /\
    w_faults w1 = [] /\ w_now w1 = w_now w /\ w_cfg w1 = w_cfg w /\
    w_cache w1 = foldl (fun c k => delete k c) (w_cache w) (clearedKeys u).
Proof.
  intros Hf. unfold clearUserLimits.
  destruct (clearLimitsLoop_nofault u (map fst defaultLimitEntries) w Hf)
    as (w1 & Hrun & Hf1 & Hn1 & Hc1 & Hcache).
  rewrite (bind_ok _ _ _ _ _ Hrun). cbv beta.
  eexists. split.
  { rewrite (bind_ok _ _ _ _ _ (cache_del_nofault (violations_key u) w1 Hf1)). cbv beta.
    rewrite (bind_ok _ _ _ _ _ (cache_del_nofault (tempban_key u) (set_cache _ w1) Hf1)).
    reflexivity. }
  repeat split; try assumption.
  cbn [w_cache set_cache]. rewrite Hcache. unfold clearedKeys. rewrite foldl_app.
  reflexivity.
Qed.

Lemma checkLimit_empty_slot u type customLimit limit w :
  limitFor type customLimit = Some limit ->
  w_faults w = [] ->
  w_cache w !! ratelimit_key type u = None ->
  0 < lim_max limit ->
  exists r w2, checkLimit u type customLimit w = (Ok r, w2) /\
    allowed r = true /\ remaining r = Some (lim_max limit - 1).
Proof.
  intros Hlimit Hf Hnone Hmax.
  unfold checkLimit, try_catch. rewrite Hlimit.
  rewrite (bind_ok _ _ _ _ _ (cache_get_nofault _ w Hf)).
  unfold nodecache_get. rewrite Hnone.
  unfold as_times. unfold bind at 1. unfold ret at 1.
  unfold bind at 1. unfold date_now at 1. unfold gets at 1.
  cbn [validWindow List.filter length].
  destruct (Z.leb_spec (lim_max limit) (Z.of_nat 0)); [cbn in *; lia|].
  rewrite (bind_ok _ _ _ _ _ (cache_set_nofault _ _ _ w Hf)).
  eexists _, _. split; [reflexivity|]. cbn. split; [reflexivity|f_equal; lia].
Qed.

(** X4. [clearUserLimits] gives a user a clean slate in the four default
    categories: right after it the user is not banned, and the next request
    in any default category is let through with [max - 1] requests left. *)
Theorem clearUserLimits_resets (u type : string) (limit : Limit) (w : World) :
  In (type, limit) defaultLimitEntries -> w_faults w = [] ->
  let w1 := (clearUserLimits u w).2 in
  (clearUserLimits u w).1 = Ok true /\
  (isTemporaryBanned u w1).1 = Ok None /\
  exists r w2, checkLimit u type None w1 = (Ok r, w2) /\
               allowed r = true /\ remaining r = Some (lim_max limit - 1).
Proof.
  intros Hin Hf w1. subst w1.
  destruct (clearUserLimits_nofault u w Hf) as (w1 & Hrun & Hf1 & Hn1 & Hc1 & Hcache).
  rewrite Hrun. cbn [fst snd].
  split; [reflexivity|]. split.
  - unfold isTemporaryBanned.
    rewrite (bind_ok _ _ _ _ _ (cache_get_nofault _ w1 Hf1)).
    unfold nodecache_get. rewrite Hcache, lookup_foldl_delete.
    rewrite decide_True; [reflexivity|].
    unfold clearedKeys. apply elem_of_app. right. right. left.
  - apply checkLimit_empty_slot; [exact (limitFor_default _ _ Hin)|exact Hf1| |].
    + rewrite Hcache, lookup_foldl_delete. rewrite decide_True; [reflexivity|].
      unfold clearedKeys. apply elem_of_app. left.
      apply list_elem_of_fmap. exists type. split; [reflexivity|].
      apply list_elem_of_fmap. exists (type, limit). split; [reflexivity|].
      apply list_elem_of_In. exact Hin.
    + apply (defaultLimit_positive _ _ Hin).
Qed.

Lemma clearUserLimits_resets_witness :
  (clearUserLimits "u" (set_now 5 fourViolations)).1 = Ok true /\
  (isTemporaryBanned "u" (clearUserLimits "u" (set_now 5 fourViolations)).2).1 = Ok None /\
  exists r w2,
    checkLimit "u" "api" None (clearUserLimits "u" (set_now 5 fourViolations)).2 = (Ok r, w2) /\
    allowed r = true /\ remaining r = Some (100 - 1).
Proof.
  refine (clearUserLimits_resets "u" "api" (mkLimit 100 3600000) (set_now 5 fourViolations) _ _).
  - cbn. tauto.
  - reflexivity.
Defined.

Lemma command_bucket_not_cleared u name :
  defaultLimits name = None -> ratelimit_key name u ∉ clearedKeys u.
Proof.
  intros Hnone Hin. unfold clearedKeys in Hin.
  apply elem_of_app in Hin as [Hin|Hin].
  - apply list_elem_of_fmap in Hin as (type & Heq & Hin).
    apply ratelimit_key_inj in Heq as <-.
    apply list_elem_of_In in Hin.
    destruct Hin as [<-|[<-|[<-|[<-|[]]]]]; discriminate Hnone.
  - apply list_elem_of_In in Hin. destruct Hin as [E|[E|[]]].
    + revert E. apply violations_ne_ratelimit.
    + revert E. apply tempban_ne_ratelimit.
Qed.

(** X5. [clearUserLimits] does not reach the buckets the dispatcher fills:
    a bucket whose category is not one of the four default ones (the
    dispatcher uses the command's name) is left as it was, and the next
    request in it gets the verdict it would have got without the clearing. *)
Theorem clearUserLimits_keeps_command_buckets (u name : string) (w : World) :
  defaultLimits name = None -> w_faults w = [] -> violationsTyped w u = true ->
  (forall e, w_cache w !! ratelimit_key name u = Some e ->
             exists l, ce_value e = VTimes l) ->
  let w1 := (clearUserLimits u w).2 in
  w_cache w1 !! ratelimit_key name u = w_cache w !! ratelimit_key name u /\
  (checkLimit u name None w1).1 = (checkLimit u name None w).1.
Proof.
  intros Hnone Hf Hvt Hty w1. subst w1.
  destruct (clearUserLimits_nofault u w Hf) as (w1 & Hrun & Hf1 & Hn1 & Hc1 & Hcache).
  rewrite Hrun. cbn [snd].
  assert (Hslot : w_cache w1 !! ratelimit_key name u = w_cache w !! ratelimit_key name u).
  { rewrite Hcache, lookup_foldl_delete.
    rewrite decide_False by (now apply command_bucket_not_cleared). reflexivity. }
  split; [exact Hslot|].
  assert (Hvt1 : violationsTyped w1 u = true).
  { unfold violationsTyped. rewrite Hcache, lookup_foldl_delete.
    rewrite decide_True; [reflexivity|].
    unfold clearedKeys. apply elem_of_app. right. left. }
  assert (Hty1 : forall e, w_cache w1 !! ratelimit_key name u = Some e ->
                           exists l, ce_value e = VTimes l).
  { intros e. rewrite Hslot. apply Hty. }
  destruct (limitFor name None) as [limit|] eqn:Hlimit.
  - rewrite (checkLimit_nofault u name None limit w1 Hlimit Hf1 Hvt1 Hty1).
    rewrite (checkLimit_nofault u name None limit w Hlimit Hf Hvt Hty).
    unfold storedTimes, nodecache_get. rewrite Hslot, Hn1.
    destruct (_ <=? _); reflexivity.
  - rewrite (checkLimit_inherited_nofault u name None w1 Hlimit Hf1 Hty1).
    rewrite (checkLimit_inherited_nofault u name None w Hlimit Hf Hty).
    reflexivity.
Qed.

Lemma clearUserLimits_bucket_witness :
  w_cache (clearUserLimits "u" afterOnePing).2 !! ratelimit_key "ping" "u"
  = w_cache afterOnePing !! ratelimit_key "ping" "u".
Proof.
  refine (proj1 (clearUserLimits_keeps_command_buckets "u" "ping" afterOnePing _ _ _ _)).
  - reflexivity.
  - reflexivity.
  - vm_compute. reflexivity.
  - intros e He. vm_compute in He. injection He as <-. eexists. reflexivity.
Defined.

(** *** Types that name a member of [Object.prototype] *)

Lemma limitFor_inherited type :
  type ∈ objectPrototypeMembers -> limitFor type None = None.
Proof.
  intros Hin. apply list_elem_of_In in Hin. unfold objectPrototypeMembers in Hin.
  repeat (destruct Hin as [<-|Hin]; [reflexivity|]). destruct Hin.
Qed.

(** X30. A type that names a member of [Object.prototype] is never
    limited: for [constructor], [toString] and the like the lookup
    [this.defaultLimits[type]] finds the inherited member instead of falling
    back to the limit of [messages], and every call, whatever their number
    and their instants, is let through with [remaining] and [resetTime]
    [NaN]; no violation is recorded. *)
Theorem inherited_type_is_never_limited (u type : string) (ts : list Z) (w : World) :
  type ∈ objectPrototypeMembers ->
  w_faults w = [] ->
  (forall e, w_cache w !! ratelimit_key type u = Some e -> exists l, ce_value e = VTimes l) ->
  exists w',
    run_seq (checkLimitAt u type None ts) w
    = (map (fun _ => Ok (mkLimitResult true None None (Some 0))) ts, w') /\
    w_cache w' !! violations_key u = w_cache w !! violations_key u.
Proof.
  intros Hin. pose proof (limitFor_inherited type Hin) as Hlimit.
  revert w. induction ts as [|t ts IH]; intros w Hf Hty.
  - exists w. split; reflexivity.
  - cbn [checkLimitAt map run_seq]. unfold at_time at 1.
    rewrite (checkLimit_inherited_nofault u type None (set_now t w) Hlimit Hf Hty).
    set (w1 := set_cache _ (set_now t w)).
    destruct (IH w1) as (w' & Hrun & Hviol).
    { exact Hf. }
    { intros e. subst w1. cbn. unfold nodecache_set. rewrite lookup_insert_eq.
      intros [= <-]. eexists. reflexivity. }
    unfold checkLimitAt in Hrun. rewrite Hrun.
    exists w'. split; [reflexivity|].
    rewrite Hviol. subst w1. cbn. unfold nodecache_set.
    rewrite lookup_insert_ne; [reflexivity|].
    intros E. symmetry in E. revert E. apply violations_ne_ratelimit.
Qed.

(** Twenty-five calls for the type [constructor] within 25 ms. *)
Lemma inherited_type_witness :
  exists w',
    run_seq (checkLimitAt "u" "constructor" None (map Z.of_nat (seq 0 25))) (world0 cfg0)
    = (map (fun _ => Ok (mkLimitResult true None None (Some 0))) (map Z.of_nat (seq 0 25)),
       w') /\
    w_cache w' !! violations_key "u" = w_cache (world0 cfg0) !! violations_key "u".
Proof.
  refine (inherited_type_is_never_limited "u" "constructor" (map Z.of_nat (seq 0 25))
            (world0 cfg0) _ _ _).
  - unfold objectPrototypeMembers. apply list_elem_of_In. now left.
  - reflexivity.
  - intros e He. cbn in He. rewrite lookup_empty in He. discriminate.
Defined.

(** ** Anti-spam: the edit distance *)

Lemma arraySet_end {A} (hole v : A) (a : list A) :
  arraySet hole (length a) v a = a ++ [v].
Proof.
  unfold arraySet. rewrite Nat.ltb_irrefl, Nat.sub_diag. reflexivity.
Qed.

Lemma arraySet_inside {A} (hole v : A) (i : nat) (a : list A) :
  (i < length a)%nat -> arraySet hole i v a = <[i := v]> a.
Proof.
  intros Hi. unfold arraySet.
  destruct (Nat.ltb_spec i (length a)); [reflexivity|lia].
Qed.

Section LevenshteinFacts.
Context {A : Type} `{EqDecision A}.
Variables str1 str2 : list A.
Let len1 := length str1.
Let len2 := length str2.
Let D := prefixDistance str1 str2.
Let partRow (i j : nat) : list Z := D i <$> seq 0 j.
Let rowsDone (i : nat) : list (list Z) := (fun i' => partRow i' (S len1)) <$> seq 0 i.
Let rowsFrom (i : nat) : list (list Z) :=
  (fun i' => [Z.of_nat i']) <$> seq i (S len2 - i).

Lemma prefixDistance_col0 i : D i 0 = Z.of_nat i.
Proof. destruct i; reflexivity. Qed.

Lemma prefixDistance_step i j :
  D (S i) (S j) =
    if bool_decide (str2 !! i = str1 !! j) then D i j
    else Z.min (D i j + 1) (Z.min (D (S i) j + 1) (D i (S j) + 1)).
Proof. reflexivity. Qed.

Lemma partRow_S i j : partRow i (S j) = partRow i j ++ [D i j].
Proof. unfold partRow. rewrite seq_S, fmap_app. reflexivity. Qed.

Lemma partRow_length i j : length (partRow i j) = j.
Proof. unfold partRow. now rewrite length_fmap, length_seq. Qed.

Lemma partRow_lookup i j k : (k < j)%nat -> partRow i j !! k = Some (D i k).
Proof.
  intros Hk. unfold partRow. rewrite list_lookup_fmap, lookup_seq_lt by exact Hk.
  reflexivity.
Qed.

Lemma rowsDone_length i : length (rowsDone i) = i.
Proof. unfold rowsDone. now rewrite length_fmap, length_seq. Qed.

Lemma rowsDone_S i : rowsDone (S i) = rowsDone i ++ [partRow i (S len1)].
Proof. unfold rowsDone. rewrite seq_S, fmap_app. reflexivity. Qed.

Lemma rowsFrom_cons i :
  (i <= len2)%nat -> rowsFrom i = [Z.of_nat i] :: rowsFrom (S i).
Proof.
  intros Hi. unfold rowsFrom.
  replace (S len2 - i)%nat with (S (S len2 - S i)) by lia. reflexivity.
Qed.

Lemma cellOf_done i rest i' j' :
  (i' < i)%nat -> (j' <= len1)%nat -> cellOf (rowsDone i ++ rest) i' j' = D i' j'.
Proof.
  intros Hi Hj. unfold cellOf.
  rewrite lookup_app_l by (now rewrite rowsDone_length).
  unfold rowsDone. rewrite list_lookup_fmap, lookup_seq_lt by exact Hi.
  cbn [fmap option_fmap option_map default from_option id Nat.add].
  rewrite partRow_lookup by lia. reflexivity.
Qed.

Lemma cellOf_current i j rest j' :
  (j' < j)%nat -> cellOf (rowsDone i ++ partRow i j :: rest) i j' = D i j'.
Proof.
  intros Hj. unfold cellOf.
  rewrite lookup_app_r by (now rewrite rowsDone_length).
  rewrite rowsDone_length, Nat.sub_diag. cbn.
  rewrite partRow_lookup by exact Hj. reflexivity.
Qed.

Lemma setCell_current i j v rest :
  setCell i j v (rowsDone i ++ partRow i j :: rest)
  = rowsDone i ++ (partRow i j ++ [v]) :: rest.
Proof.
  unfold setCell.
  assert (Hrow : (rowsDone i ++ partRow i j :: rest) !! i = Some (partRow i j)).
  { rewrite lookup_app_r by (now rewrite rowsDone_length).
    now rewrite rowsDone_length, Nat.sub_diag. }
  rewrite Hrow. cbn [default from_option id].
  rewrite <- (partRow_length i j) at 1. rewrite arraySet_end.
  rewrite arraySet_inside.
  - rewrite <- (rowsDone_length i) at 1.
    rewrite insert_app_r_alt by lia. now rewrite Nat.sub_diag.
  - rewrite length_app, rowsDone_length. cbn. lia.
Qed.

(** The inner loop fills the row [i] from column [j] on. *)
Lemma fill_row i k : forall j rest,
  (1 <= i)%nat -> (1 <= j)%nat -> (j + k <= S len1)%nat ->
  fold_left (fillCell str1 str2 i) (seq j k) (rowsDone i ++ partRow i j :: rest)
  = rowsDone i ++ partRow i (j + k) :: rest.
Proof.
  induction k as [|k IH]; intros j rest Hi Hj Hjk.
  - now rewrite Nat.add_0_r.
  - cbn [seq fold_left].
    assert (Hstep : fillCell str1 str2 i (rowsDone i ++ partRow i j :: rest) j
                    = rowsDone i ++ partRow i (S j) :: rest).
    { destruct i as [|i']; [lia|]. destruct j as [|j']; [lia|].
      unfold fillCell.
      replace (S i' - 1)%nat with i' by lia. replace (S j' - 1)%nat with j' by lia.
      rewrite (cellOf_current (S i') (S j')) by lia.
      rewrite !(cellOf_done (S i')) by lia.
      rewrite (partRow_S (S i') (S j')), prefixDistance_step.
      destruct (bool_decide _); now rewrite setCell_current. }
    rewrite Hstep, IH by lia. now rewrite Nat.add_succ_r.
Qed.

(** The outer loop completes the rows from [i] on. *)
Lemma fill_rows k : forall i,
  (1 <= i)%nat -> (i + k <= S len2)%nat ->
  fold_left (fun m i => fold_left (fillCell str1 str2 i) (seq 1 len1) m)
            (seq i k) (rowsDone i ++ rowsFrom i)
  = rowsDone (i + k) ++ rowsFrom (i + k).
Proof.
  induction k as [|k IH]; intros i Hi Hik.
  - now rewrite Nat.add_0_r.
  - cbn [seq fold_left].
    rewrite rowsFrom_cons by lia.
    change [Z.of_nat i] with ([Z.of_nat i] : list Z).
    replace [Z.of_nat i] with (partRow i 1)
      by (unfold partRow; cbn; now rewrite prefixDistance_col0).
    rewrite fill_row by lia.
    replace (rowsDone i ++ partRow i (1 + len1) :: rowsFrom (S i))
      with (rowsDone (S i) ++ rowsFrom (S i))
      by (rewrite rowsDone_S, <- app_assoc; reflexivity).
    rewrite IH by lia. now rewrite Nat.add_succ_r.
Qed.

Lemma init_rows n : forall k (m : list (list Z)),
  length m = k ->
  fold_left (fun m i => arraySet [] i [Z.of_nat i] m) (seq k n) m
  = m ++ ((fun i' => [Z.of_nat i']) <$> seq k n).
Proof.
  induction n as [|n IH]; intros k m Hk; subst k; cbn [seq fold_left].
  - now rewrite app_nil_r.
  - rewrite arraySet_end.
    rewrite IH by (rewrite length_app; cbn; lia).
    rewrite <- app_assoc. reflexivity.
Qed.

Lemma init_row0 n : forall k rest,
  (1 <= k)%nat ->
  fold_left (fun m j => setCell 0 j (Z.of_nat j) m) (seq k n)
            ((Z.of_nat <$> seq 0 k) :: rest)
  = (Z.of_nat <$> seq 0 (k + n)) :: rest.
Proof.
  induction n as [|n IH]; intros k rest Hk; cbn [seq fold_left].
  - now rewrite Nat.add_0_r.
  - assert (Hstep : setCell 0 k (Z.of_nat k) ((Z.of_nat <$> seq 0 k) :: rest)
                    = (Z.of_nat <$> seq 0 (S k)) :: rest).
    { unfold setCell.
      change (((Z.of_nat <$> seq 0 k) :: rest) !! 0%nat) with (Some (Z.of_nat <$> seq 0 k)).
      cbn [default from_option id].
      assert (Hrow : arraySet 0 k (Z.of_nat k) (Z.of_nat <$> seq 0 k)
                     = Z.of_nat <$> seq 0 (S k)).
      { rewrite seq_S, fmap_app. cbn [Nat.add fmap list_fmap].
        rewrite <- (arraySet_end 0 (Z.of_nat k) (Z.of_nat <$> seq 0 k)).
        now rewrite length_fmap, length_seq. }
      rewrite Hrow. reflexivity. }
    rewrite Hstep, IH by lia. now rewrite Nat.add_succ_r.
Qed.

(** The three loops compute the recurrence. *)
Lemma levenshteinDistance_prefix :
  levenshteinDistance str1 str2 = D len2 len1.
Proof.
  unfold levenshteinDistance. fold len1 len2.
  rewrite (init_rows (S len2) 0 []) by reflexivity. rewrite app_nil_l.
  cbn [seq fmap list_fmap].
  change (seq 0 (S len1)) with (0%nat :: seq 1 len1).
  cbn [fold_left].
  assert (H0 : setCell 0 0 (Z.of_nat 0)
                 ([Z.of_nat 0] :: ((fun i' => [Z.of_nat i']) <$> seq 1 len2))
               = (Z.of_nat <$> seq 0 1) :: ((fun i' => [Z.of_nat i']) <$> seq 1 len2))
    by reflexivity.
  rewrite H0, init_row0 by lia.
  replace ((Z.of_nat <$> seq 0 (1 + len1)) :: ((fun i' => [Z.of_nat i']) <$> seq 1 len2))
    with (rowsDone 1 ++ rowsFrom 1).
  2:{ unfold rowsDone, rowsFrom, partRow. cbn [seq fmap list_fmap app].
      replace (S len2 - 1)%nat with len2 by lia. reflexivity. }
  rewrite fill_rows by lia.
  replace (1 + len2)%nat with (S len2) by lia.
  apply cellOf_done; lia.
Qed.

Lemma prefixDistance_bounds i : forall j,
  Z.abs (Z.of_nat i - Z.of_nat j) <= D i j <= Z.max (Z.of_nat i) (Z.of_nat j).
Proof.
  induction i as [|i IHi]; intros j.
  - change (D 0 j) with (Z.of_nat j). lia.
  - induction j as [|j IHj].
    + rewrite prefixDistance_col0. lia.
    + rewrite prefixDistance_step.
      pose proof (IHi j). pose proof (IHi (S j)).
      destruct (bool_decide _); lia.
Qed.

Lemma prefixDistance_diag i :
  (forall k, (k < i)%nat -> str2 !! k = str1 !! k) -> D i i = 0.
Proof.
  induction i as [|i IH]; intros Hsame; [reflexivity|].
  rewrite prefixDistance_step, bool_decide_eq_true_2 by (apply Hsame; lia).
  apply IH. intros k Hk. apply Hsame. lia.
Qed.

Lemma prefixDistance_zero i :
  (i <= len2)%nat -> (i <= len1)%nat -> D i i = 0 -> take i str2 = take i str1.
Proof.
  induction i as [|i IH]; intros H2 H1 Hz; [reflexivity|].
  rewrite prefixDistance_step in Hz.
  pose proof (prefixDistance_bounds i i).
  pose proof (prefixDistance_bounds (S i) i).
  pose proof (prefixDistance_bounds i (S i)).
  destruct (bool_decide_reflect (str2 !! i = str1 !! i)) as [Heq|_]; [|lia].
  destruct (lookup_lt_is_Some_2 str2 i ltac:(fold len2; lia)) as [x Hx].
  rewrite (take_S_r str2 i x Hx).
  rewrite Heq in Hx. rewrite (take_S_r str1 i x Hx).
  f_equal. apply IH; [lia|lia|exact Hz].
Qed.

End LevenshteinFacts.

Lemma prefixDistance_sym {A} `{EqDecision A} (str1 str2 : list A) i :
  forall j, prefixDistance str1 str2 i j = prefixDistance str2 str1 j i.
Proof.
  induction i as [|i IHi]; intros j.
  - symmetry. apply prefixDistance_col0.
  - induction j as [|j IHj].
    + reflexivity.
    + rewrite !prefixDistance_step.
      rewrite (IHi j), (IHi (S j)), IHj.
      destruct (bool_decide_reflect (str2 !! i = str1 !! j)) as [Heq|Hne].
      * rewrite bool_decide_eq_true_2 by (symmetry; exact Heq). reflexivity.
      * rewrite bool_decide_eq_false_2 by (intros E; apply Hne; symmetry; exact E). lia.
Qed.

(** X6. The edit distance lies between the difference of the two lengths
    and the longer length; against the empty string it is the length of
    the other string. *)
Theorem levenshteinDistance_bounds {A} `{EqDecision A} (str1 str2 : list A) :
  Z.abs (Z.of_nat (length str1) - Z.of_nat (length str2))
    <= levenshteinDistance str1 str2
    <= Z.max (Z.of_nat (length str1)) (Z.of_nat (length str2))
  /\ levenshteinDistance str1 [] = Z.of_nat (length str1)
  /\ levenshteinDistance [] str2 = Z.of_nat (length str2).
Proof.
  rewrite !levenshteinDistance_prefix.
  pose proof (prefixDistance_bounds str1 str2 (length str2) (length str1)).
  split; [lia|]. split; [reflexivity|].
  apply prefixDistance_col0.
Qed.

(** X7. The edit distance of two strings is 0 exactly when they are the
    same string. *)
Theorem levenshteinDistance_zero_iff {A} `{EqDecision A} (str1 str2 : list A) :
  levenshteinDistance str1 str2 = 0 <-> str1 = str2.
Proof.
  rewrite levenshteinDistance_prefix. split.
  - intros Hz.
    pose proof (prefixDistance_bounds str1 str2 (length str2) (length str1)) as Hb.
    assert (Hlen : length str2 = length str1) by lia.
    rewrite Hlen in Hz.
    pose proof (prefixDistance_zero str1 str2 (length str1) ltac:(lia) ltac:(lia) Hz) as Ht.
    rewrite <- Hlen in Ht at 1. rewrite !firstn_all in Ht. congruence.
  - intros <-. apply prefixDistance_diag. reflexivity.
Qed.

(** X8. The edit distance does not depend on the order of its two
    arguments. *)
Theorem levenshteinDistance_sym {A} `{EqDecision A} (str1 str2 : list A) :
  levenshteinDistance str1 str2 = levenshteinDistance str2 str1.
Proof. rewrite !levenshteinDistance_prefix. apply prefixDistance_sym. Qed.

(** ** Anti-spam: the similarity of two texts *)

Lemma ratio_range (L x : Z) :
  0 < L -> 0 <= x <= L ->
  let s := ((inject_Z L - inject_Z x) / inject_Z L)%Q in
  (0 <= s)%Q /\ (s <= 1)%Q /\ ((s == 1)%Q <-> x = 0).
Proof.
  intros HL Hx s. subst s.
  destruct L as [|p|p]; try lia.
  unfold Qle, Qeq, Qdiv, Qmult, Qinv, Qminus, Qplus, Qopp, inject_Z. cbn.
  rewrite ?Z.mul_1_r, ?Pos.mul_1_r, ?Pos.mul_1_l.
  split; [nia|]. split; [nia|]. split; intros; nia.
Qed.

Lemma list_ascii_of_string_eq s1 s2 :
  String.list_ascii_of_string s1 = String.list_ascii_of_string s2 <-> s1 = s2.
Proof.
  split; [|now intros ->].
  intros H. rewrite <- (String.string_of_list_ascii_of_string s1),
                    <- (String.string_of_list_ascii_of_string s2).
  now rewrite H.
Qed.

Section SimilarityFacts.
Variable normalize : string -> string.
Let sim := Similarity.calculateSimilarity normalize.

Lemma similarity_no_text text1 text2 :
  text1 = "" \/ text2 = "" -> sim text1 text2 = 0%Q.
Proof.
  intros Hempty. unfold sim, Similarity.calculateSimilarity.
  destruct Hempty as [-> | ->].
  - reflexivity.
  - rewrite (bool_decide_eq_true_2 ("" = "")) by reflexivity.
    now rewrite orb_true_r.
Qed.

(** The value on two texts that differ after normalisation: the longer
    one has a length, and the value is the share of it that the edit
    distance leaves. *)
Lemma similarity_distinct text1 text2 :
  text1 <> "" -> text2 <> "" -> normalize text1 <> normalize text2 ->
  exists L d,
    0 < L /\ 0 < d <= L /\
    sim text1 text2 = ((inject_Z L - inject_Z d) / inject_Z L)%Q /\
    sim text2 text1 = ((inject_Z L - inject_Z d) / inject_Z L)%Q.
Proof.
  intros H1 H2 Hne. unfold sim, Similarity.calculateSimilarity.
  rewrite !(bool_decide_eq_false_2 (text1 = "")) by exact H1.
  rewrite !(bool_decide_eq_false_2 (text2 = "")) by exact H2.
  cbn [orb].
  set (n1 := String.list_ascii_of_string (normalize text1)).
  set (n2 := String.list_ascii_of_string (normalize text2)).
  assert (Hn : n1 <> n2) by (intros E; apply Hne; now apply list_ascii_of_string_eq).
  rewrite (bool_decide_eq_false_2 (n1 = n2)) by exact Hn.
  rewrite (bool_decide_eq_false_2 (n2 = n1)) by (intros E; apply Hn; now symmetry).
  assert (Hdist : forall a b : list Ascii.ascii, a <> b ->
            0 < levenshteinDistance a b
              <= Z.max (Z.of_nat (length a)) (Z.of_nat (length b))).
  { intros a b Hab. rewrite levenshteinDistance_prefix.
    pose proof (prefixDistance_bounds a b (length b) (length a)) as Hb.
    split; [|lia].
    destruct (Z.eq_dec (prefixDistance a b (length b) (length a)) 0) as [Hz|]; [|lia].
    exfalso. apply Hab.
    assert (Hlen : length b = length a) by lia.
    rewrite Hlen in Hz.
    pose proof (prefixDistance_zero a b (length a) ltac:(lia) ltac:(lia) Hz) as Ht.
    rewrite <- Hlen in Ht at 1. rewrite !firstn_all in Ht. congruence. }
  assert (Hpos : (0 < length n1 \/ 0 < length n2)%nat).
  { destruct n1, n2; cbn; try lia. now contradiction Hn. }
  destruct (Nat.ltb_spec (length n2) (length n1)) as [Hlt|Hge].
  - destruct (Nat.ltb_spec (length n1) (length n2)) as [Hlt'|_]; [lia|].
    rewrite !bool_decide_eq_false_2 by lia.
    exists (Z.of_nat (length n1)), (levenshteinDistance n1 n2).
    pose proof (Hdist n1 n2 Hn). repeat split; lia.
  - destruct (Nat.ltb_spec (length n1) (length n2)) as [Hlt'|Hge'].
    + rewrite !bool_decide_eq_false_2 by lia.
      exists (Z.of_nat (length n2)), (levenshteinDistance n2 n1).
      pose proof (Hdist n2 n1 ltac:(congruence)). repeat split; lia.
    + rewrite !bool_decide_eq_false_2 by lia.
      assert (Hlen : length n1 = length n2) by lia.
      exists (Z.of_nat (length n2)), (levenshteinDistance n2 n1).
      pose proof (Hdist n2 n1 ltac:(congruence)).
      split; [lia|]. split; [lia|]. split; [reflexivity|].
      rewrite Hlen. f_equal. f_equal. f_equal.
      rewrite !levenshteinDistance_prefix. apply prefixDistance_sym.
Qed.

Lemma similarity_equal text1 text2 :
  text1 <> "" -> text2 <> "" -> normalize text1 = normalize text2 ->
  sim text1 text2 = 1%Q.
Proof.
  intros H1 H2 Heq. unfold sim, Similarity.calculateSimilarity.
  rewrite (bool_decide_eq_false_2 (text1 = "")) by exact H1.
  rewrite (bool_decide_eq_false_2 (text2 = "")) by exact H2.
  cbn [orb]. rewrite Heq.
  now rewrite bool_decide_eq_true_2.
Qed.

Lemma similarity_range text1 text2 :
  (0 <= sim text1 text2)%Q /\ (sim text1 text2 <= 1)%Q.
Proof.
  destruct (decide (text1 = "")) as [E1|N1].
  { rewrite similarity_no_text by (now left). split; easy. }
  destruct (decide (text2 = "")) as [E2|N2].
  { rewrite similarity_no_text by (now right). split; easy. }
  destruct (decide (normalize text1 = normalize text2)) as [Heq|Hne].
  - rewrite (similarity_equal text1 text2 N1 N2 Heq). split; easy.
  - destruct (similarity_distinct text1 text2 N1 N2 Hne) as (L & d & HL & Hd & -> & _).
    destruct (ratio_range L d HL ltac:(lia)) as (H0 & H1 & _). split; assumption.
Qed.

End SimilarityFacts.

(** X9. [calculateSimilarity] is a similarity measure, whatever the
    normalisation of the string library does: its value lies between 0 and
    1, it does not depend on the order of the two texts, it is 0 when one
    text is empty, and for two texts that are not empty it is 1 exactly
    when they are equal after normalisation. *)
Theorem calculateSimilarity_is_a_similarity
    (normalize : string -> string) (text1 text2 : string) :
  let sim := Similarity.calculateSimilarity normalize in
  (0 <= sim text1 text2)%Q /\ (sim text1 text2 <= 1)%Q /\
  (sim text1 text2 == sim text2 text1)%Q /\
  (text1 = "" \/ text2 = "" -> sim text1 text2 = 0%Q) /\
  (text1 <> "" -> text2 <> "" ->
   (sim text1 text2 == 1)%Q <-> normalize text1 = normalize text2).
Proof.
  intros sim. subst sim.
  destruct (decide (text1 = "")) as [E1|N1].
  { rewrite (similarity_no_text normalize text1 text2) by (now left).
    rewrite (similarity_no_text normalize text2 text1) by (now right).
    repeat split; try easy. }
  destruct (decide (text2 = "")) as [E2|N2].
  { rewrite (similarity_no_text normalize text1 text2) by (now right).
    rewrite (similarity_no_text normalize text2 text1) by (now left).
    repeat split; try easy. }
  destruct (decide (normalize text1 = normalize text2)) as [Heq|Hne].
  - rewrite (similarity_equal normalize text1 text2 N1 N2 Heq).
    rewrite (similarity_equal normalize text2 text1 N2 N1 (eq_sym Heq)).
    repeat split; try easy. tauto.
  - destruct (similarity_range normalize text1 text2) as [H0 H1].
    split; [exact H0|]. split; [exact H1|].
    destruct (similarity_distinct normalize text1 text2 N1 N2 Hne)
      as (L & d & HL & Hd & -> & ->).
    destruct (ratio_range L d HL ltac:(lia)) as (_ & _ & Hone).
    split; [reflexivity|].
    split; [tauto|]. intros _ _. split.
    + intros E. apply Hone in E. lia.
    + intros E. contradiction.
Qed.

(** ** Anti-spam: repeated texts *)

Lemma Qgtb_lt (a b : Q) : Qgtb a b = true <-> (b < a)%Q.
Proof.
  unfold Qgtb. rewrite negb_true_iff. split.
  - intros H. apply Qnot_le_lt. intros Hle. apply Qle_bool_iff in Hle. congruence.
  - intros H. destruct (Qle_bool a b) eqn:E; [|reflexivity].
    apply Qle_bool_iff in E. exfalso. revert H. now apply Qle_not_lt.
Qed.

Lemma firstSimilar_found this rx text recent prev :
  In prev recent ->
  Qgtb (calculateSimilarity rx text (ct_content prev)) (maxSimilarity (settings this)) = true ->
  exists prev', In prev' recent /\
    firstSimilar this rx text recent = Some (calculateSimilarity rx text (ct_content prev')) /\
    Qgtb (calculateSimilarity rx text (ct_content prev')) (maxSimilarity (settings this)) = true.
Proof.
  induction recent as [|m recent IH]; intros Hin Hgt; [destruct Hin|].
  cbn [firstSimilar].
  destruct (Qgtb (calculateSimilarity rx text (ct_content m)) _) eqn:Hm.
  - exists m. split; [now left|]. split; [reflexivity|exact Hm].
  - destruct Hin as [->|Hin]; [congruence|].
    destruct (IH Hin Hgt) as (prev' & Hin' & Hfirst & Hgt').
    exists prev'. split; [now right|]. split; assumption.
Qed.

Lemma strlen_nonempty text : 10 <= strlen text -> text <> "".
Proof. intros H ->. unfold strlen in H. simpl in H. lia. Qed.

(** X10. A text that repeats, after normalisation, one the subject sent
    within the last five minutes is flagged as [repeated_content], with a
    severity above the threshold and at most 1, and the cache is left as
    it was: the repeated text is not recorded. *)
Theorem repeated_text_is_flagged
    (this : AntiSpam) (rx : TextMeasures) (normalize : string -> string)
    (u text : string) (w : World) (stored : list ContentEntry) (prev : ContentEntry) :
  (forall a b, calculateSimilarity rx a b = Similarity.calculateSimilarity normalize a b) ->
  (maxSimilarity (settings this) < 1)%Q ->
  w_faults w = [] -> 10 <= strlen text ->
  nodecache_get (w_now w) (w_cache w) (spam_content_key u) = Some (VContent stored) ->
  In prev stored -> w_now w - ct_timestamp prev < 300000 ->
  ct_content prev <> "" -> normalize (ct_content prev) = normalize text ->
  exists severity,
    checkRepeatedContent this rx u (Some text) w
      = (Ok (mkCheck true "repeated_content" (Some severity)), w) /\
    (maxSimilarity (settings this) < severity)%Q /\ (severity <= 1)%Q.
Proof.
  intros Hsim Hmax Hf Hlen Hslot Hin Hrecent Hcontent Hnorm.
  pose proof (strlen_nonempty text Hlen) as Htext.
  set (recent := List.filter (fun msg => w_now w - ct_timestamp msg <? 300000) stored).
  assert (Hin' : In prev recent).
  { apply filter_In. split; [exact Hin|]. apply Z.ltb_lt. exact Hrecent. }
  assert (Hgt : Qgtb (calculateSimilarity rx text (ct_content prev))
                     (maxSimilarity (settings this)) = true).
  { apply Qgtb_lt. rewrite Hsim.
    rewrite (similarity_equal normalize text (ct_content prev) Htext Hcontent (eq_sym Hnorm)).
    exact Hmax. }
  destruct (firstSimilar_found this rx text recent prev Hin' Hgt)
    as (prev' & _ & Hfirst & Hgt').
  exists (calculateSimilarity rx text (ct_content prev')).
  split; [|split].
  - unfold checkRepeatedContent, no_text.
    rewrite bool_decide_eq_false_2 by exact Htext.
    destruct (Z.ltb_spec (strlen text) 10); [lia|]. cbn [orb].
    rewrite (bind_ok _ _ _ _ _ (cache_get_nofault _ w Hf)).
    rewrite Hslot. unfold as_content.
    unfold bind at 1. unfold ret at 1.
    unfold bind at 1. unfold date_now at 1. unfold gets at 1.
    fold recent. rewrite Hfirst. reflexivity.
  - apply Qgtb_lt. exact Hgt'.
  - rewrite Hsim. apply similarity_range.
Qed.

Lemma repeated_text_witness :
  exists severity,
    checkRepeatedContent antiSpam0 rxPlain "u" (Some helloWorld) (set_now 5 afterHello)
      = (Ok (mkCheck true "repeated_content" (Some severity)), set_now 5 afterHello) /\
    (8 # 10 < severity)%Q /\ (severity <= 1)%Q.
Proof.
  refine (repeated_text_is_flagged antiSpam0 rxPlain (fun s => s) "u" helloWorld
            (set_now 5 afterHello) [mkContentEntry helloWorld 0]
            (mkContentEntry helloWorld 0) _ _ _ _ _ _ _ _ _).
  - intros a b. reflexivity.
  - reflexivity.
  - reflexivity.
  - vm_compute. discriminate.
  - vm_compute. reflexivity.
  - left. reflexivity.
  - cbn. lia.
  - discriminate.
  - reflexivity.
Defined.

Lemma keepLast20_length {A} (l : list A) : (length (keepLast20 l) <= 20)%nat.
Proof.
  unfold keepLast20. destruct (Nat.ltb_spec 20 (length l)); [|lia].
  rewrite length_drop. lia.
Qed.

Lemma keepLast20_last {A} (l : list A) (x : A) : last (keepLast20 (l ++ [x])) = Some x.
Proof.
  unfold keepLast20. destruct (Nat.ltb_spec 20 (length (l ++ [x]))) as [Hlt|_].
  - rewrite length_app in *. cbn [length] in *.
    rewrite drop_app_le by lia. apply last_snoc.
  - apply last_snoc.
Qed.

Lemma keepLast20_Forall {A} (P : A -> Prop) (l : list A) :
  Forall P l -> Forall P (keepLast20 l).
Proof.
  intros H. unfold keepLast20. destruct (_ <? _)%nat; [|exact H].
  now apply Forall_drop.
Qed.

(** X11. What [checkRepeatedContent] leaves in the cache: a text it flags
    is not recorded; a text it lets through is recorded last, and the
    record holds at most 20 texts, none older than five minutes. *)
Theorem checkRepeatedContent_record
    (this : AntiSpam) (rx : TextMeasures) (u text : string)
    (w w' : World) (c : Check) :
  checkRepeatedContent this rx u (Some text) w = (Ok c, w') ->
  10 <= strlen text ->
  if ck_isSpam c then w_cache w' = w_cache w
  else exists l expires,
    w_cache w' !! spam_content_key u = Some (mkCacheEntry (VContent l) expires) /\
    (length l <= 20)%nat /\
    last l = Some (mkContentEntry text (w_now w)) /\
    Forall (fun m => w_now w - ct_timestamp m < 300000) l.
Proof.
  intros Hrun Hlen.
  pose proof (strlen_nonempty text Hlen) as Htext.
  unfold checkRepeatedContent, no_text in Hrun.
  rewrite bool_decide_eq_false_2 in Hrun by exact Htext.
  destruct (Z.ltb_spec (strlen text) 10); [lia|]. cbn [orb] in Hrun.
  apply bind_inv_ok in Hrun as (v & w1 & Hget & Hrun).
  apply cache_get_inv in Hget as (-> & Hs1 & Hc1 & _).
  apply bind_inv_ok in Hrun as (previous & w2 & Has & Hrun).
  assert (w2 = w1) as ->.
  { destruct (nodecache_get _ _ _) as [[]|]; cbn in Has; try discriminate;
      now injection Has. }
  apply bind_inv_ok in Hrun as (now & w3 & Hnow & Hrun).
  injection Hnow as <- <-.
  assert (Hnow1 : w_now w1 = w_now w) by apply Hs1.
  destruct (firstSimilar this rx text _) as [similarity|] eqn:Hfirst.
  - injection Hrun as <- <-. cbn. exact Hc1.
  - apply bind_inv_ok in Hrun as ([] & w4 & Hset & Hrun).
    injection Hrun as <- <-. cbn [ck_isSpam notSpam].
    apply cache_set_inv in Hset as (Hc4 & _ & _).
    eexists _, _. split.
    { rewrite Hc4. unfold nodecache_set. rewrite lookup_insert_eq. reflexivity. }
    split; [apply keepLast20_length|].
    split; [rewrite Hnow1; apply keepLast20_last|].
    apply keepLast20_Forall. apply Forall_app. split.
    + apply List.Forall_forall. intros m Hm. apply filter_In in Hm as [_ Hm].
      apply Z.ltb_lt in Hm. rewrite <- Hnow1. exact Hm.
    + constructor; [|constructor]. cbn. lia.
Qed.

Lemma checkRepeatedContent_record_witness :
  exists l expires,
    w_cache afterHello !! spam_content_key "u" = Some (mkCacheEntry (VContent l) expires) /\
    (length l <= 20)%nat /\
    last l = Some (mkContentEntry helloWorld 0) /\
    Forall (fun m => 0 - ct_timestamp m < 300000) l.
Proof.
  refine (checkRepeatedContent_record antiSpam0 rxPlain "u" helloWorld
            (set_now 0 (world0 cfg0)) afterHello notSpam _ _).
  - vm_compute. reflexivity.
  - vm_compute. discriminate.
Defined.

(** ** Anti-spam: the violation record *)

Lemma keepsWorking_ret {A} (a : A) : keepsWorking (ret a).
Proof. intros w Hf. exact Hf. Qed.

Lemma keepsWorking_throw {A} e : keepsWorking (@throw World A e).
Proof. intros w Hf. exact Hf. Qed.

Lemma keepsWorking_bind {A B} (m : JS A) (k : A -> JS B) :
  keepsWorking m -> (forall a, keepsWorking (k a)) -> keepsWorking (bind m k).
Proof.
  intros Hm Hk w Hf. unfold bind. specialize (Hm w Hf).
  destruct (m w) as [[a|e] w1]; [apply Hk|]; exact Hm.
Qed.

Lemma keepsWorking_try_catch {A} (m : JS A) (h : JsError -> JS A) :
  keepsWorking m -> (forall e, keepsWorking (h e)) -> keepsWorking (try_catch m h).
Proof.
  intros Hm Hh w Hf. unfold try_catch. specialize (Hm w Hf).
  destruct (m w) as [[a|e] w1]; [|apply Hh]; exact Hm.
Qed.

Lemma keepsWorking_gets {A} (f : World -> A) : keepsWorking (gets f).
Proof. intros w Hf. exact Hf. Qed.

Lemma keepsWorking_logger l : keepsWorking (logger l).
Proof. intros w Hf. exact Hf. Qed.

Lemma keepsWorking_cache_get k : keepsWorking (cache_get k).
Proof. intros w Hf. rewrite cache_get_nofault by exact Hf. exact Hf. Qed.

Lemma keepsWorking_cache_set k v ttl : keepsWorking (cache_set k v ttl).
Proof. intros w Hf. rewrite cache_set_nofault by exact Hf. exact Hf. Qed.

Lemma keepsWorking_unawaited {A} (m : JS A) :
  keepsWorking m -> keepsWorking (unawaited m).
Proof.
  intros Hm w Hf. unfold unawaited. specialize (Hm w Hf).
  destruct (m w) as [r w1]. exact Hm.
Qed.

Ltac working :=
  repeat first
    [ apply keepsWorking_ret | apply keepsWorking_throw | apply keepsWorking_gets
    | apply keepsWorking_logger | apply keepsWorking_cache_get
    | apply keepsWorking_cache_set
    | apply keepsWorking_unawaited
    | apply keepsWorking_bind; [|intros ?]
    | apply keepsWorking_try_catch; [|intros ?]
    | match goal with
      | |- keepsWorking (if ?b then _ else _) => destruct b
      | |- keepsWorking (match ?x with _ => _ end) => destruct x
      end ].

Lemma keepsWorking_checkSpam this rx u messageId context :
  keepsWorking (checkSpam this rx u messageId context).
Proof.
  unfold checkSpam, allChecks, checkMessageFrequency, checkRepeatedContent,
    recordSpamViolation, determineAction, as_freq, as_content, as_spam_violations,
    date_now.
  working.
Qed.

Lemma recentViolations_idem now l :
  recentViolations now (recentViolations now l) = recentViolations now l.
Proof.
  unfold recentViolations. induction l as [|x l IH]; [reflexivity|].
  cbn. destruct (now - sv_timestamp x <? 3600000) eqn:E; [|exact IH].
  cbn. rewrite E. now rewrite IH.
Qed.

Lemma checkMessageFrequency_inv this u messageId w c w' :
  checkMessageFrequency this u messageId w = (Ok c, w') ->
  sameOutside w w' /\
  w_cache w' !! spam_violations_key u = w_cache w !! spam_violations_key u.
Proof.
  unfold checkMessageFrequency. intros H.
  apply bind_inv_ok in H as (v & w1 & Hget & H).
  apply cache_get_inv in Hget as (_ & Hs1 & Hc1 & _).
  apply bind_inv_ok in H as (messages & w2 & Has & H).
  assert (w2 = w1) as ->.
  { destruct v as [[]|]; cbn in Has; try discriminate; now injection Has. }
  apply bind_inv_ok in H as (now & w3 & Hnow & H). injection Hnow as <- <-.
  apply bind_inv_ok in H as ([] & w4 & Hset & H).
  apply cache_set_inv in Hset as (Hc4 & Hs4 & _).
  assert (w' = w4) as -> by (destruct (_ <? _); now injection H).
  split; [eapply sameOutside_trans; eassumption|].
  rewrite Hc4, <- Hc1. unfold nodecache_set. now rewrite lookup_insert_ne.
Qed.

Lemma checkRepeatedContent_inv this rx u text w c w' :
  checkRepeatedContent this rx u text w = (Ok c, w') ->
  sameOutside w w' /\
  w_cache w' !! spam_violations_key u = w_cache w !! spam_violations_key u.
Proof.
  unfold checkRepeatedContent. intros H.
  destruct text as [t|]; [|injection H as <- <-; split; [apply sameOutside_refl|reflexivity]].
  destruct (_ || _); [injection H as <- <-; split; [apply sameOutside_refl|reflexivity]|].
  apply bind_inv_ok in H as (v & w1 & Hget & H).
  apply cache_get_inv in Hget as (_ & Hs1 & Hc1 & _).
  apply bind_inv_ok in H as (previous & w2 & Has & H).
  assert (w2 = w1) as ->.
  { destruct v as [[]|]; cbn in Has; try discriminate; now injection Has. }
  apply bind_inv_ok in H as (now & w3 & Hnow & H). injection Hnow as <- <-.
  destruct (firstSimilar _ _ _ _).
  - injection H as <- <-. split; [exact Hs1|now rewrite Hc1].
  - apply bind_inv_ok in H as ([] & w4 & Hset & H). injection H as <- <-.
    apply cache_set_inv in Hset as (Hc4 & Hs4 & _).
    split; [eapply sameOutside_trans; eassumption|].
    rewrite Hc4, <- Hc1. unfold nodecache_set. now rewrite lookup_insert_ne.
Qed.

Lemma allChecks_inv this rx u messageId text w cs w' :
  allChecks this rx u messageId text w = (Ok cs, w') ->
  sameOutside w w' /\
  w_cache w' !! spam_violations_key u = w_cache w !! spam_violations_key u.
Proof.
  unfold allChecks. intros H.
  apply bind_inv_ok in H as (c1 & w1 & H1 & H).
  apply checkMessageFrequency_inv in H1 as [Hs1 Hc1].
  apply bind_inv_ok in H as (c2 & w2 & H2 & H).
  apply checkRepeatedContent_inv in H2 as [Hs2 Hc2].
  injection H as _ <-.
  split; [eapply sameOutside_trans; eassumption|congruence].
Qed.

Lemma recordSpamViolation_inv u indicators severity w w' :
  recordSpamViolation u indicators severity w = (Ok tt, w') ->
  exists earlier,
    w_cache w' !! spam_violations_key u
      = Some (mkCacheEntry
                (VSpamViolations
                   (earlier ++ [mkSpamViolation (w_now w) (map ck_reason indicators) severity]))
                (w_now w + 3600 * 1000)) /\
    Forall (fun v => w_now w - sv_timestamp v < 3600000) earlier /\
    sameOutside w w'.
Proof.
  unfold recordSpamViolation. intros H.
  apply bind_inv_ok in H as (v & w1 & Hget & H).
  apply cache_get_inv in Hget as (_ & Hs1 & Hc1 & _).
  apply bind_inv_ok in H as (violations & w2 & Has & H).
  assert (w2 = w1) as ->.
  { destruct v as [[]|]; cbn in Has; try discriminate; now injection Has. }
  apply bind_inv_ok in H as (now & w3 & Hnow & H). injection Hnow as <- <-.
  apply bind_inv_ok in H as ([] & w4 & Hset & H).
  apply cache_set_inv in Hset as (Hc4 & Hs4 & _).
  injection H as <-.
  assert (Hnow1 : w_now w1 = w_now w) by apply Hs1.
  exists (recentViolations (w_now w) violations).
  split; [|split].
  - cbn. rewrite Hc4. unfold nodecache_set. rewrite lookup_insert_eq. cbn.
    rewrite Hnow1. unfold recentViolations. rewrite List.filter_app. cbn.
    replace (w_now w - w_now w) with 0 by lia. reflexivity.
  - apply List.Forall_forall. intros x Hx. apply filter_In in Hx as [_ Hx].
    now apply Z.ltb_lt.
  - cbn. destruct Hs1 as (? & ? & ? & ? & ? & ?), Hs4 as (? & ? & ? & ? & ? & ?).
    repeat split; cbn; congruence.
Qed.

Lemma determineAction_inv this u severity w r w' :
  determineAction this u severity w = (r, w') ->
  w_now w' = w_now w /\ w_cache w' = w_cache w.
Proof.
  unfold determineAction, bind. intros H.
  destruct (cache_get (spam_violations_key u) w) as [[v|e] w1] eqn:Hget.
  - apply cache_get_inv in Hget as (_ & Hs1 & Hc1 & _).
    destruct v as [[]|]; cbn in H; injection H as _ <-; split;
      solve [apply Hs1 | exact Hc1].
  - injection H as _ <-.
    unfold cache_get, cache_call in Hget.
    destruct (w_faults w) as [|[] fs]; try discriminate.
    injection Hget as _ <-. split; reflexivity.
Qed.

Lemma getUserViolations_of_entry u w l expires :
  w_faults w = [] ->
  w_cache w !! spam_violations_key u = Some (mkCacheEntry (VSpamViolations l) expires) ->
  w_now w <= expires ->
  Forall (fun v => w_now w - sv_timestamp v < 3600000) l ->
  (getUserViolations u w).1 = Ok l.
Proof.
  intros Hf Hslot Hvis Hrecent. unfold getUserViolations.
  rewrite (bind_ok _ _ _ _ _ (cache_get_nofault _ w Hf)).
  unfold nodecache_get. rewrite Hslot. cbn [ce_expires ce_value].
  replace (w_now w <=? expires) with true by (symmetry; apply Z.leb_le; lia).
  rewrite orb_true_r. cbn. f_equal.
  unfold recentViolations. apply forallb_filter_id.
  apply forallb_forall. intros x Hx.
  apply Z.ltb_lt. eapply List.Forall_forall in Hrecent; eassumption.
Qed.

(** X12. A spam verdict is on record: right after [checkSpam] reports spam,
    [getUserViolations] returns the subject's violations of the trailing
    hour with this one last, carrying the severity and the indicators of
    the verdict; after [clearUserViolations] it returns none. *)
Theorem spam_verdict_is_recorded
    (this : AntiSpam) (rx : TextMeasures) (u : string) (messageId : option string)
    (context : SpamContext) (w w' : World) (r : SpamResult) :
  w_faults w = [] ->
  checkSpam this rx u messageId context w = (Ok r, w') -> isSpam r = true ->
  exists severity earlier,
    sr_severity r = Some severity /\
    (getUserViolations u w').1
      = Ok (earlier ++ [mkSpamViolation (w_now w) (sr_indicators r) severity]) /\
    (getUserViolations u (clearUserViolations u w').2).1 = Ok [].
Proof.
  intros Hf Hrun Hspam.
  pose proof (keepsWorking_checkSpam this rx u messageId context w Hf) as Hf'.
  rewrite Hrun in Hf'. cbn [snd] in Hf'.
  unfold checkSpam, try_catch in Hrun.
  match type of Hrun with
  | context [match ?body w with _ => _ end] => destruct (body w) as [[res|e] w1] eqn:Hbody
  end.
  2:{ cbn in Hrun. injection Hrun as <- <-. discriminate Hspam. }
  injection Hrun as -> ->.
  destruct (bool_decide _).
  { injection Hbody as <- <-. discriminate Hspam. }
  apply bind_inv_ok in Hbody as (cfg & w2 & Hcfg & Hbody).
  injection Hcfg as _ <-.
  destruct (_ && _ && _).
  { injection Hbody as <- <-. discriminate Hspam. }
  apply bind_inv_ok in Hbody as (checks & w3 & Hchecks & Hbody).
  apply allChecks_inv in Hchecks as [Hs3 _].
  destruct (bool_decide _).
  { injection Hbody as <- <-. discriminate Hspam. }
  apply bind_inv_ok in Hbody as ([] & w4 & Hrec & Hbody).
  apply recordSpamViolation_inv in Hrec as (earlier & Hslot & Hrecent & Hs4).
  apply bind_inv_ok in Hbody as (action & w5 & Hact & Hbody).
  injection Hbody as <- <-.
  unfold unawaited in Hact.
  destruct (determineAction this u _ w4) as [settles w6] eqn:Hdet.
  injection Hact as _ <-.
  apply determineAction_inv in Hdet as [Hn6 Hc6].
  assert (Hn3 : w_now w3 = w_now w) by apply Hs3.
  assert (Hn4 : w_now w4 = w_now w3) by apply Hs4.
  rewrite Hn3 in Hslot, Hrecent.
  eexists _, earlier. cbn [sr_severity sr_indicators].
  split; [reflexivity|]. split.
  - apply (getUserViolations_of_entry u w6 _ (w_now w + 3600 * 1000) Hf').
    + rewrite Hc6. exact Hslot.
    + rewrite Hn6, Hn4, Hn3. lia.
    + rewrite Hn6, Hn4, Hn3. apply Forall_app. split; [exact Hrecent|].
      constructor; [|constructor]. cbn. lia.
  - unfold clearUserViolations.
    rewrite (bind_ok _ _ _ _ _ (cache_del_nofault _ w6 Hf')). cbn [ret snd].
    unfold getUserViolations.
    rewrite (bind_ok _ _ (set_cache _ w6) _ _ (cache_get_nofault _ (set_cache _ w6) Hf')).
    unfold nodecache_get. cbn [w_cache set_cache]. rewrite lookup_delete_eq.
    reflexivity.
Qed.

Lemma spam_verdict_witness :
  exists severity earlier,
    Some (6 # 5) = Some severity /\
    (getUserViolations "u"
       (at_time 5 (checkSpam antiSpam0 rx0 "u" None emptyContext) afterFiveMessages).2).1
      = Ok (earlier ++ [mkSpamViolation 5 ["message_frequency"] severity]) /\
    (getUserViolations "u"
       (clearUserViolations "u"
          (at_time 5 (checkSpam antiSpam0 rx0 "u" None emptyContext) afterFiveMessages).2).2).1
      = Ok [].
Proof.
  refine (spam_verdict_is_recorded antiSpam0 rx0 "u" None emptyContext
            (set_now 5 afterFiveMessages) _
            (mkSpamResult true None (Some (6 # 5)) ["message_frequency"]
               (Some (Promise (Ok "throttle"))) (Some 0%Q) None) _ _ _).
  - reflexivity.
  - vm_compute. reflexivity.
  - reflexivity.
Defined.

(** ** Anti-spam: acting on a verdict *)

Lemma checkSpam_action_shape this rx userId messageId context w r w' :
  checkSpam this rx userId messageId context w = (Ok r, w') ->
  sr_action r = None \/ exists settles, sr_action r = Some (Promise settles).
Proof.
  intros H. destruct (isSpam r) eqn:Hspam.
  - right. eapply checkSpam_action_unawaited; eassumption.
  - left. unfold checkSpam, try_catch in H.
    match type of H with
    | context [match ?body w with _ => _ end] => destruct (body w) as [[res|e] w1] eqn:Hbody
    end.
    2:{ cbn in H. injection H as <- <-. reflexivity. }
    injection H as -> ->.
    destruct (bool_decide _).
    { injection Hbody as <- <-. reflexivity. }
    apply bind_inv_ok in Hbody as (cfg & w2 & _ & Hbody).
    destruct (_ && _ && _).
    { injection Hbody as <- <-. reflexivity. }
    apply bind_inv_ok in Hbody as (checks & w3 & _ & Hbody).
    destruct (bool_decide _).
    { injection Hbody as <- <-. reflexivity. }
    apply bind_inv_ok in Hbody as ([] & w4 & _ & Hbody).
    apply bind_inv_ok in Hbody as (action & w5 & _ & Hbody).
    injection Hbody as <- <-. discriminate Hspam.
Qed.

(** X13. [processSpamAction] does nothing with a verdict of [checkSpam]:
    whatever the verdict, no notice is sent and nobody is removed, because
    the action it carries is the promise of [determineAction] and none of
    the three cases of the [switch] is that object. *)
Theorem processSpamAction_ignores_checkSpam
    (this : AntiSpam) (rx : TextMeasures) (u : string) (messageId : option string)
    (context : SpamContext) (w w' : World) (r : SpamResult)
    (removeFails : bool) (actionContext : ActionContext) :
  checkSpam this rx u messageId context w = (Ok r, w') ->
  processSpamAction removeFails r actionContext = [].
Proof.
  intros H. unfold processSpamAction.
  destruct (checkSpam_action_shape _ _ _ _ _ _ _ _ H) as [-> | [settles ->]];
    reflexivity.
Qed.

Lemma processSpamAction_witness :
  processSpamAction false
    (mkSpamResult true None (Some (6 # 5)) ["message_frequency"]
       (Some (Promise (Ok "throttle"))) (Some 0%Q) None)
    (mkActionContext "team@g.us" "u" true) = [].
Proof.
  refine (processSpamAction_ignores_checkSpam antiSpam0 rx0 "u" None emptyContext
            (set_now 5 afterFiveMessages) _ _ false _ _).
  vm_compute. reflexivity.
Defined.

(** ** Anti-spam: bursts of messages *)

Section FrequencyBurst.
Variables (this : AntiSpam) (u : string) (burst : list Z).
Let W := timeWindow (settings this).
Hypothesis window_fits : W <= 60000.
Hypothesis close : forall a b, In a burst -> In b burst -> b - a < W.

(** The slot holds [stored], written at an instant of the burst. *)
Let slotOk (w : World) (stored : list FreqEntry) : Prop :=
  (w_cache w !! spam_freq_key u = None /\ stored = []) \/
  (exists tl, In tl burst /\
     w_cache w !! spam_freq_key u = Some (mkCacheEntry (VFreq stored) (tl + 60 * 1000))).

Lemma frequency_step w t stored :
  w_faults w = [] -> slotOk w stored ->
  Forall (fun e => In (fe_timestamp e) burst) stored -> In t burst ->
  exists c w',
    at_time t (checkMessageFrequency this u None) w = (Ok c, w') /\
    ck_isSpam c = (maxMessages (settings this) <? Z.of_nat (S (length stored))) /\
    w_faults w' = [] /\ slotOk w' (stored ++ [mkFreqEntry t None]).
Proof.
  intros Hf Hslot Hstored Ht.
  assert (Hseen : exists seen,
            as_freq (nodecache_get t (w_cache w) (spam_freq_key u)) (set_now t w)
              = (Ok seen, set_now t w) /\
            List.filter (fun msg => t - fe_timestamp msg <? W) seen = stored).
  { destruct Hslot as [[Hnone ->]|(tl & Htl & Hs)].
    - exists []. unfold nodecache_get. rewrite Hnone. split; reflexivity.
    - unfold nodecache_get. rewrite Hs. cbn [ce_expires ce_value].
      pose proof (close tl t Htl Ht).
      replace (t <=? tl + 60 * 1000) with true by (symmetry; apply Z.leb_le; lia).
      rewrite orb_true_r. exists stored. split; [reflexivity|].
      apply forallb_filter_id, forallb_forall. intros e He.
      rewrite List.Forall_forall in Hstored. apply Z.ltb_lt.
      apply close; [apply Hstored, He|exact Ht]. }
  destruct Hseen as (seen & Has & Hfilter).
  unfold at_time, checkMessageFrequency.
  rewrite (bind_ok _ _ (set_now t w) _ _ (cache_get_nofault _ (set_now t w) Hf)).
  cbn [w_now w_cache set_now].
  rewrite (bind_ok _ _ _ _ _ Has).
  unfold bind at 1. unfold date_now at 1. unfold gets at 1. cbn [w_now set_now].
  fold W. rewrite Hfilter.
  rewrite (bind_ok _ _ _ _ _ (cache_set_nofault _ _ _ (set_now t w) Hf)).
  rewrite length_app. cbn [length].
  replace (length stored + 1)%nat with (S (length stored)) by lia.
  destruct (maxMessages (settings this) <? Z.of_nat (S (length stored))) eqn:Hmany.
  - eexists _, _. split; [reflexivity|]. split; [reflexivity|]. split; [exact Hf|].
    right. exists t. split; [exact Ht|]. cbn. unfold nodecache_set.
    rewrite lookup_insert_eq. reflexivity.
  - eexists _, _. split; [reflexivity|]. split; [reflexivity|]. split; [exact Hf|].
    right. exists t. split; [exact Ht|]. cbn. unfold nodecache_set.
    rewrite lookup_insert_eq. reflexivity.
Qed.

Lemma frequency_run ts : forall w stored,
  w_faults w = [] -> slotOk w stored ->
  Forall (fun e => In (fe_timestamp e) burst) stored ->
  (forall t, In t ts -> In t burst) ->
  exists cs w',
    run_seq (checkFrequencyAt this u ts) w = (map Ok cs, w') /\
    map ck_isSpam cs
    = map (fun k => maxMessages (settings this) <? Z.of_nat (S k))
          (seq (length stored) (length ts)).
Proof.
  induction ts as [|t ts IH]; intros w stored Hf Hslot Hstored Hts.
  - exists [], w. split; reflexivity.
  - destruct (frequency_step w t stored Hf Hslot Hstored (Hts t (or_introl eq_refl)))
      as (c & w1 & Hrun & Hspam & Hf1 & Hslot1).
    destruct (IH w1 (stored ++ [mkFreqEntry t None]) Hf1 Hslot1) as (cs & w2 & Hrun2 & Hcs).
    + apply Forall_app. split; [exact Hstored|].
      constructor; [apply Hts; now left|constructor].
    + intros t' Ht'. apply Hts. now right.
    + exists (c :: cs), w2. cbn [checkFrequencyAt map run_seq]. rewrite Hrun.
      unfold checkFrequencyAt in Hrun2. rewrite Hrun2.
      split; [reflexivity|].
      cbn [map length seq]. rewrite Hspam, Hcs.
      rewrite length_app. cbn [length].
      replace (length stored + 1)%nat with (S (length stored)) by lia. reflexivity.
Qed.

End FrequencyBurst.

(** X27. A burst of messages: when a subject with no frequency record
    sends messages at instants that lie within one time window of each
    other (the window being at most the 60 seconds the record is kept),
    the first [maxMessages] of them pass the frequency check and every
    further one is flagged. *)
Theorem frequency_burst_is_flagged
    (this : AntiSpam) (u : string) (ts : list Z) (w : World) :
  w_faults w = [] -> w_cache w !! spam_freq_key u = None ->
  timeWindow (settings this) <= 60000 ->
  (forall a b, In a ts -> In b ts -> b - a < timeWindow (settings this)) ->
  exists cs w',
    run_seq (checkFrequencyAt this u ts) w = (map Ok cs, w') /\
    map ck_isSpam cs
    = map (fun k => maxMessages (settings this) <? Z.of_nat (S k)) (seq 0 (length ts)).
Proof.
  intros Hf Hnone Hfits Hclose.
  apply (frequency_run this u ts Hfits Hclose ts w []).
  - exact Hf.
  - left. split; [exact Hnone|reflexivity].
  - constructor.
  - auto.
Qed.

Lemma frequency_burst_witness :
  exists cs w',
    run_seq (checkFrequencyAt antiSpam0 "u" [0; 1; 2; 3; 4; 5; 6]) (world0 cfg0)
      = (map Ok cs, w') /\
    map ck_isSpam cs = [false; false; false; false; false; true; true].
Proof.
  refine (frequency_burst_is_flagged antiSpam0 "u" [0; 1; 2; 3; 4; 5; 6] (world0 cfg0)
            _ _ _ _).
  - reflexivity.
  - reflexivity.
  - cbn. lia.
  - cbn. intros a b Ha Hb.
    repeat (destruct Ha as [<-|Ha]; [repeat (destruct Hb as [<-|Hb]; [lia|]); destruct Hb|]).
    destruct Ha.
Defined.

(** ** Anti-spam: the whitelist *)

(** X28. The whitelist: a subject that was added is not checked at all
    ([checkSpam] answers [whitelisted] and touches neither the cache nor
    the log, whatever the cache would do); the verdicts on every other
    subject are what they were; and removing a subject that was not on
    the list before the adding gives back the instance as it was. *)
Theorem whitelist_exempts_the_subject
    (this : AntiSpam) (rx : TextMeasures) (u : string) (messageId : option string)
    (context : SpamContext) (w : World) :
  checkSpam (addToWhitelist u this) rx u messageId context w
    = (Ok (mkSpamResult false (Some "whitelisted") None [] None None None), w) /\
  (forall u', u' <> u ->
     checkSpam (addToWhitelist u this) rx u' messageId context w
     = checkSpam this rx u' messageId context w) /\
  (u ∉ whitelistedUsers this -> removeFromWhitelist u (addToWhitelist u this) = this).
Proof.
  split; [|split].
  - unfold checkSpam, try_catch, addToWhitelist. cbn [whitelistedUsers].
    rewrite bool_decide_eq_true_2; [reflexivity|].
    apply elem_of_union. left. now apply elem_of_singleton.
  - intros u' Hne. unfold checkSpam, addToWhitelist. cbn [whitelistedUsers settings].
    assert (Hsame : bool_decide (u' ∈ {[u]} ∪ whitelistedUsers this)
                    = bool_decide (u' ∈ whitelistedUsers this)).
    { apply bool_decide_ext. rewrite elem_of_union, elem_of_singleton. tauto. }
    rewrite Hsame. reflexivity.
  - intros Hnin. unfold removeFromWhitelist, addToWhitelist. cbn [whitelistedUsers settings].
    destruct this as [users st]. cbn in *. f_equal.
    apply set_eq. intros x.
    rewrite elem_of_difference, elem_of_union, elem_of_singleton.
    split; [tauto|]. intros Hx. split; [now right|]. intros ->. contradiction.
Qed.

(** ** Dispatcher: what every call does *)


Section NullishOnlyFromHandler.
Variables (command : Command) (commandName sender : string).










End NullishOnlyFromHandler.





(** X15. A command of a banned user, or sent in a banned group, goes no
    further than the ban notice: the call answers with the notice and the
    presence update and returns [true]; the handler is not run, and the
    cache, the cooldowns, the statistics and the log stay as they were. *)
Theorem banned_sender_is_stopped
    (spam : AntiSpam) (rx : TextMeasures) (reg : Registry) (env : Env)
    (message : Message) (commandName : string) (nargs : Z) (w : World)
    (command : Command) (user : User) :
  getCommand reg commandName = Some command ->
  getUser env (senderOf message) = Some user ->
  u_isBanned user = true \/ groupIsBanned env message = true ->
  let notice := if u_isBanned user then BannedUser else BannedGroup in
  handleCommand spam rx reg env message commandName nargs w
  = (Ok true,
     add_out (PresenceUpdate "paused" (remoteJid message))
       (add_out (SendMessage (remoteJid message) notice) w)).
Proof.
  intros Hcmd Huser Hbanned notice. subst notice.
  unfold handleCommand, finally, try_catch, dispatch.
  rewrite Hcmd, Huser.
  destruct (u_isBanned user); [reflexivity|].
  destruct Hbanned as [Hb|Hg]; [discriminate|]. rewrite Hg. reflexivity.
Qed.

Lemma banned_sender_witness :
  handleCommand antiSpam0 rx0 reg0
    (mkEnv (fun jid => Some (mkUser jid true false)) (fun _ => None) (fun _ => []) "bot")
    (mkMessage alice None None) "ping" 0 world1
  = (Ok true,
     add_out (PresenceUpdate "paused" alice)
       (add_out (SendMessage alice BannedUser) world1)).
Proof.
  refine (banned_sender_is_stopped antiSpam0 rx0 reg0 _ (mkMessage alice None None)
            "ping" 0 world1 ping (mkUser alice true false) _ _ _).
  - reflexivity.
  - reflexivity.
  - left. reflexivity.
Defined.

(** ** Dispatcher: cooldowns *)

Lemma cooldown_key_inj name name' u :
  cooldown_key name u = cooldown_key name' u -> name = name'.
Proof. unfold cooldown_key. apply string_app_inv_tail. Qed.

Lemma checkCooldown_first reg name u command c w :
  getCommand reg name = Some command -> cmd_cooldown command = Some c -> c <> 0 ->
  w_cooldowns w !! cooldown_key name u = None ->
  checkCooldown reg name u w
  = (Ok None, set_cooldowns (<[cooldown_key name u := w_now w]> (w_cooldowns w)) w).
Proof.
  intros Hcmd Hc Hpos Hnone. unfold checkCooldown. rewrite Hcmd, Hc.
  destruct (Z.eqb_spec c 0); [contradiction|].
  unfold bind at 1. unfold date_now at 1. unfold gets at 1.
  unfold bind at 1. unfold gets at 1. rewrite Hnone. reflexivity.
Qed.

(** X16. A cooldown holds for its full duration and no longer: after a
    first use that started it, every further use before [cooldown]
    seconds have passed is refused with the number of whole seconds left,
    between 1 and [cooldown], and changes nothing; the first use after
    that is let through. *)
Theorem cooldown_holds_for_its_duration
    (reg : Registry) (name u : string) (command : Command) (c t : Z) (w : World) :
  getCommand reg name = Some command -> cmd_cooldown command = Some c -> 0 < c ->
  w_cooldowns w !! cooldown_key name u = None ->
  w_now w <> 0 -> w_now w <= t ->
  let w1 := set_now t (checkCooldown reg name u w).2 in
  (checkCooldown reg name u w).1 = Ok None /\
  (t - w_now w < c * 1000 ->
   exists timeLeft, checkCooldown reg name u w1 = (Ok (Some timeLeft), w1) /\
                    1 <= timeLeft <= c) /\
  (c * 1000 <= t - w_now w -> (checkCooldown reg name u w1).1 = Ok None).
Proof.
  intros Hcmd Hc Hpos Hnone Hnow Ht w1. subst w1.
  rewrite (checkCooldown_first reg name u command c w Hcmd Hc ltac:(lia) Hnone).
  cbn [fst snd]. split; [reflexivity|].
  set (w1 := set_now t _).
  assert (Hrun : checkCooldown reg name u w1 =
            if t - w_now w <? c * 1000
            then (Ok (Some (ceil_div (c * 1000 - (t - w_now w)) 1000)), w1)
            else (Ok None,
                  set_cooldowns (<[cooldown_key name u := t]> (w_cooldowns w1)) w1)).
  { unfold checkCooldown. rewrite Hcmd, Hc.
    destruct (Z.eqb_spec c 0); [lia|].
    unfold bind at 1. unfold date_now at 1. unfold gets at 1.
    unfold bind at 1. unfold gets at 1.
    subst w1. cbn [w_cooldowns set_now set_cooldowns w_now].
    rewrite lookup_insert_eq.
    destruct (Z.eqb_spec (w_now w) 0); [contradiction|].
    destruct (t - w_now w <? c * 1000); reflexivity. }
  rewrite Hrun. split.
  - intros Hin. destruct (Z.ltb_spec (t - w_now w) (c * 1000)); [|lia].
    eexists. split; [reflexivity|].
    unfold ceil_div.
    pose proof (Z.div_mod (- (c * 1000 - (t - w_now w))) 1000 ltac:(lia)).
    pose proof (Z.mod_pos_bound (- (c * 1000 - (t - w_now w))) 1000 ltac:(lia)).
    lia.
  - intros Hout. destruct (Z.ltb_spec (t - w_now w) (c * 1000)); [lia|]. reflexivity.
Qed.

Lemma cooldown_witness :
  (checkCooldown regPong "pong" alice (set_now 1 world1)).1 = Ok None /\
  (9999 - 1 < 10 * 1000 ->
   exists timeLeft,
     checkCooldown regPong "pong" alice
       (set_now 9999 (checkCooldown regPong "pong" alice (set_now 1 world1)).2)
     = (Ok (Some timeLeft),
        set_now 9999 (checkCooldown regPong "pong" alice (set_now 1 world1)).2) /\
     1 <= timeLeft <= 10) /\
  (10 * 1000 <= 9999 - 1 ->
   (checkCooldown regPong "pong" alice
      (set_now 9999 (checkCooldown regPong "pong" alice (set_now 1 world1)).2)).1
   = Ok None).
Proof.
  refine (cooldown_holds_for_its_duration regPong "pong" alice pong 10 9999
            (set_now 1 world1) _ _ _ _ _ _).
  - reflexivity.
  - reflexivity.
  - lia.
  - reflexivity.
  - cbn. lia.
  - cbn. lia.
Defined.

(** X17. Cooldowns are kept per typed name: the use of a command under one
    of its names starts no cooldown for another name of the same command,
    so a use under an alias that was not used before is let through right
    after. *)
Theorem cooldown_is_per_typed_name
    (reg : Registry) (name alias u : string) (command : Command) (c : Z) (w : World) :
  getCommand reg name = Some command -> getCommand reg alias = Some command ->
  name <> alias -> cmd_cooldown command = Some c -> 0 < c ->
  w_cooldowns w !! cooldown_key alias u = None ->
  (checkCooldown reg alias u (checkCooldown reg name u w).2).1 = Ok None.
Proof.
  intros Hname Halias Hne Hc Hpos Hnone.
  assert (Hkeep : w_cooldowns (checkCooldown reg name u w).2 !! cooldown_key alias u = None).
  { unfold checkCooldown. rewrite Hname, Hc.
    destruct (Z.eqb_spec c 0); [lia|].
    unfold bind at 1. unfold date_now at 1. unfold gets at 1.
    unfold bind at 1. unfold gets at 1.
    assert (Hk : cooldown_key name u <> cooldown_key alias u)
      by (intros E; apply Hne; eapply cooldown_key_inj; exact E).
    destruct (w_cooldowns w !! cooldown_key name u) as [lastUsed|].
    - destruct (lastUsed =? 0).
      + cbn. now rewrite lookup_insert_ne.
      + destruct (_ <? _); cbn; [exact Hnone|now rewrite lookup_insert_ne].
    - cbn. now rewrite lookup_insert_ne. }
  rewrite (checkCooldown_first reg alias u command c _ Halias Hc ltac:(lia) Hkeep).
  reflexivity.
Qed.

Lemma cooldown_alias_witness :
  (checkCooldown regPong "p" alice
     (checkCooldown regPong "pong" alice (set_now 1 world1)).2).1 = Ok None.
Proof.
  refine (cooldown_is_per_typed_name regPong "pong" "p" alice pong 10 (set_now 1 world1)
            _ _ _ _ _ _).
  - reflexivity.
  - reflexivity.
  - discriminate.
  - reflexivity.
  - lia.
  - reflexivity.
Defined.

(** ** The registry *)

Lemma lookup_foldl_insert {V} (ks : list string) (v : V) (m : gmap string V) k :
  foldl (fun al alias => <[alias := v]> al) m ks !! k
  = if decide (k ∈ ks) then Some v else m !! k.
Proof.
  revert m. induction ks as [|k0 ks IH]; intros m; cbn.
  - destruct (decide (k ∈ [])) as [H|_]; [inversion H|reflexivity].
  - rewrite IH. destruct (decide (k ∈ ks)) as [Hin|Hnin].
    + rewrite decide_True by (now right). reflexivity.
    + destruct (decide (k = k0)) as [->|Hne].
      * rewrite decide_True by (now left). apply lookup_insert_eq.
      * rewrite decide_False by (intros H; inversion H; subst; tauto).
        now apply lookup_insert_ne.
Qed.

(** X18. A registered command is found under its name, and under each of
    its aliases unless a command is registered under that very string: in
    [getCommand] a name takes precedence over an alias.  Names that are
    neither the command's name nor one of its aliases resolve as before. *)
Theorem registered_command_is_found (command : Command) (reg : Registry) :
  let reg' := registerCommand command reg in
  getCommand reg' (cmd_name command) = Some command /\
  (forall alias, alias ∈ cmd_aliases command -> alias <> cmd_name command ->
     getCommand reg' alias =
       match commands reg !! alias with
       | Some other => Some other
       | None => Some command
       end) /\
  (forall name, name <> cmd_name command -> name ∉ cmd_aliases command ->
     aliases reg !! name <> Some (cmd_name command) ->
     getCommand reg' name = getCommand reg name).
Proof.
  intros reg'. subst reg'. unfold getCommand, registerCommand. cbn [commands aliases].
  split; [|split].
  - now rewrite lookup_insert_eq.
  - intros alias Hin Hne. rewrite lookup_insert_ne by congruence.
    destruct (commands reg !! alias); [reflexivity|].
    rewrite lookup_foldl_insert, decide_True by exact Hin.
    now rewrite lookup_insert_eq.
  - intros name Hne Hnin Hal. rewrite lookup_insert_ne by congruence.
    destruct (commands reg !! name); [reflexivity|].
    rewrite lookup_foldl_insert, decide_False by exact Hnin.
    destruct (aliases reg !! name) as [n|]; [|reflexivity].
    rewrite lookup_insert_ne by congruence. reflexivity.
Qed.

(** ** The most used commands *)

Lemma sortInsert_Permutation {A} (cmp : A -> A -> Z) x l :
  Permutation (sortInsert cmp x l) (x :: l).
Proof.
  induction l as [|y l IH]; cbn; [reflexivity|].
  destruct (cmp x y <=? 0); [reflexivity|].
  rewrite IH. apply perm_swap.
Qed.

Lemma jsSort_Permutation {A} (cmp : A -> A -> Z) l : Permutation (jsSort cmp l) l.
Proof.
  induction l as [|x l IH]; cbn; [reflexivity|].
  rewrite sortInsert_Permutation. now constructor.
Qed.

Lemma In_take {A} (x : A) l : forall k, In x (take k l) -> In x l.
Proof.
  induction l as [|y l IH]; intros [|k] H; cbn in H; try contradiction.
  destruct H as [->|H]; [now left|right; eapply IH; exact H].
Qed.

Lemma In_drop {A} (x : A) l : forall k, In x (drop k l) -> In x l.
Proof.
  induction l as [|y l IH]; intros [|k] H; cbn in H; try contradiction; try exact H.
  right. eapply IH; exact H.
Qed.

Lemma StronglySorted_take {A} (R : A -> A -> Prop) l k :
  StronglySorted R l -> StronglySorted R (take k l).
Proof.
  intros Hs. revert k. induction Hs as [|x l Hs IH Hx]; intros [|k]; cbn; try constructor.
  - apply IH.
  - apply List.Forall_forall. intros y Hy.
    rewrite List.Forall_forall in Hx. apply Hx. eapply In_take; exact Hy.
Qed.

Lemma StronglySorted_take_drop {A} (R : A -> A -> Prop) l k x y :
  StronglySorted R l -> In x (take k l) -> In y (drop k l) -> R x y.
Proof.
  intros Hs. revert k. induction Hs as [|z l Hs IH Hz]; intros k Hx Hy.
  - rewrite take_nil in Hx. destruct Hx.
  - destruct k as [|k]; [destruct Hx|]. cbn in Hx, Hy.
    destruct Hx as [->|Hx].
    + rewrite List.Forall_forall in Hz. apply Hz. eapply In_drop; exact Hy.
    + eapply IH; eassumption.
Qed.

(** X19. [getTopCommands] returns the most used commands: its result is in
    non-increasing order of use, every command left out was used at most
    as often as every command returned, together they are the commands of
    the statistics, and for a limit that is not negative the result has
    [limit] entries, or all of them when there are fewer. *)
Theorem getTopCommands_most_used (entries : list (string * (nat * nat))) (limit : Z) :
  let top := getTopCommands entries limit in
  StronglySorted (fun a b => (cs_used b <= cs_used a)%nat) top /\
  (exists rest,
     Permutation (map statOf entries) (top ++ rest) /\
     forall t r, In t top -> In r rest -> (cs_used r <= cs_used t)%nat) /\
  (0 <= limit -> length top = Nat.min (Z.to_nat limit) (length entries)).
Proof.
  intros top. subst top. unfold getTopCommands.
  set (sorted := jsSort compareUsed entries).
  set (le := fun a b : string * (nat * nat) => (b.2.1 <= a.2.1)%nat).
  assert (Hsorted : StronglySorted le sorted).
  { eapply StronglySorted_ext_in; [|apply (jsSort_sorted compareUsed)].
    - intros x y _ _ H. unfold le. unfold compareUsed in H. lia.
    - unfold compareUsed. intros; lia.
    - unfold compareUsed. intros; lia. }
  assert (Hlen : length sorted = length entries)
    by (apply Permutation_length, jsSort_Permutation).
  assert (Hslice : exists k, sliceTo limit sorted = take k sorted /\
                             (0 <= limit -> k = Z.to_nat limit)).
  { unfold sliceTo. destruct (Z.leb_spec 0 limit); eexists; split; eauto; lia. }
  destruct Hslice as (k & -> & Hk).
  split; [|split].
  - apply (proj1 (StronglySorted_map statOf
                    (fun a b => (cs_used b <= cs_used a)%nat) (take k sorted))).
    now apply StronglySorted_take.
  - exists (map statOf (drop k sorted)). split.
    + rewrite <- map_app, take_drop.
      apply Permutation_map. symmetry. apply jsSort_Permutation.
    + intros t r Ht Hr.
      apply in_map_iff in Ht as (x & <- & Hx).
      apply in_map_iff in Hr as (y & <- & Hy).
      apply (StronglySorted_take_drop le sorted k x y Hsorted Hx Hy).
  - intros Hlim. rewrite length_map, length_take, Hlen, (Hk Hlim). reflexivity.
Qed.

(** ** Dispatcher: the handler runs only past the gates *)

Lemma appendsOut_ret {A} (a : A) : appendsOut (ret a).
Proof. intros w. exists []. cbn. now rewrite app_nil_r. Qed.

Lemma appendsOut_throw {A} e : appendsOut (@throw World A e).
Proof. intros w. exists []. cbn. now rewrite app_nil_r. Qed.

Lemma appendsOut_gets {A} (f : World -> A) : appendsOut (gets f).
Proof. intros w. exists []. cbn. now rewrite app_nil_r. Qed.

Lemma appendsOut_logger l : appendsOut (logger l).
Proof. intros w. exists []. cbn. now rewrite app_nil_r. Qed.

Lemma appendsOut_emit e : appendsOut (emit e).
Proof. intros w. exists [e]. reflexivity. Qed.

Lemma appendsOut_modify (f : World -> World) :
  (forall w, w_out (f w) = w_out w) -> appendsOut (modify f).
Proof. intros Hf w. exists []. cbn. now rewrite Hf, app_nil_r. Qed.

Lemma appendsOut_cache_call {A} (f : World -> A * World) :
  (forall w, w_out (f w).2 = w_out w) -> appendsOut (cache_call f).
Proof.
  intros Hf w. exists []. rewrite app_nil_r. unfold cache_call.
  destruct (w_faults w) as [|[] fs].
  - specialize (Hf w). destruct (f w). exact Hf.
  - reflexivity.
  - specialize (Hf (set_faults fs (w_thrown w) w)).
    destruct (f (set_faults fs (w_thrown w) w)). exact Hf.
Qed.

Lemma appendsOut_cache_get k : appendsOut (cache_get k).
Proof. apply appendsOut_cache_call. reflexivity. Qed.

Lemma appendsOut_cache_set k v ttl : appendsOut (cache_set k v ttl).
Proof. apply appendsOut_cache_call. reflexivity. Qed.

Lemma appendsOut_bind {A B} (m : JS A) (k : A -> JS B) :
  appendsOut m -> (forall a, appendsOut (k a)) -> appendsOut (bind m k).
Proof.
  intros Hm Hk w. unfold bind. destruct (Hm w) as [new1 H1].
  destruct (m w) as [[a|e] w1]; cbn in H1.
  - destruct (Hk a w1) as [new2 H2]. exists (new1 ++ new2).
    rewrite H2, H1. now rewrite app_assoc.
  - exists new1. exact H1.
Qed.

Lemma appendsOut_try_catch {A} (m : JS A) (h : JsError -> JS A) :
  appendsOut m -> (forall e, appendsOut (h e)) -> appendsOut (try_catch m h).
Proof.
  intros Hm Hh w. unfold try_catch. destruct (Hm w) as [new1 H1].
  destruct (m w) as [[a|e] w1]; cbn in H1.
  - exists new1. exact H1.
  - destruct (Hh e w1) as [new2 H2]. exists (new1 ++ new2).
    rewrite H2, H1. now rewrite app_assoc.
Qed.

Lemma appendsOut_finally {A} (m : JS A) (fin : JS unit) :
  appendsOut m -> appendsOut fin -> appendsOut (finally m fin).
Proof.
  intros Hm Hfin w. unfold finally. destruct (Hm w) as [new1 H1].
  destruct (m w) as [r w1]; cbn in H1.
  destruct (Hfin w1) as [new2 H2].
  exists (new1 ++ new2).
  destruct (fin w1) as [[[]|e] w2]; cbn in *; rewrite H2, H1; now rewrite app_assoc.
Qed.

Lemma appendsOut_unawaited {A} (m : JS A) : appendsOut m -> appendsOut (unawaited m).
Proof.
  intros Hm w. unfold unawaited. destruct (Hm w) as [new H].
  destruct (m w) as [r w1]. exists new. exact H.
Qed.

Ltac appending :=
  repeat first
    [ apply appendsOut_ret | apply appendsOut_throw | apply appendsOut_gets
    | apply appendsOut_logger | apply appendsOut_emit
    | apply appendsOut_cache_get | apply appendsOut_cache_set
    | apply appendsOut_unawaited
    | apply appendsOut_modify; intros ?; reflexivity
    | apply appendsOut_bind; [|intros ?]
    | apply appendsOut_try_catch; [|intros ?]
    | apply appendsOut_finally
    | match goal with
      | |- appendsOut (if ?b then _ else _) => destruct b
      | |- appendsOut (match ?x with _ => _ end) => destruct x
      | |- appendsOut (let (_, _) := ?x in _) => destruct x
      end ].

Lemma appendsOut_bumpErrors name : appendsOut (bumpErrors name).
Proof.
  unfold bumpErrors. apply appendsOut_modify. intros w.
  destruct (w_stats w !! name) as [[]|]; reflexivity.
Qed.

Lemma appendsOut_handleAfterPermission spam rx reg env command message commandName nargs :
  appendsOut (handleAfterPermission spam rx reg env command message commandName nargs).
Proof.
  unfold handleAfterPermission, afterPermission, checkCooldown, checkLimit,
    recordViolation, temporaryBan, as_times, as_rl_violations, checkSpam, allChecks,
    checkMessageFrequency, checkRepeatedContent, recordSpamViolation, determineAction,
    as_freq, as_content, as_spam_violations, validateArguments, execute, bumpUsed,
    date_now.
  appending; apply appendsOut_bumpErrors.
Qed.

(** X29. The handler runs only past the gates: whatever a call of
    [handleCommand] sends and does is added to what was sent and done
    before, and if the handler is among it, then the command is
    registered, the sender has a user record and is not banned, the group
    is not banned, and the permission check lets the sender through. *)
Theorem handler_runs_only_past_the_gates
    (spam : AntiSpam) (rx : TextMeasures) (reg : Registry) (env : Env)
    (message : Message) (commandName : string) (nargs : Z) (w : World) :
  exists new,
    w_out (handleCommand spam rx reg env message commandName nargs w).2
      = w_out w ++ new /\
    (existsb isExecute new = true ->
     exists command user,
       getCommand reg commandName = Some command /\
       getUser env (senderOf message) = Some user /\
       u_isBanned user = false /\ groupIsBanned env message = false /\
       checkPermissions (w_cfg w) user (groupOf env message)
         (senderIsGroupAdmin env message) (botIsGroupAdmin env message) command = true).
Proof.
  unfold handleCommand, finally, try_catch, dispatch.
  destruct (getCommand reg commandName) as [command|] eqn:Hcmd.
  2:{ eexists. split; [reflexivity|]. discriminate. }
  destruct (getUser env (senderOf message)) as [user|] eqn:Huser.
  2:{ eexists. split; [reflexivity|]. discriminate. }
  destruct (u_isBanned user) eqn:Hbanned.
  { eexists. split; [cbn; rewrite <- app_assoc; reflexivity|]. discriminate. }
  destruct (groupIsBanned env message) eqn:Hgroup.
  { eexists. split; [cbn; rewrite <- app_assoc; reflexivity|]. discriminate. }
  unfold bind at 1. unfold gets at 1.
  destruct (checkPermissions (w_cfg w) user (groupOf env message)
              (senderIsGroupAdmin env message) (botIsGroupAdmin env message) command)
    eqn:Hperm; cbn [negb].
  2:{ eexists. split; [cbn; rewrite <- app_assoc; reflexivity|]. discriminate. }
  destruct (appendsOut_handleAfterPermission spam rx reg env command message
              commandName nargs w) as [new Hnew].
  exists new. split; [exact Hnew|].
  intros _. exists command, user. repeat split; assumption.
Qed.

(** ** Message queue: a message that succeeds after retries *)

Section TrackedSuccess.
Variables (s : MQ) (q : string).
Let r := length (mq_heap s).
Variable took : Z.

(** The execution in flight succeeds: the message leaves the queue and
    [message:completed] is emitted. *)
Lemma callback_tracked_success msg awaiting stats events now :
  (q, r) ∉ awaiting ->
  callback q r None now
    (tracked s q msg [r] {[qm_id msg]} (awaiting ++ [(q, r)]) stats events)
  = tracked s q msg [] ∅ awaiting (completedOnce stats)
      (events ++ [Completed q (qm_id msg) (qm_attempts msg); SetImmediate q]).
Proof.
  intros Hnin. unfold callback.
  replace (mq_awaiting (tracked s q msg [r] {[qm_id msg]} (awaiting ++ [(q, r)]) stats events))
    with (awaiting ++ [(q, r)]) by reflexivity.
  rewrite (awaiting_last s q). unfold handleSuccess.
  replace (deref (mq_heap (upd_awaiting (removeFirst (q, r))
             (tracked s q msg [r] {[qm_id msg]} (awaiting ++ [(q, r)]) stats events))) r)
    with msg by (tracked_proj; unfold r; now rewrite deref_last).
  apply MQ_ext; unfold r; tracked_simpl; cbn [spliceById]; tracked_simpl; try reflexivity.
  - rewrite bool_decide_eq_true_2 by reflexivity. now rewrite insert_insert_eq.
  - rewrite insert_insert_eq. f_equal. apply difference_diag_L.
  - now apply removeFirst_last.
  - now rewrite <- !app_assoc.
Qed.

(** One round on the idle message: it is dispatched and succeeds. *)
Lemma succeedingRound_idle msg awaiting stats events :
  (0 < mq_maxConcurrent s)%nat -> (q, r) ∉ awaiting ->
  succeedingRound q r took (tracked s q msg [r] ∅ awaiting stats events)
  = tracked s q (incAttempts msg) [] ∅ awaiting (completedOnce stats)
      (events ++ [Processing q (qm_id msg) (qm_attempts msg + 1);
                  ExecuteHook q (qm_data msg) r;
                  Completed q (qm_id msg) (qm_attempts msg + 1); SetImmediate q]).
Proof.
  intros Hmc Hnin. unfold succeedingRound.
  rewrite (tracked_deref s q).
  rewrite (processQueue_tracked_due s q) by (assumption || lia).
  pose proof (callback_tracked_success (incAttempts msg) awaiting stats
                (events ++ [Processing q (qm_id msg) (qm_attempts msg + 1);
                            ExecuteHook q (qm_data msg) r])
                (qm_scheduledFor msg + took) Hnin) as H.
  cbn [incAttempts qm_id qm_attempts] in H.
  fold r. rewrite H, <- app_assoc. reflexivity.
Qed.

(** [rounds] failing rounds on an idle message that has retries left
    after each of them. *)
Lemma failingRounds_retrying awaiting rounds : forall msg stats events,
  (0 < mq_maxConcurrent s)%nat -> (q, r) ∉ awaiting -> 0 <= qm_attempts msg ->
  qm_attempts msg + Z.of_nat rounds < qm_maxRetries msg ->
  exists due,
    failingRounds rounds q r took (tracked s q msg [r] ∅ awaiting stats events)
    = tracked s q
        (mkQueueMessage (qm_id msg) (qm_data msg) (qm_priority msg) (qm_delay msg)
           (qm_maxRetries msg) (qm_attempts msg + Z.of_nat rounds) (qm_createdAt msg) due)
        [r] ∅ awaiting
        (mkQStats (st_queued stats) (st_processed stats) (st_failed stats)
                  (st_retried stats + rounds))
        (events ++ failureTrace q (qm_id msg) (qm_data msg) r (qm_delay msg)
                     (qm_maxRetries msg) took (qm_attempts msg + 1)
                     (qm_scheduledFor msg) rounds).
Proof.
  induction rounds as [|rounds IH]; intros msg stats events Hmc Hnin Hatt Hleft.
  - exists (qm_scheduledFor msg). cbn [failingRounds failureTrace].
    rewrite app_nil_r, Z.add_0_r, Nat.add_0_r. destruct msg, stats; reflexivity.
  - cbn [failingRounds failureTrace].
    rewrite (failingRound_idle s q took) by assumption.
    destruct (Z.ltb_spec (qm_attempts msg + 1) (qm_maxRetries msg)) as [Hlt|Hge]; [|lia].
    edestruct (IH (setScheduledFor
                     (qm_scheduledFor msg + took
                      + backoffDelay (qm_delay msg) (qm_attempts msg + 1 + 1))
                     (incAttempts msg)) (retried stats))
      as (due & Hrun); [exact Hmc|exact Hnin|cbn; lia|cbn; lia|].
    fold r in Hrun. rewrite Hrun.
    cbn [setScheduledFor incAttempts qm_id qm_data qm_priority qm_delay qm_maxRetries
         qm_attempts qm_createdAt qm_scheduledFor retried st_queued st_processed
         st_failed st_retried].
    exists due. f_equal.
    + f_equal. lia.
    + f_equal. lia.
    + rewrite <- app_assoc. reflexivity.
Qed.

End TrackedSuccess.

Lemma failureTrace_retrying q id data r delay maxRetries took rounds :
  forall attempt due,
  attempt + Z.of_nat rounds <= maxRetries ->
  let trace := failureTrace q id data r delay maxRetries took attempt due rounds in
  attemptsMade q id trace = rounds /\ failuresReported q id trace = 0%nat /\
  countEvents (isCompletedOf q id) trace = 0%nat.
Proof.
  induction rounds as [|rounds IH]; intros attempt due Hleft; [repeat split|].
  cbn [failureTrace].
  destruct (Z.ltb_spec attempt maxRetries) as [Hlt|Hge]; [|lia].
  destruct (IH (attempt + 1) (due + took + backoffDelay delay (attempt + 1)))
    as (Hatt & Hfail & Hdone); [lia|].
  cbv zeta. rewrite !attemptsMade_cons, !failuresReported_cons, isAttemptOf_processing.
  cbn [isAttemptOf isFailedOf]. rewrite Hatt, Hfail.
  split; [reflexivity|]. split; [reflexivity|].
  unfold countEvents in *. cbn [List.filter isCompletedOf]. exact Hdone.
Qed.

(** X20. A message put on a new queue with a positive delay whose execution
    fails [k] times, with retries left, and then succeeds is attempted
    [k + 1] times: each failure is announced by [message:retry], the
    success by one [message:completed] that carries the number of attempts,
    no [message:failed] is emitted, and the message leaves the queue and
    the in-flight set; the counters grow by [k] retries and one processed
    message. *)
Theorem retry_then_success
    (s : MQ) (q data : string) (options : Options) (gen : string) (t0 took : Z)
    (k : nat) :
  let r := length (mq_heap s) in
  let id := default gen (o_id options) in
  let delay := default (mq_defaultDelay s) (o_delay options) in
  let maxRetries := default (mq_maxRetries s) (o_maxRetries options) in
  let final :=
    succeedingRound q r took
      (failingRounds k q r took (addMessage q data options gen t0 s)) in
  let attempts := failureTrace q id data r delay maxRetries took 1 (t0 + delay) k in
  mq_queues s !! q = None -> (q, r) ∉ mq_awaiting s ->
  (0 < mq_maxConcurrent s)%nat -> 0 < delay -> Z.of_nat k < maxRetries ->
  mq_events final
    = mq_events s ++ Queued q id 1 :: attempts
        ++ [Processing q id (Z.of_nat k + 1); ExecuteHook q data r;
            Completed q id (Z.of_nat k + 1); SetImmediate q] /\
  attemptsMade q id attempts = k /\ failuresReported q id attempts = 0%nat /\
  countEvents (isCompletedOf q id) attempts = 0%nat /\
  queueOf final q = [] /\ processingOf final q = ∅ /\
  mq_stats final
    = mkQStats (S (st_queued (mq_stats s))) (S (st_processed (mq_stats s)))
               (st_failed (mq_stats s)) (st_retried (mq_stats s) + k).
Proof.
  intros r id delay maxRetries final attempts Hq Hnin Hmc Hdelay Hk.
  destruct (failureTrace_retrying q id data r delay maxRetries took k 1 (t0 + delay))
    as (Hatt & Hfail & Hdone); [lia|].
  fold attempts in Hatt, Hfail, Hdone.
  assert (Hfinal : final = tracked s q
            (mkQueueMessage id data (default 0 (o_priority options)) delay maxRetries
               (Z.of_nat k + 1) t0
               (qm_scheduledFor (deref (mq_heap
                  (failingRounds k q r took (addMessage q data options gen t0 s))) r)))
            [] ∅ (mq_awaiting s)
            (mkQStats (S (st_queued (mq_stats s))) (S (st_processed (mq_stats s)))
                      (st_failed (mq_stats s)) (st_retried (mq_stats s) + k))
            (mq_events s ++ Queued q id 1 :: attempts
               ++ [Processing q id (Z.of_nat k + 1); ExecuteHook q data r;
                   Completed q id (Z.of_nat k + 1); SetImmediate q])).
  { subst final. rewrite (addMessage_fresh s q) by exact Hq. fold r id delay maxRetries.
    set (msg0 := mkQueueMessage id data (default 0 (o_priority options)) delay
                   maxRetries 0 t0 (t0 + delay)).
    unfold processQueue at 1 2. rewrite (toDispatch_tracked_idle s q) by exact Hmc.
    fold r. cbn [qm_scheduledFor msg0].
    destruct (Z.leb_spec (t0 + delay) t0) as [Hdue|_]; [lia|].
    cbn [fold_left].
    edestruct (failingRounds_retrying s q took (mq_awaiting s) k msg0)
      as (due & Hrun); [exact Hmc|exact Hnin|cbn; lia|cbn; lia|].
    fold r in Hrun. rewrite Hrun. clear Hrun.
    cbn [qm_id qm_data qm_priority qm_delay qm_maxRetries qm_attempts qm_createdAt
         qm_scheduledFor msg0].
    rewrite (tracked_deref s q). cbn [qm_scheduledFor].
    pose proof (succeedingRound_idle s q took
                  (mkQueueMessage id data (default 0 (o_priority options)) delay
                     maxRetries (0 + Z.of_nat k) t0 due) (mq_awaiting s)) as Hs.
    fold r in Hs. rewrite Hs by assumption. clear Hs.
    cbn [incAttempts qm_id qm_data qm_priority qm_delay qm_maxRetries qm_attempts
         qm_createdAt qm_scheduledFor completedOnce st_queued st_processed st_failed
         st_retried].
    replace (0 + Z.of_nat k + 1) with (Z.of_nat k + 1) by lia.
    change (0 + 1) with 1. fold attempts.
    f_equal. rewrite <- !app_assoc. reflexivity. }
  split; [now rewrite Hfinal|].
  split; [exact Hatt|]. split; [exact Hfail|]. split; [exact Hdone|].
  split; [rewrite Hfinal; apply queueOf_lookup, tracked_queue|].
  split; [rewrite Hfinal; apply tracked_processing|].
  now rewrite Hfinal.
Qed.

Lemma retry_then_success_witness :
  attemptsMade "emails" "m1"
    (failureTrace "emails" "m1" "hello" 0 1000 3 0 1 (0 + 1000) 2) = 2%nat.
Proof.
  refine (proj1 (proj2 (retry_then_success mq_new "emails" "hello"
                          (mkOptions None None None (Some "m1")) "g" 0 0 2 _ _ _ _ _))).
  - reflexivity.
  - apply not_elem_of_nil.
  - cbn. lia.
  - cbn. lia.
  - cbn. lia.
Defined.

(** ** Message queue: scheduling *)

Lemma addMessage_fresh_waiting s q data options gen t0 :
  mq_queues s !! q = None -> (0 < mq_maxConcurrent s)%nat ->
  0 < default (mq_defaultDelay s) (o_delay options) ->
  addMessage q data options gen t0 s
  = tracked s q
      (mkQueueMessage (default gen (o_id options)) data
         (default 0 (o_priority options))
         (default (mq_defaultDelay s) (o_delay options))
         (default (mq_maxRetries s) (o_maxRetries options)) 0 t0
         (t0 + default (mq_defaultDelay s) (o_delay options)))
      [length (mq_heap s)] ∅ (mq_awaiting s)
      (mkQStats (S (st_queued (mq_stats s))) (st_processed (mq_stats s))
                (st_failed (mq_stats s)) (st_retried (mq_stats s)))
      (mq_events s ++ [Queued q (default gen (o_id options)) 1]).
Proof.
  intros Hq Hmc Hdelay. rewrite (addMessage_fresh s q) by exact Hq.
  unfold processQueue. rewrite (toDispatch_tracked_idle s q) by exact Hmc.
  cbn [qm_scheduledFor].
  destruct (Z.leb_spec (t0 + default (mq_defaultDelay s) (o_delay options)) t0); [lia|].
  reflexivity.
Qed.

(** X21. [scheduleMessage] with a time that lies ahead puts a message on
    the (new) queue that is due exactly at that time: every drain before it
    leaves the queue as it is, and a drain at or after it starts the first
    attempt.  With a time that does not lie ahead the message is enqueued
    with the options as they are, so without a [delay] option it waits for
    the default delay. *)
Theorem scheduled_message_waits_for_its_time
    (s : MQ) (q data : string) (scheduleTime : Z) (options : Options)
    (gen : string) (t0 t : Z) :
  let r := length (mq_heap s) in
  let id := default gen (o_id options) in
  let s1 := scheduleMessage q data scheduleTime options gen t0 s in
  mq_queues s !! q = None -> (0 < mq_maxConcurrent s)%nat ->
  (t0 < scheduleTime ->
   qm_scheduledFor (deref (mq_heap s1) r) = scheduleTime /\
   qm_attempts (deref (mq_heap s1) r) = 0 /\
   queueOf s1 q = [r] /\
   (t < scheduleTime -> processQueue q t s1 = s1) /\
   (scheduleTime <= t ->
    mq_events (processQueue q t s1)
    = mq_events s1 ++ [Processing q id 1; ExecuteHook q data r])) /\
  (scheduleTime <= t0 -> o_delay options = None -> 0 < mq_defaultDelay s ->
   qm_scheduledFor (deref (mq_heap s1) r) = t0 + mq_defaultDelay s /\
   qm_attempts (deref (mq_heap s1) r) = 0).
Proof.
  intros r id s1 Hq Hmc. subst s1. unfold scheduleMessage. split.
  - intros Hahead.
    destruct (Z.leb_spec (scheduleTime - t0) 0); [lia|].
    rewrite addMessage_fresh_waiting by (assumption || (cbn; lia)).
    cbn [o_id o_priority o_delay o_maxRetries].
    change (default (mq_defaultDelay s) (Some (scheduleTime - t0)))
      with (scheduleTime - t0).
    fold r. rewrite (tracked_deref s q). cbn [qm_scheduledFor qm_attempts].
    split; [lia|]. split; [reflexivity|].
    split; [apply queueOf_lookup, tracked_queue|].
    split.
    + intros Hbefore. unfold processQueue.
      rewrite (toDispatch_tracked_idle s q) by exact Hmc. cbn [qm_scheduledFor].
      destruct (Z.leb_spec (t0 + (scheduleTime - t0)) t); [lia|]. reflexivity.
    + intros Hdue.
      rewrite (processQueue_tracked_due s q) by (assumption || (cbn; lia)).
      reflexivity.
  - intros Hpast Hnone Hdefault.
    destruct (Z.leb_spec (scheduleTime - t0) 0); [|lia].
    rewrite addMessage_fresh_waiting by (assumption || (rewrite Hnone; cbn; lia)).
    fold r. rewrite (tracked_deref s q). rewrite Hnone. split; reflexivity.
Qed.

Lemma scheduled_message_witness :
  qm_scheduledFor
    (deref (mq_heap (scheduleMessage "q" "hello" 5000 (mkOptions None None None (Some "m1"))
                       "g" 0 mq_new)) 0) = 5000.
Proof.
  refine (proj1 (proj1 (scheduled_message_waits_for_its_time mq_new "q" "hello" 5000
                          (mkOptions None None None (Some "m1")) "g" 0 0 _ _) _)).
  - reflexivity.
  - cbn. lia.
  - lia.
Defined.

(** ** Message queue: saving and restoring *)

Lemma saved_processQueue q now s : mq_saved (processQueue q now s) = mq_saved s.
Proof.
  unfold processQueue. generalize (toDispatch q now s). intros l. revert s.
  induction l as [|r l IH]; intros s; cbn [fold_left]; [reflexivity|].
  rewrite IH. apply dispatchOne_fields.
Qed.

Lemma queues_processQueue q now s : mq_queues (processQueue q now s) = mq_queues s.
Proof. unfold processQueue. apply dispatch_fold_frame. Qed.

(** What the cache holds for [q] changes only when [q] is saved or restored. *)
Lemma step_saved s op q :
  savesQueue q op = false -> restoresQueue q op = false ->
  mq_saved (step s op) !! q = mq_saved s !! q.
Proof.
  destruct op as [now []]; cbn [step savesQueue restoresQueue snd]; intros Hsave Hrestore.
  - unfold addMessage. rewrite saved_processQueue.
    destruct (mq_queues s !! queueName); reflexivity.
  - now rewrite saved_processQueue.
  - unfold callback. destruct (bool_decide _); [|reflexivity].
    destruct error; [unfold handleFailure|reflexivity].
    cbn. destruct (_ <? _); reflexivity.
  - unfold removeMessage. destruct (mq_queues s !! queueName); [|reflexivity].
    destruct (hasId _ _ _); reflexivity.
  - unfold clearQueue. destruct (mq_queues s !! queueName); reflexivity.
  - reflexivity.
  - unfold resumeQueue. now rewrite saved_processQueue.
  - apply bool_decide_eq_false in Hsave.
    unfold persistQueue. cbn. now rewrite lookup_insert_ne by exact Hsave.
  - apply bool_decide_eq_false in Hrestore.
    unfold restoreQueue. destruct (savedQueueOf s queueName now) as [[]|]; [| |reflexivity].
    + now rewrite saved_processQueue.
    + rewrite saved_processQueue. cbn. now rewrite lookup_alter_ne by exact Hrestore.
Qed.

(** Restoring a queue whose own array the cache holds leaves the cache as
    it is. *)
Lemma restoreQueue_saved_itself q now s e :
  mq_saved s !! q = Some (TheQueueItself, e) ->
  mq_saved (restoreQueue q now s) = mq_saved s.
Proof.
  intros Hsaved. unfold restoreQueue, savedQueueOf. rewrite Hsaved.
  destruct (now <=? e); [|reflexivity]. now rewrite saved_processQueue.
Qed.

Lemma step_saved_itself s op q e :
  savesQueue q op = false ->
  mq_saved s !! q = Some (TheQueueItself, e) ->
  mq_saved (step s op) !! q = Some (TheQueueItself, e).
Proof.
  intros Hsave Hsaved.
  destruct (restoresQueue q op) eqn:Hrestore.
  - destruct op as [now []]; try discriminate Hrestore.
    cbn in Hrestore. apply bool_decide_eq_true in Hrestore. subst queueName.
    cbn [step]. now rewrite (restoreQueue_saved_itself q now s e Hsaved).
  - now rewrite step_saved.
Qed.

(** A queue, once created, stays in [this.queues]. *)
Lemma step_queue_stays s op q :
  is_Some (mq_queues s !! q) -> is_Some (mq_queues (step s op) !! q).
Proof.
  intros Hq.
  assert (Hins : forall q' (l : list nat) (m : gmap string (list nat)),
            is_Some (m !! q) -> is_Some (<[q' := l]> m !! q)).
  { intros q' l m Hm. destruct (decide (q' = q)) as [->|Hne].
    - rewrite lookup_insert_eq. eauto.
    - now rewrite lookup_insert_ne by exact Hne. }
  destruct op as [now []]; cbn [step].
  - unfold addMessage. rewrite queues_processQueue.
    destruct (mq_queues s !! queueName) eqn:Hqn; mq_proj; repeat apply Hins; exact Hq.
  - now rewrite queues_processQueue.
  - unfold callback. destruct (bool_decide _); [|exact Hq].
    destruct error; [unfold handleFailure|unfold handleSuccess; mq_proj; apply Hins; exact Hq].
    destruct (_ <? _); mq_proj; repeat apply Hins; exact Hq.
  - unfold removeMessage. destruct (mq_queues s !! queueName); [|exact Hq].
    destruct (hasId _ _ _); [|exact Hq]. mq_proj. apply Hins, Hq.
  - unfold clearQueue. destruct (mq_queues s !! queueName); [|exact Hq].
    mq_proj. apply Hins, Hq.
  - exact Hq.
  - unfold resumeQueue. now rewrite queues_processQueue.
  - exact Hq.
  - unfold restoreQueue. destruct (savedQueueOf s queueName now) as [[]|]; [| |exact Hq].
    all: rewrite queues_processQueue; mq_proj; apply Hins, Hq.
Qed.

Lemma run_saved_itself trace : forall s q e,
  Forall (fun op => savesQueue q op = false) trace ->
  is_Some (mq_queues s !! q) ->
  mq_saved s !! q = Some (TheQueueItself, e) ->
  is_Some (mq_queues (run trace s) !! q) /\
  mq_saved (run trace s) !! q = Some (TheQueueItself, e).
Proof.
  induction trace as [|op trace IH]; intros s q e Hops Hq Hsaved; [now split|].
  inversion Hops as [|? ? Hop Hrest]; subst.
  change (run (op :: trace) s) with (run trace (step s op)).
  apply IH; [exact Hrest| |].
  - now apply step_queue_stays.
  - now apply step_saved_itself.
Qed.

Lemma run_saved_empty trace : forall s q e,
  Forall (fun op => savesQueue q op = false /\ restoresQueue q op = false) trace ->
  mq_saved s !! q = Some (AnEmptyArray, e) ->
  mq_saved (run trace s) !! q = Some (AnEmptyArray, e).
Proof.
  induction trace as [|op trace IH]; intros s q e Hops Hsaved; [exact Hsaved|].
  inversion Hops as [|? ? [Hsave Hrestore] Hrest]; subst.
  change (run (op :: trace) s) with (run trace (step s op)).
  apply IH; [exact Hrest|]. now rewrite step_saved.
Qed.

(** X22. The cache keeps the queue itself, not a copy of it.  After
    [persistQueue] of a queue that exists, and whatever is done to the
    queues afterwards short of saving it again, [restoreQueue] within the
    hour does not bring back the messages as they were saved: it leaves
    the queue with the messages it has, empties the in-flight set and
    drains; after the hour it changes nothing.  For a queue that did not
    exist when it was saved the cache holds an empty array, and
    [restoreQueue] within the hour makes that array the queue: what was
    enqueued in between is dropped. *)
Theorem restoreQueue_restores_no_copy
    (s : MQ) (q : string) (t0 t : Z) (trace : list (Z * Op)) :
  Forall (fun op => savesQueue q op = false) trace ->
  let s1 := run trace (persistQueue q t0 s) in
  (is_Some (mq_queues s !! q) ->
   (t <= t0 + 3600000 ->
    restoreQueue q t s1 = processQueue q t (upd_processing (<[q := ∅]>) s1) /\
    queueOf (restoreQueue q t s1) q = queueOf s1 q) /\
   (t0 + 3600000 < t -> restoreQueue q t s1 = s1)) /\
  (mq_queues s !! q = None ->
   Forall (fun op => restoresQueue q op = false) trace ->
   t <= t0 + 3600000 ->
   queueOf (restoreQueue q t s1) q = [] /\
   processingOf (restoreQueue q t s1) q = ∅ /\
   mq_events (restoreQueue q t s1) = mq_events s1).
Proof.
  intros Hops s1. split.
  - intros Hq.
    destruct (run_saved_itself trace (persistQueue q t0 s) q (t0 + 3600000) Hops)
      as [Hq1 Hsaved1].
    { exact Hq. }
    { unfold persistQueue. destruct Hq as [queue ->]. cbn. apply lookup_insert_eq. }
    fold s1 in Hq1, Hsaved1. destruct Hq1 as [queue Hqueue].
    unfold restoreQueue, savedQueueOf. rewrite Hsaved1.
    split; intros Ht.
    + destruct (Z.leb_spec t (t0 + 3600000)); [|lia].
      assert (Hsame : upd_queues (<[q := queueOf s1 q]>) s1 = s1).
      { apply MQ_ext; try reflexivity. cbn. unfold queueOf. rewrite Hqueue. cbn.
        now apply insert_id. }
      rewrite Hsame. split; [reflexivity|].
      unfold queueOf. now rewrite queues_processQueue.
    + destruct (Z.leb_spec t (t0 + 3600000)); [lia|reflexivity].
  - intros Hq Hrestores Ht.
    assert (Hsaved1 : mq_saved s1 !! q = Some (AnEmptyArray, t0 + 3600000)).
    { apply run_saved_empty.
      - rewrite List.Forall_forall in *. intros op Hin. split; auto.
      - unfold persistQueue. rewrite Hq. cbn. apply lookup_insert_eq. }
    unfold restoreQueue, savedQueueOf. rewrite Hsaved1.
    destruct (Z.leb_spec t (t0 + 3600000)); [|lia].
    set (s2 := upd_processing _ _).
    assert (Hnone : toDispatch q t s2 = []).
    { unfold toDispatch. subst s2. mq_proj. rewrite lookup_insert_eq.
      destruct (_ <=? _)%nat; [reflexivity|]. cbn [List.filter]. apply take_nil. }
    unfold processQueue. rewrite Hnone. cbn [fold_left].
    subst s2. unfold queueOf, processingOf. mq_proj. rewrite !lookup_insert_eq.
    repeat split.
Qed.

(** The queue holds [m1]; it is saved, [m2] is enqueued, and the queue is
    restored: both messages are in the queue. *)
Lemma restoreQueue_no_copy_witness :
  length (queueOf (restoreQueue "q" 20 (run enqueuedAfterSaving (persistQueue "q" 5 oneWaiting)))
                  "q") = 2%nat.
Proof.
  rewrite (proj2 (proj1 (proj1 (restoreQueue_restores_no_copy oneWaiting "q" 5 20
                                   enqueuedAfterSaving
                                   ltac:(repeat constructor))
                                ltac:(vm_compute; eauto))
                         ltac:(lia))).
  vm_compute. reflexivity.
Defined.

(** ** Message queue: the counters *)

Lemma countEvents_app kind l1 l2 :
  countEvents kind (l1 ++ l2) = (countEvents kind l1 + countEvents kind l2)%nat.
Proof. unfold countEvents. now rewrite List.filter_app, length_app. Qed.

Lemma statsCountEvents_advance s s' new :
  statsCountEvents s ->
  mq_events s' = mq_events s ++ new ->
  st_queued (mq_stats s') = (st_queued (mq_stats s) + countEvents isQueued new)%nat ->
  st_processed (mq_stats s')
    = (st_processed (mq_stats s) + countEvents isCompleted new)%nat ->
  st_failed (mq_stats s') = (st_failed (mq_stats s) + countEvents isFailed new)%nat ->
  st_retried (mq_stats s') = (st_retried (mq_stats s) + countEvents isRetry new)%nat ->
  statsCountEvents s'.
Proof.
  intros (H1 & H2 & H3 & H4) He Hq Hp Hf Hr. unfold statsCountEvents.
  rewrite He, !countEvents_app, Hq, Hp, Hf, Hr, H1, H2, H3, H4. repeat split.
Qed.

Lemma statsCountEvents_dispatch q l : forall s,
  statsCountEvents s -> statsCountEvents (fold_left (dispatchOne q) l s).
Proof.
  induction l as [|r l IH]; intros s Hs; cbn [fold_left]; [exact Hs|].
  apply IH.
  eapply (statsCountEvents_advance s); [exact Hs| | | | |].
  - unfold dispatchOne, processMessage. mq_proj.
    rewrite <- app_assoc. cbn [app]. reflexivity.
  - unfold dispatchOne, processMessage. mq_proj. cbn. lia.
  - unfold dispatchOne, processMessage. mq_proj. cbn. lia.
  - unfold dispatchOne, processMessage. mq_proj. cbn. lia.
  - unfold dispatchOne, processMessage. mq_proj. cbn. lia.
Qed.

Lemma statsCountEvents_processQueue q now s :
  statsCountEvents s -> statsCountEvents (processQueue q now s).
Proof. apply statsCountEvents_dispatch. Qed.

Ltac counted :=
  match goal with
  | Hs : statsCountEvents ?s |- statsCountEvents _ =>
      eapply (statsCountEvents_advance s _ _ Hs);
      [ mq_proj; rewrite <- ?app_assoc;
        first [ reflexivity | symmetry; apply app_nil_r ]
      | .. ];
      mq_proj;
      cbn [countEvents List.filter isQueued isCompleted isFailed isRetry length app
           st_queued st_processed st_failed st_retried];
      lia
  end.

Lemma statsCountEvents_step s op : statsCountEvents s -> statsCountEvents (step s op).
Proof.
  intros Hs. destruct op as [now []]; cbn [step].
  - unfold addMessage. apply statsCountEvents_processQueue.
    destruct (mq_queues s !! queueName); counted.
  - now apply statsCountEvents_processQueue.
  - unfold callback. destruct (bool_decide _); [|exact Hs].
    destruct error as [e|].
    + unfold handleFailure. destruct (_ <? _); counted.
    + unfold handleSuccess. counted.
  - unfold removeMessage. destruct (mq_queues s !! queueName); [|exact Hs].
    destruct (hasId _ _ _); [|exact Hs]. counted.
  - unfold clearQueue. destruct (mq_queues s !! queueName) as [queue|]; [|exact Hs].
    counted.
  - unfold pauseQueue. counted.
  - unfold resumeQueue. apply statsCountEvents_processQueue. counted.
  - unfold persistQueue. counted.
  - unfold restoreQueue. destruct (savedQueueOf s queueName now) as [[]|]; [| |exact Hs].
    all: apply statsCountEvents_processQueue; counted.
Qed.

(** X23. The counters of the queue count its events: in every reachable
    state [queued], [processed], [failed] and [retried] are the numbers of
    [message:queued], [message:completed], [message:failed] and
    [message:retry] events emitted so far. *)
Theorem stats_count_the_events (s : MQ) :
  reachable s ->
  st_queued (mq_stats s) = countEvents isQueued (mq_events s) /\
  st_processed (mq_stats s) = countEvents isCompleted (mq_events s) /\
  st_failed (mq_stats s) = countEvents isFailed (mq_events s) /\
  st_retried (mq_stats s) = countEvents isRetry (mq_events s).
Proof.
  apply (reachable_ind statsCountEvents).
  - repeat split.
  - intros s0 op. apply statsCountEvents_step.
Qed.

Lemma stats_count_witness :
  st_queued (mq_stats noRetryRun) = countEvents isQueued (mq_events noRetryRun) /\
  st_processed (mq_stats noRetryRun) = countEvents isCompleted (mq_events noRetryRun) /\
  st_failed (mq_stats noRetryRun) = countEvents isFailed (mq_events noRetryRun) /\
  st_retried (mq_stats noRetryRun) = countEvents isRetry (mq_events noRetryRun).
Proof.
  apply (stats_count_the_events noRetryRun).
  unfold noRetryRun. apply reachable_run.
Defined.

(** ** Message queue: taking messages out *)

Section TrackedRemoval.
Variables (s : MQ) (q : string).
Let r := length (mq_heap s).

Lemma removeMessage_tracked msg processing awaiting stats events :
  removeMessage q (qm_id msg) (tracked s q msg [r] processing awaiting stats events)
  = tracked s q msg [] processing awaiting stats (events ++ [Removed q (qm_id msg)]).
Proof.
  unfold removeMessage. rewrite (tracked_queue s q).
  unfold hasId. cbn [existsb]. rewrite (tracked_deref s q).
  rewrite bool_decide_eq_true_2 by reflexivity. cbn [orb].
  apply MQ_ext; unfold r; tracked_simpl; cbn [spliceById]; tracked_simpl; try reflexivity.
  rewrite bool_decide_eq_true_2 by reflexivity. now rewrite insert_insert_eq.
Qed.

Lemma clearQueue_tracked msg queue processing awaiting stats events :
  clearQueue q (tracked s q msg queue processing awaiting stats events)
  = tracked s q msg [] processing awaiting stats (events ++ [Cleared q (length queue)]).
Proof.
  unfold clearQueue. rewrite (tracked_queue s q).
  apply MQ_ext; tracked_simpl; try reflexivity.
  now rewrite insert_insert_eq.
Qed.

(** The execution of a message that is no longer in the queue ends. *)
Lemma callback_tracked_gone msg awaiting stats events now error :
  (q, r) ∉ awaiting ->
  callback q r error now
    (tracked s q msg [] {[qm_id msg]} (awaiting ++ [(q, r)]) stats events)
  = match error with
    | None =>
        tracked s q msg [] ∅ awaiting (completedOnce stats)
          (events ++ [Completed q (qm_id msg) (qm_attempts msg); SetImmediate q])
    | Some _ =>
        if qm_attempts msg <? qm_maxRetries msg then
          tracked s q
            (setScheduledFor (now + qm_delay msg * 2 ^ (qm_attempts msg - 1)) msg)
            [] ∅ awaiting (retried stats)
            (events ++ [Retry q (qm_id msg) (qm_attempts msg) (qm_maxRetries msg)
                          (now + qm_delay msg * 2 ^ (qm_attempts msg - 1));
                        SetTimeout q (qm_delay msg); SetImmediate q])
        else
          tracked s q msg [] ∅ awaiting (failedOnce stats)
            (events ++ [Failed q (qm_id msg) (qm_attempts msg); SetImmediate q])
    end.
Proof.
  intros Hnin. unfold callback.
  replace (mq_awaiting (tracked s q msg [] {[qm_id msg]} (awaiting ++ [(q, r)]) stats events))
    with (awaiting ++ [(q, r)]) by reflexivity.
  rewrite (awaiting_last s q).
  destruct error as [e|].
  - unfold handleFailure.
    replace (deref (mq_heap (upd_awaiting (removeFirst (q, r))
               (tracked s q msg [] {[qm_id msg]} (awaiting ++ [(q, r)]) stats events))) r)
      with msg by (tracked_proj; unfold r; now rewrite deref_last).
    destruct (qm_attempts msg <? qm_maxRetries msg).
    + apply MQ_ext; unfold r; tracked_simpl; try reflexivity.
      * now rewrite insert_insert_eq.
      * rewrite insert_insert_eq. f_equal. apply difference_diag_L.
      * now apply removeFirst_last.
      * now rewrite <- !app_assoc.
    + apply MQ_ext; unfold r; tracked_simpl; cbn [spliceById]; tracked_simpl;
        try reflexivity.
      * now rewrite insert_insert_eq.
      * rewrite insert_insert_eq. f_equal. apply difference_diag_L.
      * now apply removeFirst_last.
      * now rewrite <- !app_assoc.
  - unfold handleSuccess.
    replace (deref (mq_heap (upd_awaiting (removeFirst (q, r))
               (tracked s q msg [] {[qm_id msg]} (awaiting ++ [(q, r)]) stats events))) r)
      with msg by (tracked_proj; unfold r; now rewrite deref_last).
    apply MQ_ext; unfold r; tracked_simpl; cbn [spliceById]; tracked_simpl;
      try reflexivity.
    + now rewrite insert_insert_eq.
    + rewrite insert_insert_eq. f_equal. apply difference_diag_L.
    + now apply removeFirst_last.
    + now rewrite <- !app_assoc.
Qed.

(** [addMessage] on a new queue with a delay that has passed: the first
    attempt starts at once. *)
Lemma addMessage_fresh_due data options gen t0 :
  mq_queues s !! q = None -> (0 < mq_maxConcurrent s)%nat ->
  default (mq_defaultDelay s) (o_delay options) <= 0 ->
  addMessage q data options gen t0 s
  = tracked s q
      (mkQueueMessage (default gen (o_id options)) data
         (default 0 (o_priority options))
         (default (mq_defaultDelay s) (o_delay options))
         (default (mq_maxRetries s) (o_maxRetries options)) 1 t0
         (t0 + default (mq_defaultDelay s) (o_delay options)))
      [r] {[default gen (o_id options)]} (mq_awaiting s ++ [(q, r)])
      (mkQStats (S (st_queued (mq_stats s))) (st_processed (mq_stats s))
                (st_failed (mq_stats s)) (st_retried (mq_stats s)))
      (mq_events s ++ [Queued q (default gen (o_id options)) 1;
                       Processing q (default gen (o_id options)) 1;
                       ExecuteHook q data r]).
Proof.
  intros Hq Hmc Hdelay. rewrite (addMessage_fresh s q) by exact Hq.
  rewrite (processQueue_tracked_due s q) by (assumption || (cbn; lia)).
  cbn [incAttempts qm_id qm_data qm_priority qm_delay qm_maxRetries qm_attempts
       qm_createdAt qm_scheduledFor].
  fold r. rewrite <- app_assoc. reflexivity.
Qed.

End TrackedRemoval.

(** X24. [removeMessage] takes a waiting message out for good and stops no
    execution.  On a new queue: a message that is removed while it waits is
    never attempted, whenever the queue is drained; a message that is
    removed while its execution is in flight is still reported as
    completed when the execution succeeds, and counted as processed. *)
Theorem removeMessage_waiting_and_in_flight
    (s : MQ) (q data : string) (options : Options) (gen : string) (t0 t : Z) :
  let r := length (mq_heap s) in
  let id := default gen (o_id options) in
  let delay := default (mq_defaultDelay s) (o_delay options) in
  let removed := removeMessage q id (addMessage q data options gen t0 s) in
  mq_queues s !! q = None -> (q, r) ∉ mq_awaiting s -> (0 < mq_maxConcurrent s)%nat ->
  queueOf removed q = [] /\
  (0 < delay ->
   mq_events removed = mq_events s ++ [Queued q id 1; Removed q id] /\
   processQueue q t removed = removed) /\
  (delay <= 0 ->
   let done := callback q r None t removed in
   mq_events done
   = mq_events s ++ [Queued q id 1; Processing q id 1; ExecuteHook q data r;
                     Removed q id; Completed q id 1; SetImmediate q] /\
   st_processed (mq_stats done) = S (st_processed (mq_stats s)) /\
   processingOf done q = ∅).
Proof.
  intros r id delay removed Hq Hnin Hmc. subst removed.
  destruct (Z.lt_ge_cases 0 delay) as [Hpos|Hdue].
  - rewrite addMessage_fresh_waiting by assumption. fold r id delay.
    set (msg0 := mkQueueMessage id data (default 0 (o_priority options)) delay
                   (default (mq_maxRetries s) (o_maxRetries options)) 0 t0 (t0 + delay)).
    pose proof (removeMessage_tracked s q msg0) as Hrm.
    cbn [qm_id msg0] in Hrm. fold r in Hrm. rewrite Hrm.
    split; [apply queueOf_lookup, tracked_queue|].
    split; [|lia].
    intros _. split.
    + tracked_proj. rewrite <- app_assoc. reflexivity.
    + apply processQueue_tracked_done.
  - rewrite (addMessage_fresh_due s q) by assumption. fold r id delay.
    set (msg1 := mkQueueMessage id data (default 0 (o_priority options)) delay
                   (default (mq_maxRetries s) (o_maxRetries options)) 1 t0 (t0 + delay)).
    pose proof (removeMessage_tracked s q msg1) as Hrm.
    cbn [qm_id msg1] in Hrm. fold r in Hrm. rewrite Hrm.
    split; [apply queueOf_lookup, tracked_queue|].
    split; [lia|].
    intros _ done. subst done.
    pose proof (callback_tracked_gone s q msg1 (mq_awaiting s)) as Hcb.
    cbn [qm_id qm_attempts msg1] in Hcb. fold r in Hcb.
    rewrite (Hcb _ _ t None Hnin).
    split; [tracked_proj; rewrite <- !app_assoc; reflexivity|].
    split; [reflexivity|]. apply tracked_processing.
Qed.

Lemma removeMessage_witness :
  queueOf
    (removeMessage "q" "m1"
       (addMessage "q" "hello" (mkOptions None None None (Some "m1")) "g" 0 mq_new)) "q"
  = [].
Proof.
  refine (proj1 (removeMessage_waiting_and_in_flight mq_new "q" "hello"
                   (mkOptions None None None (Some "m1")) "g" 0 0 _ _ _)).
  - reflexivity.
  - apply not_elem_of_nil.
  - cbn. lia.
Defined.

(** X25. [clearQueue] empties the queue and stops no execution; what is in
    flight is lost to the retries.  On a new queue, when the execution that
    [addMessage] started fails after the queue was cleared and retries are
    left, the retry is announced and counted, but the message is in no
    queue any more: no later drain attempts it. *)
Theorem clearQueue_loses_the_retry
    (s : MQ) (q data : string) (options : Options) (gen : string) (t0 t1 t : Z) :
  let r := length (mq_heap s) in
  let id := default gen (o_id options) in
  let delay := default (mq_defaultDelay s) (o_delay options) in
  let maxRetries := default (mq_maxRetries s) (o_maxRetries options) in
  let failed :=
    callback q r (Some "boom") t1
      (clearQueue q (addMessage q data options gen t0 s)) in
  mq_queues s !! q = None -> (q, r) ∉ mq_awaiting s -> (0 < mq_maxConcurrent s)%nat ->
  delay <= 0 -> 1 < maxRetries ->
  mq_events failed
  = mq_events s ++ [Queued q id 1; Processing q id 1; ExecuteHook q data r;
                    Cleared q 1; Retry q id 1 maxRetries (t1 + delay * 2 ^ 0);
                    SetTimeout q delay; SetImmediate q] /\
  st_retried (mq_stats failed) = S (st_retried (mq_stats s)) /\
  queueOf failed q = [] /\
  processQueue q t failed = failed.
Proof.
  intros r id delay maxRetries failed Hq Hnin Hmc Hdue Hretries. subst failed.
  rewrite (addMessage_fresh_due s q) by assumption. fold r id delay maxRetries.
  rewrite (clearQueue_tracked s q).
  set (msg1 := mkQueueMessage id data (default 0 (o_priority options)) delay
                 maxRetries 1 t0 (t0 + delay)).
  pose proof (callback_tracked_gone s q msg1 (mq_awaiting s)) as Hcb.
  cbn [qm_id qm_attempts qm_maxRetries qm_delay msg1] in Hcb. fold r in Hcb.
  rewrite (Hcb _ _ t1 (Some "boom") Hnin).
  destruct (Z.ltb_spec 1 maxRetries); [|lia].
  split; [tracked_proj; rewrite <- !app_assoc; reflexivity|].
  split; [reflexivity|].
  split; [apply queueOf_lookup, tracked_queue|].
  apply processQueue_tracked_done.
Qed.

Lemma clearQueue_witness :
  queueOf
    (callback "q" 0 (Some "boom") 10
       (clearQueue "q"
          (addMessage "q" "hello" (mkOptions None (Some 0) None (Some "m1")) "g" 0 mq_new)))
    "q" = [].
Proof.
  refine (proj1 (proj2 (proj2 (clearQueue_loses_the_retry mq_new "q" "hello"
                   (mkOptions None (Some 0) None (Some "m1")) "g" 0 10 0 _ _ _ _ _)))).
  - reflexivity.
  - apply not_elem_of_nil.
  - cbn. lia.
  - cbn. lia.
  - cbn. lia.
Defined.

(** ** Message queue: what a drain starts *)

Lemma In_take_filter {A} (f : A -> bool) (l : list A) n x :
  In x (take n (List.filter f l)) -> In x l /\ f x = true.
Proof. intros H. apply In_take in H. now apply filter_In in H. Qed.

(** X26. A drain starts only what is due: every execution that
    [processQueue] starts is of a message that stands in the queue, whose
    [scheduledFor] has come and whose id is not in flight; the message
    stays in the queue while it is executed. *)
Theorem processQueue_starts_only_what_is_due (s : MQ) (q : string) (now : Z) :
  exists started,
    dispatchedRefs (mq_events (processQueue q now s))
      = dispatchedRefs (mq_events s) ++ started /\
    Forall (fun r => In r (queueOf s q) /\
                     qm_scheduledFor (deref (mq_heap s) r) <= now /\
                     qm_id (deref (mq_heap s) r) ∉ processingOf s q) started /\
    mq_queues (processQueue q now s) = mq_queues s.
Proof.
  exists (toDispatch q now s). unfold processQueue.
  split; [apply dispatchedRefs_fold|]. split.
  - apply List.Forall_forall. intros r Hr. unfold toDispatch, queueOf in *.
    destruct (mq_queues s !! q) as [queue|]; [|destruct Hr].
    destruct (_ <=? _)%nat; [destruct Hr|].
    apply In_take_filter in Hr as [Hin Hready]. unfold isReady in Hready.
    apply andb_true_iff in Hready as [Hdue Hfree].
    apply Z.leb_le in Hdue. apply negb_true_iff, bool_decide_eq_false in Hfree.
    repeat split; assumption.
  - apply dispatch_fold_frame.
Qed.
